(** * Chunking, stitching and re-indexing of the roth-vectors pipeline

    A shallow embedding of
      - [src/cleanse/chunkUtils.ts]      (token chunker, [countTokens]),
      - [src/llm/stich.ts]               (chunk-set stitcher),
      - [src/finetune/stitchCleaned.ts]  (cleaned-chunk re-indexer),
    together with the properties the specification states about them,
    and of the programs around them,
      - [src/unnamed/part_001]           (the chunking program that calls
                                          the token chunker),
      - [src/llm/stich.ts], second part  (character splitter),
      - [src/finetune/main.ts]           (the name [processFile] gives a
                                          cleaned chunk),
      - [src/finetune/ready.ts]          (lookup of the document metadata),
    with further properties read off the code.

    How the programs are modelled:
      - A JavaScript string is the list of its UTF-16 code units
        ([list N]); [length] is [String.prototype.length].
      - The numbers of the chunker (sizes, indices) are integers ([Z]):
        outside its contract the loop computes with indices that are not
        positive.  Its [while] loop takes fuel, and [None] stands for a
        loop that has not been left.
      - The numbers in JSON documents are abstract ([JsNumber]); the
        chunk indices parsed from file names are natural numbers ([N]),
        which is exact for JavaScript numbers below 2^53.
      - The [Map] of groups is an association list in insertion order;
        the metadata object and the output folder are finite maps.
      - The file system is an explicit [world]: what [readdir] and
        [readFile] return and which [writeFile] calls succeed.  A file
        of the re-indexer is given by what [JSON.parse] makes of it.
      - Console output is a list of events; an exception that leaves
        [main] is part of its result.
      - The character splitter only adds to its index, which is a
        natural number ([nat]); chunk numbers are printed in decimal.
        It cuts strings at code units, so its output files are recorded
        as UTF-8 leaves them ([toWellFormed]).
      - [parseInt] is the number that the digits spell, which is what the
        source's [parseInt] returns up to [Number.MAX_SAFE_INTEGER]; the
        statements about whole runs of the stitch programs are made for
        listings within that bound ([safe_listing]). *)

From Stdlib Require Import ZArith NArith List Lia Ascii String Bool.
From Stdlib Require Import Sorting.Permutation Sorting.Sorted DecimalString DecimalNat.
From stdpp Require Import base list gmap.

Import ListNotations.

#[local] Open Scope list_scope.
#[local] Set Warnings "-abstract-large-number".

(** ** JavaScript strings *)

Abbreviation jsstring := (list N).

(** Code units of an ASCII literal. *)
Definition lit (s : string) : jsstring :=
  List.map N_of_ascii (list_ascii_of_string s).

(** [Array.prototype.join] on an array of strings. *)
Fixpoint join (sep : jsstring) (l : list jsstring) : jsstring :=
  match l with
  | [] => []
  | [x] => x
  | x :: l' => x ++ sep ++ join sep l'
  end.

(** [Array.prototype.slice(start, end)]: negative indices count from the
    end, both indices are clamped to the array. *)
Definition slice {A} (l : list A) (start end_ : Z) : list A :=
  let len := Z.of_nat (length l) in
  let k := if (start <? 0)%Z then Z.max (len + start) 0 else Z.min start len in
  let final := if (end_ <? 0)%Z then Z.max (len + end_) 0 else Z.min end_ len in
  firstn (Z.to_nat (final - k)) (skipn (Z.to_nat k) l).

(** [Array.prototype.slice(start)]: up to the end of the array. *)
Definition slice_from {A} (l : list A) (start : Z) : list A :=
  slice l start (Z.of_nat (length l)).

(** The character class [\s] of ECMAScript regular expressions
    (WhiteSpace and LineTerminator code points). *)
Definition is_space (c : N) : bool :=
  ((0x09 <=? c) && (c <=? 0x0d) || (c =? 0x20) || (c =? 0xa0) || (c =? 0x1680)
   || (0x2000 <=? c) && (c <=? 0x200a) || (c =? 0x2028) || (c =? 0x2029)
   || (c =? 0x202f) || (c =? 0x205f) || (c =? 0x3000) || (c =? 0xfeff))%N.

(** [s.split(/\s+/)]: the pieces of [s] between maximal runs of
    whitespace.  A leading or trailing run leaves an empty piece, and the
    empty string gives one empty piece. *)
Fixpoint split_ws (s : jsstring) : list jsstring :=
  match s with
  | [] => [[]]
  | c :: s' =>
      match split_ws s' with
      | p :: ps =>
          if is_space c then
            match s' with
            | c' :: _ => if is_space c' then p :: ps else [] :: p :: ps
            | [] => [] :: p :: ps
            end
          else (c :: p) :: ps
      | [] => [[c]]
      end
  end.

Definition nonempty (t : jsstring) : bool := (0 <? length t)%nat.

Module ChunkUtils.

(** [text.split(/\s+/).filter((token) => token.length > 0)] *)
Definition tokenize (text : jsstring) : list jsstring :=
  List.filter nonempty (split_ws text).

Definition OVERLAP_START : jsstring := lit "<OVERLAP_START>".
Definition OVERLAP_END : jsstring := lit "<OVERLAP_END>".
Definition SP : jsstring := lit " ".

(** The text of one chunk, from the window [currentTokens] that starts at
    token index [start]. *)
Definition render (start overlap : Z) (currentTokens : list jsstring) : jsstring :=
  if (0 <? start)%Z && (overlap <? Z.of_nat (length currentTokens))%Z then
    let overlapTokens := join SP (slice currentTokens 0 overlap) in
    let remainingTokens := join SP (slice_from currentTokens overlap) in
    OVERLAP_START ++ SP ++ overlapTokens ++ SP ++ OVERLAP_END ++ SP ++ remainingTokens
  else join SP currentTokens.

(** The [while (start < tokens.length)] loop.  One unit of [fuel] is
    spent per test of the loop condition; [None] means that the fuel ran
    out before the loop was left. *)
Fixpoint chunk_loop (fuel : nat) (tokens : list jsstring) (chunkSize overlap : Z)
    (start : Z) (chunks : list jsstring) : option (list jsstring) :=
  match fuel with
  | O => None
  | S fuel' =>
      let len := Z.of_nat (length tokens) in
      if (start <? len)%Z then
        let end_ := Z.min (start + chunkSize) len in
        let currentTokens := slice tokens start end_ in
        let chunks' := chunks ++ [render start overlap currentTokens] in
        if (end_ =? len)%Z then Some chunks'
        else chunk_loop fuel' tokens chunkSize overlap (end_ - overlap) chunks'
      else Some chunks
  end.

Definition splitIntoChunks (fuel : nat) (text : jsstring) (chunkSize overlap : Z)
    : option (list jsstring) :=
  chunk_loop fuel (tokenize text) chunkSize overlap 0 [].

Definition countTokens (text : jsstring) : nat :=
  length (tokenize text).

End ChunkUtils.

(** ** Reading a chunk sequence back *)

Module Overlap.
Import ChunkUtils.

(** A token is a non-empty string without whitespace. *)
Definition is_token (t : jsstring) : Prop :=
  t <> [] /\ Forall (fun c => is_space c = false) t.

(** Splitting at every single whitespace character ([s.split(/\s/)]);
    it has the same non-empty pieces as [split_ws] and is used to reason
    about [tokenize]. *)
Fixpoint pieces (s : jsstring) : list jsstring :=
  match s with
  | [] => [[]]
  | c :: s' =>
      if is_space c then [] :: pieces s'
      else match pieces s' with
           | p :: ps => (c :: p) :: ps
           | [] => [[c]]
           end
  end.

Definition jsstring_eqb (a b : jsstring) : bool := bool_decide (a = b).

(** What a consumer keeps of a non-initial chunk: when the chunk's tokens
    are the start marker, [overlap] duplicated tokens, the end marker and
    a rest, it keeps the rest; a chunk without the markers in these
    places is taken as already stripped. *)
Definition strip_overlap (overlap : Z) (chunk : jsstring) : list jsstring :=
  match tokenize chunk with
  | m :: ts =>
      if jsstring_eqb m OVERLAP_START
         && jsstring_eqb (nth (Z.to_nat overlap) ts []) OVERLAP_END
      then skipn (S (Z.to_nat overlap)) ts
      else m :: ts
  | [] => []
  end.

(** Chunk 1 as it is, followed by what is kept of chunks 2..n. *)
Definition reconstruct (overlap : Z) (chunks : list jsstring) : list jsstring :=
  match chunks with
  | [] => []
  | c :: rest => tokenize c ++ flat_map (strip_overlap overlap) rest
  end.

(** The window of chunk [i] (counted from 0): [chunkSize] tokens from
    index [i * (chunkSize - overlap)] on, as far as the tokens go. *)
Definition window (toks : list jsstring) (chunkSize overlap : Z) (i : nat)
    : list jsstring :=
  let start := (Z.of_nat i * (chunkSize - overlap))%Z in
  slice toks start (start + chunkSize).

(** The text of chunk [i]. *)
Definition chunk_at (toks : list jsstring) (chunkSize overlap : Z) (i : nat)
    : jsstring :=
  render (Z.of_nat i * (chunkSize - overlap)) overlap (window toks chunkSize overlap i).

(** The tokens of a chunk are the window [w] with the two markers around
    its first [overlap] tokens. *)
Definition marked (overlap : Z) (w : list jsstring) (chunk : jsstring) : Prop :=
  tokenize chunk
  = OVERLAP_START :: firstn (Z.to_nat overlap) w
      ++ OVERLAP_END :: skipn (Z.to_nat overlap) w.

End Overlap.

(** ** File names, as both stitch programs read them *)

(** [\d] *)
Definition is_digit (c : N) : bool := ((0x30 <=? c) && (c <=? 0x39))%N.

(** The code units that [.] does not match (no [s] flag). *)
Definition is_line_terminator (c : N) : bool :=
  ((c =? 0x0a) || (c =? 0x0d) || (c =? 0x2028) || (c =? 0x2029))%N.

Fixpoint take_digits (s : jsstring) : jsstring :=
  match s with
  | c :: s' => if is_digit c then c :: take_digits s' else []
  | [] => []
  end.

Fixpoint drop_digits (s : jsstring) : jsstring :=
  match s with
  | c :: s' => if is_digit c then drop_digits s' else s
  | [] => []
  end.

Definition DASH : N := 0x2d%N.

(** [-(\d+)<ext>$] against the rest of the name: a dash, the longest run
    of digits (a shorter run would leave a digit where [ext], which
    starts with a dot, has to match), and exactly [ext] up to the end. *)
Definition match_suffix (ext rest : jsstring) : option jsstring :=
  match rest with
  | c :: r =>
      if (c =? DASH)%N
         && nonempty (take_digits r) && bool_decide (drop_digits r = ext)
      then Some (take_digits r)
      else None
  | [] => None
  end.

(** The whole pattern: a greedy first group of any characters, anchored
    at the start of the name, then [-(\d+)<ext>$].  The first group is
    tried at every length, the longest first; it cannot run over a line
    terminator. *)
Fixpoint match_from (ext : jsstring) (k : nat) (name : jsstring)
    : option (jsstring * jsstring) :=
  let here :=
    if forallb (fun c => negb (is_line_terminator c)) (firstn k name) then
      match match_suffix ext (skipn k name) with
      | Some digits => Some (firstn k name, digits)
      | None => None
      end
    else None in
  match here, k with
  | Some m, _ => Some m
  | None, S k' => match_from ext k' name
  | None, O => None
  end.

(** [file.match(regex)]: the two captured groups. *)
Definition match_name (ext name : jsstring) : option (jsstring * jsstring) :=
  match_from ext (length name) name.

(** [parseInt(digits, 10)] on a non-empty run of ASCII digits: the number
    that the digits spell.  This is the value of the source's [parseInt],
    a double, for numbers up to 2^53; a longer run of digits parses to a
    rounded double, which is not modelled. *)
Definition parseInt (digits : jsstring) : N :=
  fold_left (fun acc c => (10 * acc + (c - 0x30))%N) digits 0%N.

(** [String.prototype.toLowerCase], on the ASCII letters.  The case
    mapping of other code points is not modelled; none of them maps to a
    text ending in [.], [t] or [x], the only characters the programs
    look for in a lowered name. *)
Definition toLowerCase (s : jsstring) : jsstring :=
  List.map (fun c => if ((0x41 <=? c) && (c <=? 0x5a))%N then (c + 32)%N else c) s.

(** [String.prototype.endsWith] *)
Definition endsWith (s suffix : jsstring) : bool :=
  (length suffix <=? length s)%nat
  && bool_decide (skipn (length s - length suffix) s = suffix).

Definition TXT : jsstring := lit ".txt".
Definition NL : jsstring := [0x0a%N].

Fixpoint last_index_of (c : N) (s : jsstring) : option nat :=
  match s with
  | [] => None
  | x :: s' =>
      match last_index_of c s' with
      | Some i => Some (S i)
      | None => if (x =? c)%N then Some O else None
      end
  end.

(** [path.parse(p).name] (POSIX) for a name without [/], which is what
    [readdir] returns: the name up to its last dot, unless that dot is
    the first character or the name is [..]. *)
Definition path_parse_name (p : jsstring) : jsstring :=
  match last_index_of 0x2e%N p with
  | None => p
  | Some startDot =>
      if (startDot =? 0)%nat || bool_decide (p = lit "..") then p
      else firstn startDot p
  end.

(** [files.sort((a, b) => key(a) - key(b))]: the sort is stable. *)
Fixpoint insert_by {A} (key : A -> N) (x : A) (l : list A) : list A :=
  match l with
  | [] => [x]
  | y :: l' => if (key x <=? key y)%N then x :: y :: l' else y :: insert_by key x l'
  end.

Fixpoint sort_by {A} (key : A -> N) (l : list A) : list A :=
  match l with
  | [] => []
  | x :: l' => insert_by key x (sort_by key l')
  end.

(** Ascending order of the keys, weak and strict. *)
Definition key_le {A} (key : A -> N) (a b : A) : Prop := (key a <= key b)%N.
Definition key_lt {A} (key : A -> N) (a b : A) : Prop := (key a < key b)%N.

(** The entries of the [groups] map, in insertion order.
    [push_group] is
      [if (!groups.has(baseName)) groups.set(baseName, []);]
      [groups.get(baseName)!.push(info);] *)
Fixpoint push_group {A} (baseName : jsstring) (info : A)
    (groups : list (jsstring * list A)) : list (jsstring * list A) :=
  match groups with
  | [] => [(baseName, [info])]
  | (b, infos) :: rest =>
      if bool_decide (b = baseName) then (b, infos ++ [info]) :: rest
      else (b, infos) :: push_group baseName info rest
  end.

(** ** The chunk-set stitcher ([src/llm/stich.ts]) *)

Module Stich.

Record ChunkInfo := { fileName : jsstring; chunk : N }.

(** What the program finds on disk: the names in the [cleansed] folder
    ([None] when [readdir] fails), the content of each file ([None] when
    [readFile] fails), and whether a [writeFile] to an output name
    succeeds.  The input and the output folder are distinct, so reads do
    not see the writes of the run. *)
Record world := {
  readdir : option (list jsstring);
  readFile : jsstring -> option jsstring;
  writeFile_ok : jsstring -> bool
}.

(** Console output. *)
Inductive event :=
| ReaddirError
| SkippedWarning (file : jsstring)
| ReadError (file : jsstring)
| SavedLog (outputFileName : jsstring)
| WriteError (outputFileName : jsstring).

(** The files written to the [cleansed_stiched] folder by the run, the
    [stitchMetadata] object and the console.  Every key of
    [stitchMetadata] is an output name, which ends in [.txt] in some letter
    case, so the object is used as a plain map. *)
Record state := {
  written : gmap jsstring jsstring;
  stitchMetadata : gmap jsstring nat;
  console : list event
}.

(** One turn of [for (const file of fileNames)]. *)
Definition group_file (acc : list (jsstring * list ChunkInfo) * list event)
    (file : jsstring) : list (jsstring * list ChunkInfo) * list event :=
  let '(groups, log) := acc in
  match match_name TXT file with
  | Some (baseName, digits) =>
      let chunkNum := parseInt digits in
      (push_group baseName {| fileName := file; chunk := chunkNum |} groups, log)
  | None => (groups, log ++ [SkippedWarning file])
  end.

(** [for (const fileInfo of files)]: append each readable content and a
    newline. *)
Fixpoint read_files (w : world) (files : list ChunkInfo)
    (stitchedText : jsstring) (log : list event) : jsstring * list event :=
  match files with
  | [] => (stitchedText, log)
  | fileInfo :: rest =>
      match readFile w (fileName fileInfo) with
      | Some content => read_files w rest (stitchedText ++ content ++ NL) log
      | None => read_files w rest stitchedText (log ++ [ReadError (fileName fileInfo)])
      end
  end.

(** The text stitched for one group, with its header. *)
Definition stitch (w : world) (baseName : jsstring) (files : list ChunkInfo)
    (log : list event) : jsstring * list event :=
  let sorted := sort_by chunk files in
  let '(stitchedText, log') := read_files w sorted [] log in
  let header := path_parse_name baseName in
  (header ++ NL ++ NL ++ stitchedText, log').

Definition outputFileName (baseName : jsstring) : jsstring :=
  if negb (endsWith (toLowerCase baseName) TXT) then baseName ++ TXT else baseName.

(** One turn of [for (const [baseName, files] of groups.entries())]. *)
Definition process_group (w : world) (st : state)
    (group : jsstring * list ChunkInfo) : state :=
  let '(baseName, files) := group in
  let '(stitchedText, log) := stitch w baseName files (console st) in
  let name := outputFileName baseName in
  if writeFile_ok w name then
    {| written := <[name := stitchedText]> (written st);
       stitchMetadata := <[name := length stitchedText]> (stitchMetadata st);
       console := log ++ [SavedLog name] |}
  else
    {| written := written st;
       stitchMetadata := stitchMetadata st;
       console := log ++ [WriteError name] |}.

(** [main], from the point where the output folder exists up to the
    point where [stitchMetadata] is saved as [stichfile.json]. *)
Definition main (w : world) : state :=
  match readdir w with
  | None => {| written := ∅; stitchMetadata := ∅; console := [ReaddirError] |}
  | Some fileNames =>
      let '(groups, log) := fold_left group_file fileNames ([], []) in
      fold_left (process_group w) groups
        {| written := ∅; stitchMetadata := ∅; console := log |}
  end.

End Stich.

(** ** JSON values *)

(** JavaScript numbers are kept abstract: the programs only create the
    numbers [index + 1] ([num_of_nat]) and print numbers with
    [JSON.stringify] ([num_to_string]). *)
Class JsNumber (num : Type) := {
  num_of_nat : nat -> num;
  num_to_string : num -> jsstring
}.

(** Decimal digits of an array index, as a property key. *)
Definition index_key (i : nat) : jsstring :=
  lit (NilZero.string_of_uint (Nat.to_uint i)).

(** The integers, printed in decimal, as far as examples need numbers. *)
Definition Z_to_string (z : Z) : jsstring :=
  match z with
  | Z0 => lit "0"
  | Zpos p => index_key (Pos.to_nat p)
  | Zneg p => lit "-" ++ index_key (Pos.to_nat p)
  end.

#[export] Instance Z_JsNumber : JsNumber Z :=
  {| num_of_nat := Z.of_nat; num_to_string := Z_to_string |}.

Section Json.
Context `{JsNumber num}.

(** A value as [JSON.parse] returns it.  The properties of an object are
    listed in property order. *)
#[local] Unset Elimination Schemes.
Inductive json :=
| JNull
| JBool (b : bool)
| JNum (n : num)
| JStr (s : jsstring)
| JArr (items : list json)
| JObj (props : list (jsstring * json)).
#[local] Set Elimination Schemes.

Fixpoint get_prop (k : jsstring) (props : list (jsstring * json)) : option json :=
  match props with
  | [] => None
  | (k', v) :: rest => if bool_decide (k' = k) then Some v else get_prop k rest
  end.

(** Assignment to a property whose key is not an array index: an existing
    property keeps its place, a new one goes last. *)
Fixpoint set_prop (k : jsstring) (v : json) (props : list (jsstring * json))
    : list (jsstring * json) :=
  match props with
  | [] => [(k, v)]
  | (k', v') :: rest =>
      if bool_decide (k' = k) then (k', v) :: rest else (k', v') :: set_prop k v rest
  end.

(** The own enumerable properties that [{...v}] copies. *)
Definition spread (v : json) : list (jsstring * json) :=
  match v with
  | JObj props => props
  | JArr items => imap (fun i x => (index_key i, x)) items
  | JStr s => imap (fun i c => (index_key i, JStr [c])) s
  | JNull | JBool _ | JNum _ => []
  end.

(** *** JSON.stringify *)

Definition hex_digit (n : N) : N :=
  if (n <? 10)%N then (0x30 + n)%N else (0x61 + (n - 10))%N.

(** [\uXXXX] with lower-case hexadecimal digits. *)
Definition unicode_escape (c : N) : jsstring :=
  [0x5c; 0x75; hex_digit (c / 4096 mod 16); hex_digit (c / 256 mod 16);
   hex_digit (c / 16 mod 16); hex_digit (c mod 16)]%N.

Definition is_high_surrogate (c : N) : bool := ((0xd800 <=? c) && (c <=? 0xdbff))%N.
Definition is_low_surrogate (c : N) : bool := ((0xdc00 <=? c) && (c <=? 0xdfff))%N.

(** The body of QuoteJSONString. *)
Fixpoint quote_units (s : jsstring) : jsstring :=
  match s with
  | [] => []
  | c :: s' =>
      if (c =? 0x08)%N then [0x5c; 0x62]%N ++ quote_units s'
      else if (c =? 0x09)%N then [0x5c; 0x74]%N ++ quote_units s'
      else if (c =? 0x0a)%N then [0x5c; 0x6e]%N ++ quote_units s'
      else if (c =? 0x0c)%N then [0x5c; 0x66]%N ++ quote_units s'
      else if (c =? 0x0d)%N then [0x5c; 0x72]%N ++ quote_units s'
      else if (c =? 0x22)%N then [0x5c; 0x22]%N ++ quote_units s'
      else if (c =? 0x5c)%N then [0x5c; 0x5c]%N ++ quote_units s'
      else if (c <? 0x20)%N then unicode_escape c ++ quote_units s'
      else if is_high_surrogate c then
        match s' with
        | d :: s'' =>
            if is_low_surrogate d then c :: d :: quote_units s''
            else unicode_escape c ++ quote_units s'
        | [] => unicode_escape c
        end
      else if is_low_surrogate c then unicode_escape c ++ quote_units s'
      else c :: quote_units s'
  end.

Definition quote (s : jsstring) : jsstring :=
  [0x22%N] ++ quote_units s ++ [0x22%N].

(** The serialized members between brackets: on one line without a gap,
    one member per line at the new indentation with one. *)
Definition wrap (opening closing gap indent : jsstring) (partial : list jsstring)
    : jsstring :=
  match partial with
  | [] => opening ++ closing
  | _ :: _ =>
      if nonempty gap then
        opening ++ NL ++ (indent ++ gap)
          ++ join (lit "," ++ NL ++ (indent ++ gap)) partial
          ++ NL ++ indent ++ closing
      else opening ++ join (lit ",") partial ++ closing
  end.

(** SerializeJSONProperty with the gap [gap] at indentation [indent]. *)
Fixpoint serialize (gap indent : jsstring) (v : json) : jsstring :=
  match v with
  | JNull => lit "null"
  | JBool b => if b then lit "true" else lit "false"
  | JNum n => num_to_string n
  | JStr s => quote s
  | JArr items =>
      wrap (lit "[") (lit "]") gap indent
        (List.map (serialize gap (indent ++ gap)) items)
  | JObj props =>
      wrap (lit "{") (lit "}") gap indent
        (List.map (fun kv =>
                     match kv with
                     | (k, x) =>
                         quote k ++ lit ":" ++ (if nonempty gap then lit " " else [])
                           ++ serialize gap (indent ++ gap) x
                     end) props)
  end.

(** [JSON.stringify(v)] *)
Definition stringify (v : json) : jsstring := serialize [] [] v.

(** [JSON.stringify(v, null, 2)] *)
Definition stringify_2 (v : json) : jsstring := serialize (lit "  ") [] v.

End Json.

Arguments json : clear implicits.

(** ** The cleaned-chunk re-indexer ([src/finetune/stitchCleaned.ts]) *)

Module StitchCleaned.

Record FileInfo := { fileName : jsstring; chunkNum : N }.

(** The exception that the data of a record can raise outside the [try]
    blocks of [main]: reading a property of [null].  The exceptions of
    exhausted resources (memory, the engine's limit on the number of
    arguments of [push(...chunks)]) are not modelled; they depend on the
    engine and not on what the program computes. *)
Inductive exn := TypeError.

Inductive completion (A : Type) :=
| Normal (a : A)
| Throw (e : exn).
Arguments Normal {A} a.
Arguments Throw {A} e.

Section Program.
Context `{JsNumber num}.

(** A file of the [clean] folder as the program gets to see it:
    [readFile] fails, [JSON.parse] throws on the content, or it returns a
    value. *)
Inductive file_data :=
| Unreadable
| NotJSON
| Parsed (jsonData : json num).

Record world := {
  readdir : option (list jsstring);
  readFile : jsstring -> file_data;
  writeFile_ok : jsstring -> bool
}.

(** Console output. *)
Inductive event :=
| ReaddirError
| SkippedWarning (file : jsstring)
| ReadError (file : jsstring)
| ParseError (file : jsstring)
| NoChunksWarning (file : jsstring)
| SavedLog (finalFileName : jsstring) (count : nat)
| WriteError (baseName : jsstring)
| UncaughtError (e : exn).

(** The files written to the [clean_stiched] folder by the run, the
    [stitchMetadata] object and the console.  Every key of
    [stitchMetadata] is an output name, which ends in [.txt] in some letter
    case, so the object is used as a plain map. *)
Record state := {
  written : gmap jsstring jsstring;
  stitchMetadata : gmap jsstring nat;
  console : list event
}.

(** One turn of [for (const file of fileNames)]. *)
Definition group_file (acc : list (jsstring * list FileInfo) * list event)
    (file : jsstring) : list (jsstring * list FileInfo) * list event :=
  let '(groups, log) := acc in
  match match_name (lit ".json") file with
  | None => (groups, log ++ [SkippedWarning file])
  | Some (baseName, digits) =>
      let chunkNum := parseInt digits in
      (push_group baseName {| fileName := file; chunkNum := chunkNum |} groups, log)
  end.

(** [jsonData.chunks]: a [TypeError] on [null], the property of an
    object, [undefined] (here [None]) on every other value. *)
Definition chunks_member (jsonData : json num) : completion (option (json num)) :=
  match jsonData with
  | JNull => Throw TypeError
  | JObj props => Normal (get_prop (lit "chunks") props)
  | JBool _ | JNum _ | JStr _ | JArr _ => Normal None
  end.

(** [for (const fileInfo of files)]: push the chunks of every file that
    can be read and parsed and has a [chunks] array. *)
Fixpoint merge_files (w : world) (files : list FileInfo)
    (mergedChunks : list (json num)) (log : list event)
    : completion (list (json num)) * list event :=
  match files with
  | [] => (Normal mergedChunks, log)
  | fileInfo :: rest =>
      match readFile w (fileName fileInfo) with
      | Unreadable =>
          merge_files w rest mergedChunks (log ++ [ReadError (fileName fileInfo)])
      | NotJSON =>
          merge_files w rest mergedChunks (log ++ [ParseError (fileName fileInfo)])
      | Parsed jsonData =>
          match chunks_member jsonData with
          | Throw e => (Throw e, log)
          | Normal (Some (JArr chunks)) =>
              merge_files w rest (mergedChunks ++ chunks) log
          | Normal _ =>
              merge_files w rest mergedChunks
                (log ++ [NoChunksWarning (fileName fileInfo)])
          end
      end
  end.

(** [mergedChunks.map((chunk, index) => ({...chunk, chunkNumber: index + 1}))] *)
Definition reindex (mergedChunks : list (json num)) : list (json num) :=
  imap (fun index chunk =>
          JObj (set_prop (lit "chunkNumber") (JNum (num_of_nat (index + 1)))
                  (spread chunk)))
    mergedChunks.

(** The chunk list of one group: sort the files, merge, re-index. *)
Definition merge_group (w : world) (files : list FileInfo) (log : list event)
    : completion (list (json num)) * list event :=
  match merge_files w (sort_by chunkNum files) [] log with
  | (Normal mergedChunks, log') => (Normal (reindex mergedChunks), log')
  | (Throw e, log') => (Throw e, log')
  end.

Definition finalFileName (baseName : jsstring) : jsstring :=
  if negb (endsWith (toLowerCase baseName) TXT) then baseName ++ TXT else baseName.

Definition finalJSON (mergedChunks : list (json num)) : json num :=
  JObj [(lit "chunks", JArr mergedChunks)].

(** One turn of [for (const [baseName, files] of groups.entries())]; with
    [Some e] the turn was left by the exception [e]. *)
Definition process_group (w : world) (st : state)
    (group : jsstring * list FileInfo) : state * option exn :=
  let '(baseName, files) := group in
  match merge_group w files (console st) with
  | (Throw e, log) =>
      ({| written := written st;
          stitchMetadata := stitchMetadata st;
          console := log |}, Some e)
  | (Normal mergedChunks, log) =>
      let name := finalFileName baseName in
      if writeFile_ok w name then
        ({| written := <[name := stringify_2 (finalJSON mergedChunks)]> (written st);
            stitchMetadata :=
              <[name := length (stringify (finalJSON mergedChunks))]> (stitchMetadata st);
            console := log ++ [SavedLog name (length mergedChunks)] |}, None)
      else
        ({| written := written st;
            stitchMetadata := stitchMetadata st;
            console := log ++ [WriteError baseName] |}, None)
  end.

(** The loop over the groups; an exception leaves it at once. *)
Fixpoint process_groups (w : world) (groups : list (jsstring * list FileInfo))
    (st : state) : state * option exn :=
  match groups with
  | [] => (st, None)
  | group :: rest =>
      match process_group w st group with
      | (st', None) => process_groups w rest st'
      | (st', Some e) => (st', Some e)
      end
  end.

(** [main().catch(...)], from the point where the output folder exists up
    to the point where [stitchMetadata] is saved as [stichfile.json].
    With [Some e] the exception [e] left [main] before that point: the
    handler reports it and the metadata file is not written. *)
Definition main (w : world) : state * option exn :=
  match readdir w with
  | None => ({| written := ∅; stitchMetadata := ∅; console := [ReaddirError] |}, None)
  | Some fileNames =>
      let '(groups, log) := fold_left group_file fileNames ([], []) in
      match process_groups w groups
              {| written := ∅; stitchMetadata := ∅; console := log |} with
      | (st, None) => (st, None)
      | (st, Some e) =>
          ({| written := written st;
              stitchMetadata := stitchMetadata st;
              console := console st ++ [UncaughtError e] |}, Some e)
      end
  end.

End Program.

Arguments file_data : clear implicits.
Arguments world : clear implicits.

End StitchCleaned.

(** ** Notions used in the statements *)

(** Every metadata entry of the stitcher is the length of the file the
    run wrote under that name. *)
Definition stich_metadata_ok (st : Stich.state) : Prop :=
  forall (name : jsstring) (len : nat),
    Stich.stitchMetadata st !! name = Some len ->
    exists content : jsstring,
      Stich.written st !! name = Some content /\ len = length content.

Definition shorter (a b : jsstring) : Prop := (length a <= length b)%nat.

Section ReindexNotions.
Context `{JsNumber num}.
Import StitchCleaned.

(** Every metadata entry of the re-indexer is the length of the compact
    serialization of the document whose indented serialization the run
    wrote under that name. *)
Definition cleaned_metadata_ok (st : state) : Prop :=
  forall (name : jsstring) (len : nat),
    stitchMetadata st !! name = Some len ->
    exists mergedChunks : list (json num),
      written st !! name = Some (stringify_2 (finalJSON mergedChunks))
      /\ len = length (stringify (finalJSON mergedChunks)).

(** The sub-chunk list of a source record: the [chunks] array of the
    object in its file, and nothing for any other file. *)
Definition chunks_of (w : world num) (f : FileInfo) : list (json num) :=
  match readFile w (fileName f) with
  | Parsed (JObj props) =>
      match get_prop (lit "chunks") props with
      | Some (JArr chunks) => chunks
      | _ => []
      end
  | _ => []
  end.

(** A well-formed source record: its file holds an object with a
    [chunks] array. *)
Definition well_formed (w : world num) (f : FileInfo) : Prop :=
  exists props chunks,
    readFile w (fileName f) = Parsed (JObj props)
    /\ get_prop (lit "chunks") props = Some (JArr chunks).

(** A chunk list that is numbered 1..k: every element is an object whose
    [chunkNumber] is its position, counted from 1. *)
Definition numbered (chunks : list (json num)) : Prop :=
  forall (i : nat) (c : json num),
    chunks !! i = Some c ->
    exists props,
      c = JObj props
      /\ get_prop (lit "chunkNumber") props = Some (JNum (num_of_nat (i + 1))).

(** A record that the merge passes over: its file cannot be read or
    parsed, or holds a value other than [null] without a [chunks]
    array. *)
Definition skipped (w : world num) (f : FileInfo) : bool :=
  match readFile w (fileName f) with
  | Unreadable | NotJSON => true
  | Parsed jsonData =>
      match chunks_member jsonData with
      | Normal (Some (JArr _)) => false
      | Normal _ => true
      | Throw _ => false
      end
  end.

(** What the console shows for a record that is passed over. *)
Definition skip_event (w : world num) (f : FileInfo) : event :=
  match readFile w (fileName f) with
  | Unreadable => ReadError (fileName f)
  | NotJSON => ParseError (fileName f)
  | Parsed _ => NoChunksWarning (fileName f)
  end.

(** The names that follow the [<baseName>-<index>.json] convention. *)
Definition matches_json (file : jsstring) : bool :=
  match match_name (lit ".json") file with
  | Some _ => true
  | None => false
  end.

End ReindexNotions.

(** ** Concrete inputs used in examples *)

Module Examples.

(** The 25-token text of the specification's end-to-end example. *)
Definition t25 : jsstring :=
  lit "t1 t2 t3 t4 t5 t6 t7 t8 t9 t10 t11 t12 t13 t14 t15 t16 t17 t18 t19 t20 t21 t22 t23 t24 t25".

(** A [cleansed] folder with three chunks of [doc.pdf] listed out of
    order and one name outside the convention. *)
Definition stich_world : Stich.world :=
  {| Stich.readdir :=
       Some [lit "doc.pdf-10.txt"; lit "doc.pdf-2.txt"; lit "notes";
             lit "doc.pdf-1.txt"];
     Stich.readFile := fun f =>
       if bool_decide (f = lit "doc.pdf-1.txt") then Some (lit "one")
       else if bool_decide (f = lit "doc.pdf-2.txt") then Some (lit "two")
       else if bool_decide (f = lit "doc.pdf-10.txt") then Some (lit "ten")
       else None;
     Stich.writeFile_ok := fun _ => true |}.

(** The same folder listed in another order. *)
Definition stich_world_relisted : Stich.world :=
  {| Stich.readdir :=
       Some [lit "doc.pdf-1.txt"; lit "notes"; lit "doc.pdf-2.txt";
             lit "doc.pdf-10.txt"];
     Stich.readFile := Stich.readFile stich_world;
     Stich.writeFile_ok := fun _ => true |}.

Definition part (file : string) (index : N) : Stich.ChunkInfo :=
  {| Stich.fileName := lit file; Stich.chunk := index |}.

Definition chunk_object (n : Z) (text : string) : json Z :=
  JObj [(lit "chunkNumber", JNum n); (lit "cleanedText", JStr (lit text))].

Definition record (file : string) (index : N) : StitchCleaned.FileInfo :=
  {| StitchCleaned.fileName := lit file; StitchCleaned.chunkNum := index |}.

(** A [clean] folder with [doc.pdf-2.json] listed before
    [doc.pdf-1.json]; both number their chunks from 1. *)
Definition cleaned_world : StitchCleaned.world Z :=
  {| StitchCleaned.readdir := Some [lit "doc.pdf-2.json"; lit "doc.pdf-1.json"];
     StitchCleaned.readFile := fun f =>
       if bool_decide (f = lit "doc.pdf-1.json") then
         StitchCleaned.Parsed
           (JObj [(lit "chunks", JArr [chunk_object 1 "a"; chunk_object 2 "b"])])
       else if bool_decide (f = lit "doc.pdf-2.json") then
         StitchCleaned.Parsed
           (JObj [(lit "chunks", JArr [chunk_object 1 "c"; chunk_object 7 "d"])])
       else StitchCleaned.Unreadable;
     StitchCleaned.writeFile_ok := fun _ => true |}.

(** A [clean] folder whose only file holds a document that is already
    numbered. *)
Definition renumbered_world : StitchCleaned.world Z :=
  {| StitchCleaned.readdir := Some [lit "doc.pdf-1.json"];
     StitchCleaned.readFile := fun f =>
       if bool_decide (f = lit "doc.pdf-1.json") then
         StitchCleaned.Parsed
           (JObj [(lit "chunks", JArr [chunk_object 1 "a"; chunk_object 2 "b"])])
       else StitchCleaned.Unreadable;
     StitchCleaned.writeFile_ok := fun _ => true |}.

(** A [clean] folder in which the file of [a] holds the JSON text
    [null] and the file of [b] holds one chunk. *)
Definition null_world : StitchCleaned.world Z :=
  {| StitchCleaned.readdir := Some [lit "a-1.json"; lit "b-1.json"];
     StitchCleaned.readFile := fun f =>
       if bool_decide (f = lit "a-1.json") then StitchCleaned.Parsed JNull
       else if bool_decide (f = lit "b-1.json") then
         StitchCleaned.Parsed (JObj [(lit "chunks", JArr [chunk_object 1 "x"])])
       else StitchCleaned.Unreadable;
     StitchCleaned.writeFile_ok := fun _ => true |}.

(** The same folder without the file of [a]. *)
Definition null_world_without : StitchCleaned.world Z :=
  {| StitchCleaned.readdir := Some [lit "b-1.json"];
     StitchCleaned.readFile := StitchCleaned.readFile null_world;
     StitchCleaned.writeFile_ok := fun _ => true |}.

End Examples.

(** ** The character splitter (second program of [src/llm/stich.ts]) *)

(** The name of chunk file [i] of a document:
    [`${baseName}-${chunkNumber}.txt`]; the number is printed in
    decimal. *)
Definition chunk_file_name (baseName : jsstring) (chunkNumber : nat) : jsstring :=
  baseName ++ lit "-" ++ index_key chunkNumber ++ lit ".txt".

(** What a file written with [fs.writeFile(path, s, "utf8")] holds, as the
    string that reading it back gives: the encoder writes U+FFFD for
    every surrogate code unit that is not part of a pair
    ([String.prototype.toWellFormed]).  A string that was read from a
    file has no such code unit, but a piece cut out of it at a code-unit
    index can begin or end inside a pair. *)
Fixpoint toWellFormed (s : jsstring) : jsstring :=
  match s with
  | [] => []
  | c :: s' =>
      if is_high_surrogate c then
        match s' with
        | d :: s'' =>
            if is_low_surrogate d then c :: d :: toWellFormed s''
            else 0xFFFD%N :: toWellFormed s'
        | [] => [0xFFFD%N]
        end
      else if is_low_surrogate c then 0xFFFD%N :: toWellFormed s'
      else c :: toWellFormed s'
  end.

Module SplitByChars.

(** [String.prototype.substring(start, end)]: both indices are clamped to
    the string and swapped when [start > end]. *)
Definition substring (s : jsstring) (start end_ : nat) : jsstring :=
  let a := Nat.min start (length s) in
  let b := Nat.min end_ (length s) in
  firstn (Nat.max a b - Nat.min a b) (skipn (Nat.min a b) s).

(** [String.prototype.substring(start)] *)
Definition substring_from (s : jsstring) (start : nat) : jsstring :=
  substring s start (length s).

Definition OVERLAP_START_LINE : jsstring := lit "=== OVERLAP_START ===" ++ NL.
Definition OVERLAP_END_LINE : jsstring := NL ++ lit "=== OVERLAP_END ===" ++ NL.

(** The chunk pushed for the piece [chunk] cut at [startIndex]. *)
Definition mark (OVERLAP startIndex : nat) (chunk : jsstring) : jsstring :=
  if (0 <? startIndex)%nat then
    let overlapText := substring chunk 0 OVERLAP in
    OVERLAP_START_LINE ++ overlapText ++ OVERLAP_END_LINE ++ substring_from chunk OVERLAP
  else chunk.

(** The [while (startIndex < content.length)] loop, for
    [OVERLAP <= CHUNK_SIZE].  One unit of [fuel] is spent per test of the
    loop condition; [None] means that the fuel ran out before the loop
    was left. *)
Fixpoint split_loop (fuel : nat) (CHUNK_SIZE OVERLAP : nat) (content : jsstring)
    (startIndex : nat) (chunks : list jsstring) : option (list jsstring) :=
  match fuel with
  | O => None
  | S fuel' =>
      if (startIndex <? length content)%nat then
        let chunk := substring content startIndex (startIndex + CHUNK_SIZE) in
        split_loop fuel' CHUNK_SIZE OVERLAP content
          (startIndex + (CHUNK_SIZE - OVERLAP))
          (chunks ++ [mark OVERLAP startIndex chunk])
      else Some chunks
  end.

Definition CHUNK_SIZE : nat := 10000.
Definition OVERLAP : nat := 200.

(** The chunks of one file.  The loop condition is tested at most
    [length content + 1] times, so this fuel never runs out. *)
Definition split_content (content : jsstring) : option (list jsstring) :=
  split_loop (S (length content)) CHUNK_SIZE OVERLAP content 0 [].

Record world := {
  readdir : option (list jsstring);
  readFile : jsstring -> option jsstring;
  writeFile_ok : jsstring -> bool
}.

Inductive event :=
| ReaddirError
| ReadError (fileName : jsstring)
| WroteLog (outputFileName : jsstring) (length : nat)
| WriteError (outputFileName : jsstring).

(** The files written to the [cleaned_split] folder by the run, each as
    the string that reading it back gives, and the console. *)
Record state := {
  written : gmap jsstring jsstring;
  console : list event
}.

(** One turn of [for (let i = 0; i < chunks.length; i++)], for the chunk
    at index [i]. *)
Definition save_chunk (w : world) (baseNameWithoutExt : jsstring) (st : state)
    (i : nat) (chunk : jsstring) : state :=
  let chunkNumber := (i + 1)%nat in
  let header := baseNameWithoutExt ++ NL ++ NL in
  let chunkContent := header ++ chunk in
  let outputFileName := chunk_file_name baseNameWithoutExt chunkNumber in
  if writeFile_ok w outputFileName then
    {| written := <[outputFileName := toWellFormed chunkContent]> (written st);
       console := console st ++ [WroteLog outputFileName (length chunkContent)] |}
  else
    {| written := written st;
       console := console st ++ [WriteError outputFileName] |}.

(** The saving loop, from index [i] on. *)
Fixpoint save_chunks (w : world) (baseNameWithoutExt : jsstring) (st : state)
    (i : nat) (chunks : list jsstring) : state :=
  match chunks with
  | [] => st
  | chunk :: rest =>
      save_chunks w baseNameWithoutExt (save_chunk w baseNameWithoutExt st i chunk)
        (S i) rest
  end.

(** One turn of [for (const fileName of fileNames)]. *)
Definition process_file (w : world) (st : state) (fileName : jsstring) : state :=
  match readFile w fileName with
  | None => {| written := written st; console := console st ++ [ReadError fileName] |}
  | Some content =>
      let baseNameWithoutExt := path_parse_name fileName in
      match split_content content with
      | Some chunks => save_chunks w baseNameWithoutExt st 0 chunks
      | None => st (* not reached: the fuel suffices *)
      end
  end.

(** [main], from the point where the output folder exists. *)
Definition main (w : world) : state :=
  match readdir w with
  | None => {| written := ∅; console := [ReaddirError] |}
  | Some fileNames =>
      fold_left (process_file w) fileNames {| written := ∅; console := [] |}
  end.

End SplitByChars.

(** ** The chunking program ([cleanse/main.ts], [src/unnamed/part_001]) *)

(** [path.basename(p, ext)] (POSIX) for a name without [/] and a
    non-empty [ext]. *)
Definition path_basename (p ext : jsstring) : jsstring :=
  if endsWith p ext then firstn (length p - length ext) p else p.

(** [s.replace(/\.txt$/i, "")] *)
Definition strip_txt (s : jsstring) : jsstring :=
  if endsWith (toLowerCase s) TXT then firstn (length s - length TXT) s else s.

Module Cleanse.

(** The files the program reads, by folder. *)
Inductive source_path :=
| InputText (name : jsstring)
| OutputPdf (name : jsstring).

(** [fileMap] is the object in [files.json], as the list of its entries
    [(filename, info.type)] in the order of [Object.entries]; [None] when
    the file cannot be read or parsed.  The object is of its declared
    type: every value is an object, whose [type] is a string (a missing
    [type] is any string other than [text] and [pdf]).  File names hold
    no [/]. *)
Record world := {
  fileMap : option (list (jsstring * jsstring));
  readFile : source_path -> option jsstring;
  writeFile_ok : jsstring -> bool
}.

Inductive event :=
| FilesJsonError
| UnknownTypeWarning (filename : jsstring)
| ReadError (filePath : source_path)
| WrittenLog (chunkNumber : nat) (filename outputFileName : jsstring) (tokenCount : nat)
| WriteError (outputFileName : jsstring).

(** The files written to the [prepared] folder by the run, and the
    console. *)
Record state := {
  written : gmap jsstring jsstring;
  console : list event
}.

Definition is_text (type : jsstring) : bool := bool_decide (type = lit "text").
Definition is_pdf (type : jsstring) : bool := bool_decide (type = lit "pdf").

(** The path the content is read from, for the two known types. *)
Definition filePath (filename type : jsstring) : option source_path :=
  if is_text type then Some (InputText filename)
  else if is_pdf type then
    let base := path_basename filename (lit ".pdf") in
    Some (OutputPdf (base ++ lit ".txt"))
  else None.

(** The name under which chunk [chunkNumber] is saved. *)
Definition outputFileName (filename type : jsstring) (chunkNumber : nat)
    : option jsstring :=
  if is_text type then
    Some (strip_txt filename ++ lit "-" ++ index_key chunkNumber ++ lit ".txt")
  else if is_pdf type then
    Some (filename ++ lit "-" ++ index_key chunkNumber ++ lit ".txt")
  else None.

(** The saving loop, from index [i] on. *)
Fixpoint save_chunks (w : world) (filename type : jsstring) (st : state)
    (i : nat) (chunks : list jsstring) : state :=
  match chunks with
  | [] => st
  | chunk :: rest =>
      let chunkNumber := (i + 1)%nat in
      let st' :=
        match outputFileName filename type chunkNumber with
        | None => st
        | Some name =>
            if writeFile_ok w name then
              {| written := <[name := chunk]> (written st);
                 console := console st
                   ++ [WrittenLog chunkNumber filename name
                         (ChunkUtils.countTokens chunk)] |}
            else
              {| written := written st;
                 console := console st ++ [WriteError name] |}
        end in
      save_chunks w filename type st' (S i) rest
  end.

(** [splitIntoChunks(content, 1500, 200)]; a loop test per token and one
    more is all the loop needs. *)
Definition chunks_of_content (content : jsstring) : option (list jsstring) :=
  ChunkUtils.splitIntoChunks (S (length (ChunkUtils.tokenize content))) content 1500 200.

(** One turn of [for (const [filename, info] of entries)]. *)
Definition process_entry (w : world) (st : state) (entry : jsstring * jsstring)
    : state :=
  let '(filename, type) := entry in
  match filePath filename type with
  | None =>
      {| written := written st;
         console := console st ++ [UnknownTypeWarning filename] |}
  | Some path =>
      match readFile w path with
      | None => {| written := written st; console := console st ++ [ReadError path] |}
      | Some content =>
          match chunks_of_content content with
          | Some chunks => save_chunks w filename type st 0 chunks
          | None => st (* not reached: the fuel suffices *)
          end
      end
  end.

(** [main], from the cleared [prepared] folder on. *)
Definition main (w : world) : state :=
  match fileMap w with
  | None => {| written := ∅; console := [FilesJsonError] |}
  | Some fileMap =>
      let entries := slice fileMap 0 200000000 in
      fold_left (process_entry w) entries {| written := ∅; console := [] |}
  end.

End Cleanse.

(** ** Names handed on by the cleaning driver ([src/finetune/main.ts]) *)

Module Finetune.

(** [processFile]: the name of the JSON file written for an input file,
    [`${path.parse(fileName).name}.json`]. *)
Definition outputFileName (fileName : jsstring) : jsstring :=
  path_parse_name fileName ++ lit ".json".

End Finetune.

(** ** Notions used in the statements about the further programs *)

(** The least [m] with [n <= m * step]. *)
Definition ceil_div (n step : nat) : nat := ((n + step - 1) / step)%nat.

Definition no_line_terminator (s : jsstring) : bool :=
  forallb (fun c => negb (is_line_terminator c)) s.

(** [Number.MAX_SAFE_INTEGER], 2^53 - 1.  The value of [parseInt] is a
    double: up to this bound it is the number that the digits spell, and
    [parseInt] stands for the source's function; beyond it the double is
    a rounded value (9007199254740993 parses to 9007199254740992), which
    [parseInt] does not follow.  The statements about whole runs are
    therefore made for listings whose chunk numbers are within the
    bound. *)
Definition MAX_SAFE_INTEGER : N := 9007199254740991%N.

(** The digits of a file name spell a number that [parseInt] returns
    exactly. *)
Definition safe_digits (digits : jsstring) : bool :=
  (parseInt digits <=? MAX_SAFE_INTEGER)%N.

(** Every name of the listing that follows the convention
    [<base>-<digits><ext>] has safe digits. *)
Definition safe_listing (ext : jsstring) (fileNames : list jsstring) : bool :=
  forallb (fun file =>
             match match_name ext file with
             | Some (_, digits) => safe_digits digits
             | None => true
             end) fileNames.

(** *** Groups of chunk files *)

Section Groups.
Context {A : Type}.

(** [groups.get(baseName)]; a missing key gives the empty list. *)
Fixpoint lookup_group (baseName : jsstring) (groups : list (jsstring * list A))
    : list A :=
  match groups with
  | [] => []
  | (b, infos) :: rest =>
      if bool_decide (b = baseName) then infos else lookup_group baseName rest
  end.

(** What a stitch program makes of a file name: nothing, or a group key
    and a record. *)
Context (classify : jsstring -> option (jsstring * A)).

(** The grouping loop without its console output. *)
Definition group_step (groups : list (jsstring * list A)) (file : jsstring)
    : list (jsstring * list A) :=
  match classify file with
  | Some (baseName, info) => push_group baseName info groups
  | None => groups
  end.

(** The records of the files of a listing that belong to [baseName], in
    the order of the listing. *)
Definition members_of (fileNames : list jsstring) (baseName : jsstring) : list A :=
  flat_map (fun file =>
              match classify file with
              | Some (b, info) => if bool_decide (b = baseName) then [info] else []
              | None => []
              end) fileNames.

End Groups.

Module StichSpec.
Import Stich.

Definition info_of (file : jsstring) : option (jsstring * ChunkInfo) :=
  match match_name TXT file with
  | Some (baseName, digits) =>
      Some (baseName, {| fileName := file; chunk := parseInt digits |})
  | None => None
  end.

Definition members : list jsstring -> jsstring -> list ChunkInfo := members_of info_of.

(** The readable contents of a list of chunk files, each followed by a
    newline. *)
Definition contents (w : world) (files : list ChunkInfo) : jsstring :=
  flat_map (fun f => match readFile w (fileName f) with
                     | Some content => content ++ NL
                     | None => []
                     end) files.

(** The console lines for the unreadable ones. *)
Definition read_errors (w : world) (files : list ChunkInfo) : list event :=
  flat_map (fun f => match readFile w (fileName f) with
                     | Some _ => []
                     | None => [ReadError (fileName f)]
                     end) files.

(** The text written for a group: the header, an empty line, and the
    readable contents in the order of the chunk numbers. *)
Definition group_text (w : world) (baseName : jsstring) (files : list ChunkInfo)
    : jsstring :=
  path_parse_name baseName ++ NL ++ NL ++ contents w (sort_by chunk files).

(** The stitched text of the group [baseName] of a listing. *)
Definition stitched (w : world) (fileNames : list jsstring) (baseName : jsstring)
    : jsstring :=
  group_text w baseName (members fileNames baseName).

(** No other group of the listing is written under the output name of
    [baseName]. *)
Definition no_collision (fileNames : list jsstring) (baseName : jsstring) : bool :=
  forallb (fun file =>
             match info_of file with
             | Some (b, _) =>
                 implb (bool_decide (outputFileName b = outputFileName baseName))
                   (bool_decide (b = baseName))
             | None => true
             end) fileNames.

End StichSpec.

Section CleanedSpec.
Context `{JsNumber num}.
Import StitchCleaned.

Definition record_of (file : jsstring) : option (jsstring * FileInfo) :=
  match match_name (lit ".json") file with
  | Some (baseName, digits) =>
      Some (baseName, {| fileName := file; chunkNum := parseInt digits |})
  | None => None
  end.

(** A record whose file holds the JSON text [null]. *)
Definition is_null_record (w : world num) (f : FileInfo) : bool :=
  match readFile w (fileName f) with
  | Parsed JNull => true
  | _ => false
  end.

Definition cleaned_members : list jsstring -> jsstring -> list FileInfo :=
  members_of record_of.

(** The chunk list of the group [baseName] of a listing: the [chunks]
    arrays of its records in the order of the chunk numbers, numbered
    anew. *)
Definition merged (w : world num) (fileNames : list jsstring) (baseName : jsstring)
    : list (json num) :=
  reindex (flat_map (chunks_of w) (sort_by chunkNum (cleaned_members fileNames baseName))).

(** No other group of the listing is written under the final name of
    [baseName]. *)
Definition cleaned_no_collision (fileNames : list jsstring) (baseName : jsstring)
    : bool :=
  forallb (fun file =>
             match record_of file with
             | Some (b, _) =>
                 implb (bool_decide (finalFileName b = finalFileName baseName))
                   (bool_decide (b = baseName))
             | None => true
             end) fileNames.

End CleanedSpec.

Module SplitSpec.
Import SplitByChars.

(** Reading a chunk sequence back.  What a consumer keeps of a chunk
    after the first: the text behind the end marker.  The overlap text
    between the markers is [OVERLAP] characters long, or the whole piece
    when that is shorter. *)
Definition unmark (OVERLAP : nat) (chunk : jsstring) : jsstring :=
  let piece := (length chunk - length OVERLAP_START_LINE - length OVERLAP_END_LINE)%nat in
  skipn (length OVERLAP_START_LINE + Nat.min OVERLAP piece + length OVERLAP_END_LINE)
    chunk.

(** The first chunk as it is, followed by what is kept of the others. *)
Definition rejoin (OVERLAP : nat) (chunks : list jsstring) : jsstring :=
  match chunks with
  | [] => []
  | c :: rest => c ++ concat (List.map (unmark OVERLAP) rest)
  end.

(** The piece of chunk [i] (counted from 0): [CHUNK_SIZE] characters from
    index [i * (CHUNK_SIZE - OVERLAP)] on, as far as the content goes. *)
Definition piece (CHUNK_SIZE OVERLAP : nat) (content : jsstring) (i : nat) : jsstring :=
  substring content (i * (CHUNK_SIZE - OVERLAP))
    (i * (CHUNK_SIZE - OVERLAP) + CHUNK_SIZE).

(** The text of chunk [i]. *)
Definition chunk_at (CHUNK_SIZE OVERLAP : nat) (content : jsstring) (i : nat) : jsstring :=
  mark OVERLAP (i * (CHUNK_SIZE - OVERLAP)) (piece CHUNK_SIZE OVERLAP content i).

(** Neither half of a surrogate pair. *)
Definition no_surrogate (s : jsstring) : bool :=
  forallb (fun c => negb (is_high_surrogate c) && negb (is_low_surrogate c)) s.

(** Where a file in the output folder comes from: a chunk of a readable
    file of the input folder, written in UTF-8 behind its header. *)
Definition from_chunk (w : world) (fileNames : list jsstring)
    (name text : jsstring) : Prop :=
  exists fileName content chunks i c,
    In fileName fileNames
    /\ readFile w fileName = Some content
    /\ split_content content = Some chunks
    /\ chunks !! i = Some c
    /\ name = chunk_file_name (path_parse_name fileName) (i + 1)
    /\ text = toWellFormed (path_parse_name fileName ++ NL ++ NL ++ c)
    /\ writeFile_ok w name = true.

End SplitSpec.

Module CleanseSpec.
Import Cleanse.

(** Where a file in the [prepared] folder comes from: a chunk of the
    content of an entry of [files.json]. *)
Definition from_entry (w : world) (name chunk : jsstring) : Prop :=
  exists fileMap filename type path content chunks i,
    Cleanse.fileMap w = Some fileMap
    /\ In (filename, type) fileMap
    /\ filePath filename type = Some path
    /\ readFile w path = Some content
    /\ chunks_of_content content = Some chunks
    /\ chunks !! i = Some chunk
    /\ outputFileName filename type (i + 1) = Some name.

(** The first capture of the stitcher's pattern on a chunk name. *)
Definition baseName (filename type : jsstring) : jsstring :=
  if is_text type then strip_txt filename else filename.

End CleanseSpec.

(** ** Further example folders *)

Module MoreExamples.

(** An input folder of the character splitter with one stitched file. *)
Definition split_world : SplitByChars.world :=
  {| SplitByChars.readdir := Some [lit "doc.pdf.txt"];
     SplitByChars.readFile := fun name =>
       if bool_decide (name = lit "doc.pdf.txt") then Some (lit "hello") else None;
     SplitByChars.writeFile_ok := fun _ => true |}.

(** An input folder of the character splitter whose file ends in a
    surrogate pair across index 10000. *)
Definition surrogate_world : SplitByChars.world :=
  {| SplitByChars.readdir := Some [lit "s.txt"];
     SplitByChars.readFile := fun name =>
       if bool_decide (name = lit "s.txt")
       then Some (repeat 0x61%N 9999 ++ [0xD83D%N; 0xDE00%N]) else None;
     SplitByChars.writeFile_ok := fun _ => true |}.

(** A [files.json] with a text file, a PDF and an entry of another
    type. *)
Definition cleanse_world : Cleanse.world :=
  {| Cleanse.fileMap :=
       Some [(lit "notes.txt", lit "text"); (lit "doc.pdf", lit "pdf");
             (lit "pic.png", lit "image")];
     Cleanse.readFile := fun path =>
       match path with
       | Cleanse.InputText name =>
           if bool_decide (name = lit "notes.txt") then Some (lit "some  notes")
           else None
       | Cleanse.OutputPdf name =>
           if bool_decide (name = lit "doc.txt") then Some (lit "page one") else None
       end;
     Cleanse.writeFile_ok := fun _ => true |}.

(** A [clean] folder with a group of three records: the first cannot be
    read, the second holds an object without [chunks], the third holds
    one chunk. *)
Definition tolerant_world : StitchCleaned.world Z :=
  {| StitchCleaned.readdir := Some [lit "r-3.json"; lit "r-1.json"; lit "r-2.json"];
     StitchCleaned.readFile := fun f =>
       if bool_decide (f = lit "r-2.json") then
         StitchCleaned.Parsed (JObj [(lit "title", JStr (lit "t"))])
       else if bool_decide (f = lit "r-3.json") then
         StitchCleaned.Parsed
           (JObj [(lit "chunks", JArr [Examples.chunk_object 5 "x"])])
       else StitchCleaned.Unreadable;
     StitchCleaned.writeFile_ok := fun _ => true |}.

End MoreExamples.

(** ** Attaching the document metadata ([src/finetune/ready.ts]) *)

(** [s.replace(pattern, replacement)] for a string pattern: the first
    occurrence is replaced.  (The replacements used hold no [$].) *)
Definition starts_with (pattern s : jsstring) : bool :=
  bool_decide (firstn (length pattern) s = pattern).

Fixpoint replace_first (pattern replacement s : jsstring) : jsstring :=
  if starts_with pattern s then replacement ++ skipn (length pattern) s
  else match s with
       | [] => []
       | c :: s' => c :: replace_first pattern replacement s'
       end.

(** Whether [pattern] occurs in [s]. *)
Fixpoint occurs (pattern s : jsstring) : bool :=
  starts_with pattern s
  || match s with
     | [] => false
     | _ :: s' => occurs pattern s'
     end.

Module Ready.

(** An entry of [process.json].  A missing [textFile] or [pdfs] is
    [None]; a missing [url] or [title] is only ever tested for being
    empty or missing, and is the empty string here. *)
Record DocumentEntry := {
  url : jsstring;
  title : jsstring;
  textFile : option jsstring;
  pdfs : option (list jsstring)
}.

(** The name looked up in [pdf-full-links.json] for a file whose name
    ends in [.pdf.txt]. *)
Definition pdfName (fileName : jsstring) : jsstring :=
  replace_first (lit ".txt") [] fileName.

Section Search.

(** [String.prototype.toLowerCase], on every alphabet: the search
    compares lowered names. *)
Variable lowerCase : jsstring -> jsstring.

(** A lowered name without a trailing [.txt]. *)
Definition without_txt (lowered : jsstring) : jsstring :=
  if endsWith lowered (lit ".txt")
  then SplitByChars.substring lowered 0 (length lowered - 4)
  else lowered.

Definition lookupKeyExact (fileName : jsstring) : jsstring := lowerCase fileName.

Definition lookupKeyNoTxt (fileName : jsstring) : jsstring :=
  without_txt (lookupKeyExact fileName).

(** [doc.textFile && doc.textFile.toLowerCase() === lookupKeyExact] *)
Definition text_matches (fileName : jsstring) (doc : DocumentEntry) : bool :=
  match textFile doc with
  | Some t => nonempty t && bool_decide (lowerCase t = lookupKeyExact fileName)
  | None => false
  end.

(** The test on one entry of [doc.pdfs]. *)
Definition pdf_entry_matches (fileName pdfEntry : jsstring) : bool :=
  bool_decide (without_txt (lowerCase pdfEntry) = lookupKeyNoTxt fileName).

(** [for (const doc of processData.documents)], with the values of
    [matchUrl] and [matchTitle] ([None] is [undefined]) when the loop is
    left. *)
Fixpoint search (fileName : jsstring) (documents : list DocumentEntry)
    (matchUrl matchTitle : option jsstring) : option jsstring * option jsstring :=
  match documents with
  | [] => (matchUrl, matchTitle)
  | doc :: rest =>
      if text_matches fileName doc then (Some (url doc), Some (title doc))
      else
        match pdfs doc with
        | Some entries =>
            let '(matchUrl', matchTitle') :=
              if existsb (pdf_entry_matches fileName) entries
              then (Some (url doc), Some (title doc))
              else (matchUrl, matchTitle) in
            if match matchUrl' with Some u => nonempty u | None => false end
            then (matchUrl', matchTitle')
            else search fileName rest matchUrl' matchTitle'
        | None => search fileName rest matchUrl matchTitle
        end
  end.

(** The metadata attached to a file, if any: [None] is the branch of
    [if (!matchUrl || !matchTitle)] that warns and skips the file. *)
Definition metadata (fileName : jsstring) (documents : list DocumentEntry)
    : option (jsstring * jsstring) :=
  match search fileName documents None None with
  | (Some matchUrl, Some matchTitle) =>
      if nonempty matchUrl && nonempty matchTitle then Some (matchUrl, matchTitle)
      else None
  | _ => None
  end.

(** The entry at which the search stops: its [textFile] matches, or one
    of its [pdfs] matches and its [url] is not empty. *)
Definition stops (fileName : jsstring) (doc : DocumentEntry) : bool :=
  text_matches fileName doc
  || match pdfs doc with
     | Some entries => existsb (pdf_entry_matches fileName) entries && nonempty (url doc)
     | None => false
     end.

End Search.

End Ready.

(** * Properties of the chunker *)

Module ChunkFacts.
Import ChunkUtils Overlap.

Lemma pieces_not_nil s : pieces s <> [].
Proof.
  destruct s as [|c s]; simpl; [discriminate|].
  destruct (is_space c); [discriminate|].
  destruct (pieces s); discriminate.
Qed.

Lemma pieces_app_space a w b :
  is_space w = true -> pieces (a ++ w :: b) = pieces a ++ pieces b.
Proof.
  intros Hw. induction a as [|c a IH]; simpl.
  - now rewrite Hw.
  - destruct (is_space c); [now rewrite IH|].
    rewrite IH. pose proof (pieces_not_nil a).
    destruct (pieces a); [congruence|reflexivity].
Qed.

Lemma pieces_no_space s : Forall (Forall (fun c => is_space c = false)) (pieces s).
Proof.
  induction s as [|c s IH]; simpl.
  - repeat constructor.
  - destruct (is_space c) eqn:Hc.
    + constructor; [constructor|exact IH].
    + destruct (pieces s) as [|p ps]; [repeat constructor; exact Hc|].
      inversion IH; subst. constructor; [constructor; assumption|assumption].
Qed.

Lemma pieces_of_no_space t :
  Forall (fun c => is_space c = false) t -> pieces t = [t].
Proof.
  induction 1 as [|c t Hc _ IH]; simpl; [reflexivity|].
  now rewrite Hc, IH.
Qed.

(** [split_ws] and [pieces] agree up to empty pieces. *)
Lemma split_ws_pieces s :
  exists h t t',
    split_ws s = h :: t /\ pieces s = h :: t'
    /\ List.filter nonempty t = List.filter nonempty t'
    /\ (forall c s', s = c :: s' -> is_space c = true -> h = []).
Proof.
  induction s as [|c s IH].
  - exists [], [], []. repeat split; intros; discriminate.
  - destruct IH as (h & t & t' & Hs & Hp & Hf & Hh). simpl. rewrite Hs, Hp.
    destruct (is_space c) eqn:Hc.
    + destruct s as [|c' s'].
      * exists [], (h :: t), (h :: t'). repeat split; simpl; now rewrite ?Hf.
      * destruct (is_space c') eqn:Hc'.
        -- pose proof (Hh c' s' eq_refl Hc') as ->.
           exists [], t, ([] :: t'). repeat split; simpl; auto.
        -- exists [], (h :: t), (h :: t'). repeat split; simpl; now rewrite ?Hf.
    + exists (c :: h), t, t'. repeat split; auto. intros ? ? [= <- <-]. congruence.
Qed.

Lemma tokenize_pieces s : tokenize s = List.filter nonempty (pieces s).
Proof.
  unfold tokenize. destruct (split_ws_pieces s) as (h & t & t' & -> & -> & Hf & _).
  simpl. now rewrite Hf.
Qed.

Lemma tokenize_app_space a w b :
  is_space w = true -> tokenize (a ++ w :: b) = tokenize a ++ tokenize b.
Proof.
  intros Hw. rewrite !tokenize_pieces, pieces_app_space by assumption.
  apply List.filter_app.
Qed.

Lemma tokenize_nil : tokenize [] = [].
Proof. reflexivity. Qed.

Lemma tokenize_token t : is_token t -> tokenize t = [t].
Proof.
  intros [Hne Hns]. rewrite tokenize_pieces, pieces_of_no_space by assumption.
  simpl. destruct t; [congruence|reflexivity].
Qed.

Lemma tokenize_is_token s : Forall is_token (tokenize s).
Proof.
  rewrite tokenize_pieces. apply List.Forall_forall. intros t Ht.
  apply List.filter_In in Ht as [Hin Hne]. split.
  - destruct t; [discriminate|discriminate].
  - pose proof (pieces_no_space s) as H. rewrite List.Forall_forall in H. now apply H.
Qed.

Lemma tokenize_app_SP a b : tokenize (a ++ SP ++ b) = tokenize a ++ tokenize b.
Proof. apply tokenize_app_space. reflexivity. Qed.

Lemma tokenize_join ts : Forall is_token ts -> tokenize (join SP ts) = ts.
Proof.
  induction 1 as [|t ts Ht Hts IH]; [reflexivity|].
  destruct ts as [|t' ts'].
  - now apply tokenize_token.
  - change (join SP (t :: t' :: ts')) with (t ++ SP ++ join SP (t' :: ts')).
    rewrite tokenize_app_SP, IH, tokenize_token by assumption. reflexivity.
Qed.

(** *** Slices with indices in range *)

Lemma slice_nat {A} (l : list A) (a b : nat) :
  slice l (Z.of_nat a) (Z.of_nat b)
  = firstn (Nat.min b (length l) - Nat.min a (length l))
      (skipn (Nat.min a (length l)) l).
Proof.
  unfold slice.
  destruct (Z.ltb_spec (Z.of_nat a) 0); [lia|].
  destruct (Z.ltb_spec (Z.of_nat b) 0); [lia|].
  f_equal; [|f_equal]; lia.
Qed.

Lemma slice_prefix {A} (l : list A) (b : nat) :
  (b <= length l)%nat -> slice l 0 (Z.of_nat b) = firstn b l.
Proof.
  intros Hb. change 0%Z with (Z.of_nat 0). rewrite slice_nat.
  rewrite Nat.min_0_l, Nat.sub_0_r, Nat.min_l by assumption. reflexivity.
Qed.

Lemma slice_from_nat {A} (l : list A) (a : nat) :
  (a <= length l)%nat -> slice_from l (Z.of_nat a) = skipn a l.
Proof.
  intros Ha. unfold slice_from. rewrite slice_nat.
  rewrite Nat.min_id, Nat.min_l by assumption.
  apply firstn_all2. rewrite length_skipn. lia.
Qed.

Lemma slice_window {A} (l : list A) (s e : nat) :
  (s <= e <= length l)%nat ->
  slice l (Z.of_nat s) (Z.of_nat e) = firstn (e - s) (skipn s l).
Proof.
  intros H. rewrite slice_nat. rewrite !Nat.min_l by lia. reflexivity.
Qed.

Lemma Forall_firstn_skipn {A} (P : A -> Prop) (l : list A) a b :
  Forall P l -> Forall P (firstn a (skipn b l)).
Proof.
  intros H. now apply Forall_take, Forall_drop.
Qed.

(** *** The text of a chunk *)

Lemma is_token_START : is_token OVERLAP_START.
Proof. split; [discriminate|]. repeat constructor. Qed.

Lemma is_token_END : is_token OVERLAP_END.
Proof. split; [discriminate|]. repeat constructor. Qed.

Lemma render_first overlap w : render 0 overlap w = join SP w.
Proof. reflexivity. Qed.

Lemma tokenize_render_marked (s ov : nat) (w : list jsstring) :
  (0 < s)%nat -> (ov < length w)%nat -> Forall is_token w ->
  tokenize (render (Z.of_nat s) (Z.of_nat ov) w)
  = OVERLAP_START :: firstn ov w ++ OVERLAP_END :: skipn ov w.
Proof.
  intros Hs Hov Hw. unfold render.
  destruct (Z.ltb_spec 0 (Z.of_nat s)); [|lia].
  destruct (Z.ltb_spec (Z.of_nat ov) (Z.of_nat (length w))); [|lia].
  simpl andb. cbv zeta.
  rewrite slice_prefix, slice_from_nat by lia.
  rewrite !tokenize_app_SP.
  rewrite (tokenize_token _ is_token_START), (tokenize_token _ is_token_END).
  rewrite !tokenize_join.
  - reflexivity.
  - rewrite <- (firstn_skipn ov w) in Hw. now apply Forall_app in Hw.
  - rewrite <- (firstn_skipn ov w) in Hw. now apply Forall_app in Hw.
Qed.

Lemma strip_overlap_marked (ov : nat) (chunk : jsstring) (w : list jsstring) :
  (ov < length w)%nat ->
  tokenize chunk = OVERLAP_START :: firstn ov w ++ OVERLAP_END :: skipn ov w ->
  strip_overlap (Z.of_nat ov) chunk = skipn ov w.
Proof.
  intros Hov Ht. unfold strip_overlap. rewrite Ht, Nat2Z.id.
  assert (Hlen : length (firstn ov w) = ov) by (rewrite length_firstn; lia).
  rewrite app_nth2 by lia. rewrite Hlen, Nat.sub_diag. simpl nth.
  unfold jsstring_eqb. rewrite !bool_decide_eq_true_2 by reflexivity. simpl andb.
  cbv iota.
  replace (S ov) with (length (firstn ov w ++ [OVERLAP_END])).
  - change (firstn ov w ++ OVERLAP_END :: skipn ov w)
      with (firstn ov w ++ [OVERLAP_END] ++ skipn ov w).
    rewrite app_assoc. apply drop_app_length.
  - rewrite length_app, Hlen. simpl. lia.
Qed.

(** *** The loop, for parameters within the contract *)

Lemma skipn_window {A} (l : list A) (s ov k : nat) :
  (ov <= k)%nat ->
  skipn ov (firstn k (skipn s l)) ++ skipn (s + k) l = skipn (s + ov) l.
Proof.
  intros Hk.
  rewrite <- (firstn_skipn (k - ov) (skipn (s + ov) l)).
  rewrite skipn_skipn. replace (k - ov + (s + ov))%nat with (s + k)%nat by lia.
  f_equal. rewrite skipn_firstn_comm. now rewrite skipn_skipn, (Nat.add_comm ov s).
Qed.

Lemma of_nat_start (cs ov i : nat) :
  (ov <= cs)%nat ->
  (Z.of_nat i * (Z.of_nat cs - Z.of_nat ov))%Z = Z.of_nat (i * (cs - ov)).
Proof. intros Hov. now rewrite Nat2Z.inj_mul, Nat2Z.inj_sub. Qed.

Lemma window_nat (toks : list jsstring) (cs ov i : nat) :
  (ov <= cs)%nat ->
  window toks (Z.of_nat cs) (Z.of_nat ov) i
  = firstn (Nat.min (i * (cs - ov) + cs) (length toks)
            - Nat.min (i * (cs - ov)) (length toks))
      (skipn (Nat.min (i * (cs - ov)) (length toks)) toks).
Proof.
  intros Hov. unfold window. cbv zeta. rewrite of_nat_start by assumption.
  rewrite <- Nat2Z.inj_add. apply slice_nat.
Qed.

Lemma chunk_at_nat (toks : list jsstring) (cs ov i : nat) :
  (ov <= cs)%nat ->
  chunk_at toks (Z.of_nat cs) (Z.of_nat ov) i
  = render (Z.of_nat (i * (cs - ov))) (Z.of_nat ov)
      (window toks (Z.of_nat cs) (Z.of_nat ov) i).
Proof. intros Hov. unfold chunk_at. now rewrite of_nat_start. Qed.

(** From the start index [s > 0] of chunk [i], whose window still has
    fresh tokens, the loop returns; it appends the chunks [i], [i + 1],
    ..., each with a window longer than the overlap, and their stripped
    contents are the tokens from index [s + ov] on. *)
Lemma chunk_loop_marked (toks : list jsstring) (cs ov : nat) :
  Forall is_token toks -> (ov < cs)%nat ->
  forall fuel i chunks,
    (0 < i)%nat -> (i * (cs - ov) + ov < length toks)%nat ->
    (length toks - (i * (cs - ov) + ov) <= fuel)%nat ->
    exists out,
      chunk_loop fuel toks (Z.of_nat cs) (Z.of_nat ov) (Z.of_nat (i * (cs - ov))) chunks
        = Some (chunks ++ out)
      /\ (forall j c, out !! j = Some c ->
            c = chunk_at toks (Z.of_nat cs) (Z.of_nat ov) (i + j)
            /\ (ov < length (window toks (Z.of_nat cs) (Z.of_nat ov) (i + j)))%nat)
      /\ flat_map (strip_overlap (Z.of_nat ov)) out = skipn (i * (cs - ov) + ov) toks.
Proof.
  intros Htok Hov. induction fuel as [|fuel IH]; intros i chunks Hi Hlt Hfuel; [lia|].
  set (n := length toks) in *. set (s := (i * (cs - ov))%nat) in *.
  assert (Hs : (0 < s)%nat) by (unfold s; nia).
  set (e := Nat.min (s + cs) n).
  set (w := firstn (e - s) (skipn s toks)).
  assert (Hwin : window toks (Z.of_nat cs) (Z.of_nat ov) i = w).
  { rewrite window_nat by lia. fold n s. unfold w, e. now rewrite (Nat.min_l s n) by lia. }
  assert (Hw : length w = (e - s)%nat).
  { unfold w. rewrite length_firstn, length_skipn. fold n. lia. }
  assert (Hwtok : Forall is_token w) by now apply Forall_firstn_skipn.
  assert (Hchunk : chunk_at toks (Z.of_nat cs) (Z.of_nat ov) i
                   = render (Z.of_nat s) (Z.of_nat ov) w).
  { rewrite chunk_at_nat by lia. now rewrite Hwin. }
  assert (Hstrip : strip_overlap (Z.of_nat ov) (render (Z.of_nat s) (Z.of_nat ov) w)
                   = skipn ov w).
  { apply strip_overlap_marked; [lia|].
    apply tokenize_render_marked; [assumption|lia|assumption]. }
  cbn [chunk_loop]. fold n.
  destruct (Z.ltb_spec (Z.of_nat s) (Z.of_nat n)); [|lia].
  replace (Z.min (Z.of_nat s + Z.of_nat cs) (Z.of_nat n)) with (Z.of_nat e) by lia.
  rewrite slice_window by (fold n; lia). fold w.
  destruct (Z.eqb_spec (Z.of_nat e) (Z.of_nat n)) as [He|He].
  - exists [render (Z.of_nat s) (Z.of_nat ov) w]. split; [reflexivity|]. split.
    + intros [|j] c Hc; [|now destruct j]. injection Hc as <-.
      rewrite Nat.add_0_r, Hwin, Hw. split; [now rewrite Hchunk|lia].
    + simpl. rewrite app_nil_r, Hstrip. unfold w.
      rewrite firstn_all2 by (rewrite length_skipn; fold n; lia).
      now rewrite skipn_skipn, (Nat.add_comm ov s).
  - assert (Hescs : e = (s + cs)%nat) by lia.
    assert (Hnext : (e - ov = S i * (cs - ov))%nat) by (unfold s in *; nia).
    replace (Z.of_nat e - Z.of_nat ov)%Z with (Z.of_nat (S i * (cs - ov))) by lia.
    destruct (IH (S i) (chunks ++ [render (Z.of_nat s) (Z.of_nat ov) w]))
      as (out & Hrun & Hall & Hflat); [lia|fold n; lia|fold n; lia|].
    exists (render (Z.of_nat s) (Z.of_nat ov) w :: out). split; [|split].
    + rewrite Hrun, <- app_assoc. reflexivity.
    + intros [|j] c Hc.
      * injection Hc as <-. rewrite Nat.add_0_r, Hwin, Hw.
        split; [now rewrite Hchunk|lia].
      * replace (i + S j)%nat with (S i + j)%nat by lia. now apply Hall.
    + simpl. rewrite Hstrip, Hflat. unfold w. rewrite <- Hnext.
      replace (e - ov + ov)%nat with (s + cs)%nat by lia.
      replace (e - s)%nat with cs by lia.
      apply skipn_window. lia.
Qed.

(** The whole function, for parameters within the contract: it returns,
    chunk [i] is the text of window [i], every window after the first is
    longer than the overlap, and reading the chunks back gives the tokens
    of the text. *)
Lemma splitIntoChunks_spec (text : jsstring) (chunkSize overlap : Z) (fuel : nat) :
  (0 < chunkSize)%Z -> (0 <= overlap < chunkSize)%Z ->
  (length (tokenize text) < fuel)%nat ->
  exists chunks,
    splitIntoChunks fuel text chunkSize overlap = Some chunks
    /\ reconstruct overlap chunks = tokenize text
    /\ (chunks = [] <-> tokenize text = [])
    /\ forall i c, chunks !! i = Some c ->
         c = chunk_at (tokenize text) chunkSize overlap i
         /\ ((0 < i)%nat ->
             (overlap < Z.of_nat (length (window (tokenize text) chunkSize overlap i)))%Z).
Proof.
  intros Hcs Hov Hfuel. unfold splitIntoChunks.
  pose proof (tokenize_is_token text) as Htok.
  set (toks := tokenize text) in *. set (n := length toks) in *.
  destruct fuel as [|fuel]; [lia|]. cbn [chunk_loop]. fold n.
  destruct (Z.ltb_spec 0 (Z.of_nat n)) as [Hn|Hn].
  2:{ assert (Hnil : toks = []) by (destruct toks; [reflexivity|simpl in n; lia]).
      exists []. rewrite Hnil. split; [reflexivity|]. split; [reflexivity|].
      split; [tauto|]. intros k c Hc. now destruct k. }
  assert (Hne : toks <> [])
    by (intros E; unfold n in Hn; rewrite E in Hn; simpl in Hn; lia).
  set (cs := Z.to_nat chunkSize). set (ov := Z.to_nat overlap).
  assert (Ecs : chunkSize = Z.of_nat cs) by lia.
  assert (Eov : overlap = Z.of_nat ov) by lia.
  rewrite Ecs, Eov in *. clearbody cs ov. clear Ecs Eov chunkSize overlap.
  set (e := Nat.min cs n).
  replace (Z.min (0 + Z.of_nat cs) (Z.of_nat n)) with (Z.of_nat e) by lia.
  rewrite slice_prefix by (fold n; lia). rewrite render_first. simpl app.
  assert (Hfirst : tokenize (join SP (firstn e toks)) = firstn e toks).
  { apply tokenize_join. now apply Forall_take. }
  assert (Hchunk0 : chunk_at toks (Z.of_nat cs) (Z.of_nat ov) 0 = join SP (firstn e toks)).
  { rewrite chunk_at_nat, window_nat by lia. fold n. simpl Nat.mul.
    rewrite Nat.min_0_l, Nat.sub_0_r. reflexivity. }
  destruct (Z.eqb_spec (Z.of_nat e) (Z.of_nat n)) as [He|He].
  - exists [join SP (firstn e toks)]. split; [reflexivity|]. split; [|split].
    + simpl. rewrite app_nil_r, Hfirst. apply firstn_all2. fold n. lia.
    + split; [discriminate|congruence].
    + intros [|i] c Hc; [|now destruct i]. injection Hc as <-.
      split; [now rewrite Hchunk0|lia].
  - assert (Hecs : e = cs) by lia.
    replace (Z.of_nat e - Z.of_nat ov)%Z with (Z.of_nat (1 * (cs - ov))) by lia.
    destruct (chunk_loop_marked toks cs ov Htok ltac:(lia) fuel 1%nat
                [join SP (firstn e toks)])
      as (out & Hrun & Hall & Hflat); [lia|fold n; lia|fold n; lia|].
    exists (join SP (firstn e toks) :: out). split; [exact Hrun|]. split; [|split].
    + simpl. rewrite Hfirst, Hflat, Hecs.
      replace (1 * (cs - ov) + ov)%nat with cs by lia. apply firstn_skipn.
    + split; [discriminate|congruence].
    + intros [|i] c Hc.
      * injection Hc as <-. split; [now rewrite Hchunk0|lia].
      * destruct (Hall i c Hc) as [-> Hlen]. split; [reflexivity|].
        intros _. simpl Nat.add in Hlen. lia.
Qed.

(** C1. For every text, every chunkSize > 0 and every overlap with
    0 <= overlap < chunkSize, [splitIntoChunks] returns (given fuel for
    one loop test per token and one more), and taking chunk 1 as it is
    and stripping the markers and the overlap-duplicated tokens from
    chunks 2..n gives back exactly the whitespace tokens of the text,
    each once and in order. *)
Theorem chunk_reconstructs_tokens (text : jsstring) (chunkSize overlap : Z) (fuel : nat) :
  (0 < chunkSize)%Z -> (0 <= overlap < chunkSize)%Z ->
  (length (tokenize text) < fuel)%nat ->
  exists chunks,
    splitIntoChunks fuel text chunkSize overlap = Some chunks
    /\ reconstruct overlap chunks = tokenize text.
Proof.
  intros Hcs Hov Hfuel.
  destruct (splitIntoChunks_spec text chunkSize overlap fuel Hcs Hov Hfuel)
    as (chunks & Hrun & Hrec & _).
  now exists chunks.
Qed.

Lemma chunk_reconstructs_tokens_witness :
  (0 < 10)%Z /\ (0 <= 3 < 10)%Z /\ (length (tokenize Examples.t25) < 26)%nat
  /\ exists chunks,
       splitIntoChunks 26 Examples.t25 10 3 = Some chunks
       /\ reconstruct 3 chunks = tokenize Examples.t25.
Proof.
  assert (H1 : (0 < 10)%Z) by lia.
  assert (H2 : (0 <= 3 < 10)%Z) by lia.
  assert (H3 : (length (tokenize Examples.t25) < 26)%nat) by (vm_compute; lia).
  exact (conj H1 (conj H2 (conj H3 (chunk_reconstructs_tokens Examples.t25 10 3 26 H1 H2 H3)))).
Defined.

(** *** Parameters outside the contract *)

(** The function has no [throw]: an activation either returns a chunk
    list or stays in the loop.  When [chunkSize <= overlap] and the text
    has more than [chunkSize] tokens, the start index never becomes
    positive and no amount of fuel lets the loop return. *)
Lemma chunk_loop_stuck (toks : list jsstring) (chunkSize overlap : Z) :
  (chunkSize <= overlap)%Z -> (chunkSize < Z.of_nat (length toks))%Z ->
  toks <> [] ->
  forall fuel start chunks,
    (start <= 0)%Z -> chunk_loop fuel toks chunkSize overlap start chunks = None.
Proof.
  intros Hle Hlt Hne. induction fuel as [|fuel IH]; intros start chunks Hs; [reflexivity|].
  cbn [chunk_loop].
  assert (0 < Z.of_nat (length toks))%Z by (destruct toks; [congruence|simpl; lia]).
  destruct (Z.ltb_spec start (Z.of_nat (length toks))); [|lia].
  destruct (Z.eqb_spec (Z.min (start + chunkSize) (Z.of_nat (length toks)))
              (Z.of_nat (length toks))); [lia|].
  apply IH. lia.
Qed.

Lemma splitIntoChunks_diverges (text : jsstring) (chunkSize overlap : Z) (fuel : nat) :
  (chunkSize <= overlap)%Z -> (chunkSize < Z.of_nat (length (tokenize text)))%Z ->
  tokenize text <> [] ->
  splitIntoChunks fuel text chunkSize overlap = None.
Proof.
  intros. unfold splitIntoChunks. apply chunk_loop_stuck; auto. lia.
Qed.

(** C2, as the code has it.  There is no parameter check and no
    ConfigError.  With [chunkSize <= overlap], a text without tokens
    gives the empty sequence and a text of at most [chunkSize] tokens
    gives its single chunk without markers; for a text with more tokens
    no chunk sequence is returned, whatever the fuel. *)
Theorem unchecked_parameters (text : jsstring) (chunkSize overlap : Z) :
  (chunkSize <= overlap)%Z ->
  ((Z.of_nat (length (tokenize text)) <= chunkSize)%Z \/ tokenize text = [] ->
   forall fuel, (0 < fuel)%nat ->
     splitIntoChunks fuel text chunkSize overlap
     = Some (match tokenize text with
             | [] => []
             | _ :: _ => [join SP (tokenize text)]
             end))
  /\ ((chunkSize < Z.of_nat (length (tokenize text)))%Z -> tokenize text <> [] ->
      forall fuel, splitIntoChunks fuel text chunkSize overlap = None).
Proof.
  intros Hle. split.
  - intros Hshort fuel Hfuel. unfold splitIntoChunks.
    destruct fuel as [|fuel]; [lia|]. cbn [chunk_loop].
    destruct (tokenize text) as [|t ts] eqn:Ht; [reflexivity|].
    destruct Hshort as [Hshort|]; [|discriminate].
    set (toks := t :: ts) in *.
    assert (0 < Z.of_nat (length toks))%Z by (simpl; lia).
    destruct (Z.ltb_spec 0 (Z.of_nat (length toks))); [|lia].
    replace (Z.min (0 + chunkSize) (Z.of_nat (length toks)))
      with (Z.of_nat (length toks)) by lia.
    rewrite Z.eqb_refl, slice_prefix by lia. rewrite firstn_all. reflexivity.
  - intros Hlong Hne fuel. now apply splitIntoChunks_diverges.
Qed.

Lemma unchecked_parameters_witness :
  (5 <= 7)%Z
  /\ splitIntoChunks 1 (lit "a b c") 5 7 = Some [lit "a b c"].
Proof.
  assert (H1 : (5 <= 7)%Z) by lia.
  split; [exact H1|].
  refine (proj1 (unchecked_parameters (lit "a b c") 5 7 H1) _ 1%nat _).
  - left. vm_compute. discriminate.
  - lia.
Defined.

(** C2, as stated, fails: with [chunkSize = overlap = 5] the call on a
    three-token text returns a chunk sequence. *)
Lemma config_error_counterexample :
  (5 <= 5)%Z /\ splitIntoChunks 1 (lit "a b c") 5 5 = Some [lit "a b c"].
Proof. split; [lia|reflexivity]. Qed.

(** With [chunkSize = overlap = 3] and four tokens the loop stays at
    start index 0 for every amount of fuel. *)
Example splitIntoChunks_diverges_example (fuel : nat) :
  splitIntoChunks fuel (lit "a b c d") 3 3 = None.
Proof. apply splitIntoChunks_diverges; [lia|vm_compute; reflexivity|discriminate]. Qed.

(** *** The end-to-end example *)

(** C3, as the code has it: tokens t1..t25 with chunkSize 10 and overlap 3
    give four chunks; chunk 1 is tokens 1-10 without markers, chunk 2 is
    tokens 8-17 with 8-10 marked, chunk 3 is tokens 15-24 with 15-17
    marked, and the final chunk is tokens 22-25 with 22-24 marked (its
    window of 4 tokens is longer than the overlap). *)
Theorem example_t25_chunks (fuel : nat) :
  splitIntoChunks (4 + fuel) Examples.t25 10 3
  = Some [ lit "t1 t2 t3 t4 t5 t6 t7 t8 t9 t10";
           lit "<OVERLAP_START> t8 t9 t10 <OVERLAP_END> t11 t12 t13 t14 t15 t16 t17";
           lit "<OVERLAP_START> t15 t16 t17 <OVERLAP_END> t18 t19 t20 t21 t22 t23 t24";
           lit "<OVERLAP_START> t22 t23 t24 <OVERLAP_END> t25" ].
Proof. vm_compute. reflexivity. Qed.

(** C3, as stated, fails: the final chunk is not the unmarked
    "t22 t23 t24 t25". *)
Lemma example_t25_final_chunk_counterexample :
  splitIntoChunks 4 Examples.t25 10 3
  <> Some [ lit "t1 t2 t3 t4 t5 t6 t7 t8 t9 t10";
            lit "<OVERLAP_START> t8 t9 t10 <OVERLAP_END> t11 t12 t13 t14 t15 t16 t17";
            lit "<OVERLAP_START> t15 t16 t17 <OVERLAP_END> t18 t19 t20 t21 t22 t23 t24";
            lit "t22 t23 t24 t25" ].
Proof. vm_compute. discriminate. Qed.

(** *** Token counts of the chunks *)

Lemma chunk_loop_extends toks chunkSize overlap fuel :
  forall start chunks r,
    chunk_loop fuel toks chunkSize overlap start chunks = Some r ->
    exists out, r = chunks ++ out.
Proof.
  induction fuel as [|fuel IH]; intros start chunks r; [discriminate|].
  cbn [chunk_loop].
  destruct (start <? Z.of_nat (length toks))%Z.
  - destruct (Z.min (start + chunkSize) (Z.of_nat (length toks)) =? Z.of_nat (length toks))%Z.
    + intros [= <-]. eauto.
    + intros Hr. apply IH in Hr as [out ->]. rewrite <- app_assoc. eauto.
  - intros [= <-]. exists []. now rewrite app_nil_r.
Qed.

(** When the text is long enough for a full second window, chunk 2 is
    that window of [cs] tokens between the markers. *)
Lemma second_chunk_full (toks : list jsstring) (cs ov : nat) (fuel : nat) r :
  (ov < cs)%nat -> (2 * cs - ov <= length toks)%nat ->
  chunk_loop fuel toks (Z.of_nat cs) (Z.of_nat ov) 0 [] = Some r ->
  r !! 1%nat
  = Some (render (Z.of_nat (cs - ov)) (Z.of_nat ov)
            (firstn cs (skipn (cs - ov) toks))).
Proof.
  intros Hov Hlen. set (n := length toks) in *.
  destruct fuel as [|[|fuel]]; [discriminate| |]; cbn [chunk_loop]; fold n;
    (destruct (Z.ltb_spec 0 (Z.of_nat n)); [|lia]);
    (destruct (Z.eqb_spec (Z.min (0 + Z.of_nat cs) (Z.of_nat n)) (Z.of_nat n)); [lia|]);
    [discriminate|].
  replace (Z.min (0 + Z.of_nat cs) (Z.of_nat n) - Z.of_nat ov)%Z
    with (Z.of_nat (cs - ov)) by lia.
  destruct (Z.ltb_spec (Z.of_nat (cs - ov)) (Z.of_nat n)); [|lia].
  replace (Z.min (Z.of_nat (cs - ov) + Z.of_nat cs) (Z.of_nat n))
    with (Z.of_nat (2 * cs - ov)) by lia.
  rewrite (slice_window toks (cs - ov) (2 * cs - ov)) by (fold n; lia).
  replace (2 * cs - ov - (cs - ov))%nat with cs by lia.
  destruct (Z.of_nat (2 * cs - ov) =? Z.of_nat n)%Z.
  - intros [= <-]. reflexivity.
  - intros Hr. apply chunk_loop_extends in Hr as [out ->]. reflexivity.
Qed.

(** C10. For parameters within the contract, chunk [i] is the text of
    window [i]; the first chunk has at most [chunkSize] tokens, while
    every later chunk is its token window plus the two marker literals:
    [countTokens] gives the window's size plus 2, at most
    [chunkSize + 2]; and this bound is reached by chunk 2 as soon as the
    text has [2 * chunkSize - overlap] tokens, so only the first chunk is
    sure to stay within [chunkSize]. *)
Theorem marked_chunk_token_count (text : jsstring) (chunkSize overlap : Z) (fuel : nat) :
  (0 < chunkSize)%Z -> (0 <= overlap < chunkSize)%Z ->
  (length (tokenize text) < fuel)%nat ->
  exists chunks,
    splitIntoChunks fuel text chunkSize overlap = Some chunks
    /\ (forall c, chunks !! 0%nat = Some c ->
          (Z.of_nat (countTokens c) <= chunkSize)%Z)
    /\ (forall i c, (0 < i)%nat -> chunks !! i = Some c ->
          let w := window (tokenize text) chunkSize overlap i in
          c = chunk_at (tokenize text) chunkSize overlap i
          /\ marked overlap w c
          /\ countTokens c = (length w + 2)%nat
          /\ (Z.of_nat (countTokens c) <= chunkSize + 2)%Z)
    /\ ((2 * chunkSize - overlap <= Z.of_nat (length (tokenize text)))%Z ->
          exists c, chunks !! 1%nat = Some c
                    /\ Z.of_nat (countTokens c) = (chunkSize + 2)%Z).
Proof.
  intros Hcs Hov Hfuel.
  destruct (splitIntoChunks_spec text chunkSize overlap fuel Hcs Hov Hfuel)
    as (chunks & Hrun & _ & _ & Hshape).
  pose proof (tokenize_is_token text) as Htok.
  set (toks := tokenize text) in *.
  set (cs := Z.to_nat chunkSize). set (ov := Z.to_nat overlap).
  assert (Ecs : chunkSize = Z.of_nat cs) by lia.
  assert (Eov : overlap = Z.of_nat ov) by lia.
  exists chunks. split; [exact Hrun|]. split; [|split].
  - intros c Hc. destruct (Hshape 0%nat c Hc) as [-> _].
    rewrite Ecs, Eov, chunk_at_nat, window_nat by lia. simpl Nat.mul.
    rewrite Nat.min_0_l, Nat.sub_0_r, render_first.
    unfold countTokens. rewrite tokenize_join by now apply Forall_take.
    rewrite length_firstn. lia.
  - intros i c Hi Hc w. destruct (Hshape i c Hc) as [Hceq Hlen].
    specialize (Hlen Hi). fold w in Hlen.
    assert (Hwtok : Forall is_token w).
    { unfold w. rewrite Ecs, Eov, window_nat by lia. now apply Forall_firstn_skipn. }
    assert (Hwlen : (length w <= cs)%nat).
    { unfold w. rewrite Ecs, Eov, window_nat by lia.
      rewrite length_firstn, length_skipn. lia. }
    assert (Hmarked : marked overlap w c).
    { unfold marked. rewrite Hceq. unfold chunk_at. fold w.
      rewrite Ecs, Eov, Nat2Z.id, of_nat_start by lia.
      apply tokenize_render_marked; [nia|lia|exact Hwtok]. }
    split; [exact Hceq|]. split; [exact Hmarked|].
    assert (Hcount : countTokens c = (length w + 2)%nat).
    { unfold countTokens. rewrite Hmarked. simpl. rewrite length_app. simpl.
      rewrite length_firstn, length_skipn. lia. }
    split; [exact Hcount|lia].
  - intros Hlong. unfold splitIntoChunks in Hrun. fold toks in Hrun.
    rewrite Ecs, Eov in Hrun.
    apply second_chunk_full in Hrun; [|lia|lia].
    eexists. split; [exact Hrun|].
    unfold countTokens. rewrite tokenize_render_marked.
    + simpl. rewrite length_app. simpl.
      rewrite length_firstn, length_skipn, length_firstn, length_skipn. lia.
    + lia.
    + rewrite length_firstn, length_skipn. lia.
    + now apply Forall_firstn_skipn.
Qed.

Lemma marked_chunk_token_count_witness :
  (0 < 10)%Z /\ (0 <= 3 < 10)%Z /\ (length (tokenize Examples.t25) < 26)%nat
  /\ exists chunks,
       splitIntoChunks 26 Examples.t25 10 3 = Some chunks
       /\ (forall c, chunks !! 0%nat = Some c -> (Z.of_nat (countTokens c) <= 10)%Z)
       /\ (forall i c, (0 < i)%nat -> chunks !! i = Some c ->
             let w := window (tokenize Examples.t25) 10 3 i in
             c = chunk_at (tokenize Examples.t25) 10 3 i
             /\ marked 3 w c
             /\ countTokens c = (length w + 2)%nat
             /\ (Z.of_nat (countTokens c) <= 10 + 2)%Z)
       /\ ((2 * 10 - 3 <= Z.of_nat (length (tokenize Examples.t25)))%Z ->
             exists c, chunks !! 1%nat = Some c
                       /\ Z.of_nat (countTokens c) = (10 + 2)%Z).
Proof.
  assert (H1 : (0 < 10)%Z) by lia.
  assert (H2 : (0 <= 3 < 10)%Z) by lia.
  assert (H3 : (length (tokenize Examples.t25) < 26)%nat) by (vm_compute; lia).
  exact (conj H1 (conj H2 (conj H3 (marked_chunk_token_count Examples.t25 10 3 26 H1 H2 H3)))).
Defined.

(** In the end-to-end example chunk 2 has 12 tokens for a chunk size of 10. *)
Example t25_second_chunk_count :
  option_map (List.map countTokens) (splitIntoChunks 4 Examples.t25 10 3)
  = Some [10; 12; 12; 6]%nat.
Proof. vm_compute. reflexivity. Qed.

End ChunkFacts.

(** * Properties of the stable sort *)

Section SortFacts.
Context {A : Type} (key : A -> N).

Lemma insert_by_perm x l : Permutation (insert_by key x l) (x :: l).
Proof.
  induction l as [|y l IH]; simpl; [reflexivity|].
  destruct (key x <=? key y)%N; [reflexivity|].
  rewrite IH. apply perm_swap.
Qed.

Lemma sort_by_perm l : Permutation (sort_by key l) l.
Proof.
  induction l as [|x l IH]; simpl; [reflexivity|].
  rewrite insert_by_perm. now constructor.
Qed.

Lemma insert_by_sorted x l :
  StronglySorted (key_le key) l -> StronglySorted (key_le key) (insert_by key x l).
Proof.
  induction 1 as [|y l Hs IH Hall]; simpl; [repeat constructor|].
  destruct (N.leb_spec (key x) (key y)) as [Hxy|Hxy].
  - constructor; [now constructor|]. constructor; [exact Hxy|].
    eapply Forall_impl; [exact Hall|]. unfold key_le. intros; simpl in *. lia.
  - constructor; [exact IH|].
    eapply Permutation.Permutation_Forall.
    + symmetry. apply insert_by_perm.
    + constructor; [unfold key_le; lia|exact Hall].
Qed.

Lemma sort_by_sorted l : StronglySorted (key_le key) (sort_by key l).
Proof.
  induction l as [|x l IH]; simpl; [constructor|]. now apply insert_by_sorted.
Qed.

Lemma sorted_distinct_strict l :
  StronglySorted (key_le key) l -> List.NoDup (List.map key l) -> StronglySorted (key_lt key) l.
Proof.
  induction 1 as [|x l Hs IH Hall]; intros Hnd; [constructor|].
  inversion Hnd as [|? ? Hnotin Hnd']; subst.
  constructor; [now apply IH|].
  rewrite List.Forall_forall in *. intros y Hy.
  specialize (Hall y Hy). unfold key_le, key_lt in *.
  assert (key x <> key y).
  { intros E. apply Hnotin. rewrite E. now apply List.in_map. }
  lia.
Qed.

(** Two strictly sorted lists with the same elements are the same list. *)
Lemma strict_sorted_unique l1 :
  forall l2, StronglySorted (key_lt key) l1 -> StronglySorted (key_lt key) l2 ->
    Permutation l1 l2 -> l1 = l2.
Proof.
  induction l1 as [|a l1 IH]; intros l2 H1 H2 Hp.
  - apply Permutation_nil in Hp. now subst.
  - destruct l2 as [|b l2]; [symmetry in Hp; now apply Permutation_nil in Hp|].
    inversion H1 as [|? ? Hs1 Hall1]; subst.
    inversion H2 as [|? ? Hs2 Hall2]; subst.
    rewrite List.Forall_forall in Hall1, Hall2.
    assert (Hab : a = b).
    { assert (Ha : List.In a (b :: l2))
        by (eapply Permutation_in; [exact Hp|now left]).
      assert (Hb : List.In b (a :: l1))
        by (eapply Permutation_in; [symmetry; exact Hp|now left]).
      destruct Ha as [Ha|Ha]; [now subst|].
      destruct Hb as [Hb|Hb]; [now subst|].
      specialize (Hall1 b Hb). specialize (Hall2 a Ha).
      unfold key_lt in *. lia. }
    subst b. f_equal. apply IH; try assumption.
    eapply Permutation_cons_inv. exact Hp.
Qed.

(** With pairwise distinct keys the sorted list does not depend on the
    order in which the elements are presented. *)
Lemma sort_by_order_independent l l' :
  List.NoDup (List.map key l) -> Permutation l l' ->
  sort_by key l = sort_by key l'.
Proof.
  intros Hnd Hp.
  assert (Hp1 : Permutation (sort_by key l) (sort_by key l')).
  { rewrite !sort_by_perm. exact Hp. }
  apply strict_sorted_unique; [| |exact Hp1].
  - apply sorted_distinct_strict; [apply sort_by_sorted|].
    eapply Permutation_NoDup; [|exact Hnd].
    apply Permutation_map. symmetry. apply sort_by_perm.
  - apply sorted_distinct_strict; [apply sort_by_sorted|].
    eapply Permutation_NoDup; [|exact Hnd].
    apply Permutation_map. rewrite sort_by_perm. exact Hp.
Qed.

(** Stability: sorting commutes with taking a sublist by a predicate. *)
Lemma insert_by_filter (p : A -> bool) x l :
  StronglySorted (key_le key) l ->
  List.filter p (insert_by key x l)
  = if p x then insert_by key x (List.filter p l) else List.filter p l.
Proof.
  induction 1 as [|y l Hs IH Hall]; simpl.
  - destruct (p x); reflexivity.
  - destruct (N.leb_spec (key x) (key y)) as [Hxy|Hxy]; simpl.
    + destruct (p x) eqn:Hpx; destruct (p y) eqn:Hpy; simpl; try reflexivity.
      * destruct (N.leb_spec (key x) (key y)); [reflexivity|lia].
      * (* x goes before everything kept of l *)
        clear IH. induction l as [|z l IHl]; simpl; [reflexivity|].
        inversion Hall as [|? ? Hyz Hall']; subst.
        inversion Hs as [|? ? Hs' Hallz]; subst.
        destruct (p z); simpl.
        -- unfold key_le in Hyz.
           destruct (N.leb_spec (key x) (key z)); [reflexivity|lia].
        -- now apply IHl.
    + rewrite IH. destruct (p x) eqn:Hpx; destruct (p y) eqn:Hpy; simpl; try reflexivity.
      destruct (N.leb_spec (key x) (key y)); [lia|reflexivity].
Qed.

Lemma sort_by_filter (p : A -> bool) l :
  sort_by key (List.filter p l) = List.filter p (sort_by key l).
Proof.
  induction l as [|x l IH]; simpl; [reflexivity|].
  rewrite insert_by_filter by apply sort_by_sorted.
  destruct (p x); simpl; now rewrite IH.
Qed.

End SortFacts.

(** * The file-name pattern *)

Section NameFacts.

Lemma take_drop_digits s : take_digits s ++ drop_digits s = s.
Proof.
  induction s as [|c s IH]; simpl; [reflexivity|].
  destruct (is_digit c); simpl; [now rewrite IH|reflexivity].
Qed.

Lemma take_digits_digits s : forallb is_digit (take_digits s) = true.
Proof.
  induction s as [|c s IH]; simpl; [reflexivity|].
  destruct (is_digit c) eqn:Hc; simpl; [now rewrite Hc|reflexivity].
Qed.

(** A run of digits followed by something that does not start with a
    digit is split at the end of the run. *)
Lemma digits_then_rest d rest :
  forallb is_digit d = true ->
  match rest with c :: _ => is_digit c = false | [] => True end ->
  take_digits (d ++ rest) = d /\ drop_digits (d ++ rest) = rest.
Proof.
  intros Hd Hrest. induction d as [|c d IH]; simpl in *.
  - destruct rest as [|c rest]; [auto|]. simpl. now rewrite Hrest.
  - apply andb_true_iff in Hd as [Hc Hd]. rewrite Hc.
    destruct (IH Hd) as [-> ->]. auto.
Qed.

Lemma match_suffix_sound ext rest d :
  match_suffix ext rest = Some d ->
  rest = DASH :: d ++ ext /\ d <> [] /\ forallb is_digit d = true.
Proof.
  unfold match_suffix. destruct rest as [|c r]; [discriminate|].
  destruct (N.eqb_spec c DASH) as [->|]; simpl andb; [|discriminate].
  destruct (take_digits r) as [|x xs] eqn:Ht; simpl andb; [discriminate|].
  destruct (bool_decide (drop_digits r = ext)) eqn:Hd; [|discriminate].
  apply bool_decide_eq_true_1 in Hd. intros [= <-]. split; [|split].
  - f_equal. now rewrite <- Ht, <- Hd, take_drop_digits.
  - discriminate.
  - rewrite <- Ht. apply take_digits_digits.
Qed.

Lemma match_suffix_complete ext d :
  match ext with c :: _ => is_digit c = false | [] => True end ->
  d <> [] -> forallb is_digit d = true ->
  match_suffix ext (DASH :: d ++ ext) = Some d.
Proof.
  intros Hext Hne Hd. unfold match_suffix. rewrite N.eqb_refl. simpl andb.
  destruct (digits_then_rest d ext Hd Hext) as [-> ->].
  rewrite bool_decide_eq_true_2 by reflexivity.
  destruct d; [congruence|reflexivity].
Qed.

(** A name has at most one reading as base name, dash, digits and
    extension. *)
Lemma name_split_unique (b1 b2 d1 d2 ext : jsstring) :
  forallb is_digit d1 = true -> forallb is_digit d2 = true ->
  b1 ++ DASH :: d1 ++ ext = b2 ++ DASH :: d2 ++ ext ->
  b1 = b2 /\ d1 = d2.
Proof.
  intros Hd1 Hd2 Heq.
  assert (Hcut : b1 ++ DASH :: d1 = b2 ++ DASH :: d2).
  { apply (app_inv_tail ext). now rewrite <- !app_assoc. }
  assert (Hno : forall m' d d', forallb is_digit d = true -> d <> m' ++ DASH :: d').
  { intros m' d d' Hd ->. rewrite forallb_app in Hd.
    apply andb_true_iff in Hd as [_ Hd]. simpl in Hd. discriminate. }
  apply app_eq_app in Hcut as [m [[-> Hm]|[-> Hm]]].
  - destruct m as [|c m']; simpl in Hm.
    + injection Hm as ->. now rewrite app_nil_r.
    + injection Hm as <- Hm. now apply Hno in Hm.
  - destruct m as [|c m']; simpl in Hm.
    + injection Hm as ->. now rewrite app_nil_r.
    + injection Hm as <- Hm. now apply Hno in Hm.
Qed.

Lemma match_from_sound ext name : forall k b d,
  match_from ext k name = Some (b, d) ->
  name = b ++ DASH :: d ++ ext
  /\ d <> [] /\ forallb is_digit d = true
  /\ forallb (fun c => negb (is_line_terminator c)) b = true.
Proof.
  induction k as [|k IH]; intros b d; cbn [match_from];
    destruct (forallb (fun c => negb (is_line_terminator c)) (firstn _ name)) eqn:Hlt;
    try destruct (match_suffix ext (skipn _ name)) as [digits|] eqn:Hs;
    try discriminate; try (now apply IH);
    intros [= <- <-]; apply match_suffix_sound in Hs as (Hrest & Hne & Hd);
    (split; [now rewrite <- Hrest, firstn_skipn|auto]).
Qed.

Lemma match_from_complete ext name b d :
  match ext with c :: _ => is_digit c = false | [] => True end ->
  name = b ++ DASH :: d ++ ext ->
  d <> [] -> forallb is_digit d = true ->
  forallb (fun c => negb (is_line_terminator c)) b = true ->
  forall k, (length b <= k)%nat -> match_from ext k name = Some (b, d).
Proof.
  intros Hext Hname Hne Hd Hlt.
  assert (Hat : forall k, length b = k ->
                  forallb (fun c => negb (is_line_terminator c)) (firstn k name) = true
                  /\ match_suffix ext (skipn k name) = Some d
                  /\ firstn k name = b).
  { intros k <-. rewrite Hname, take_app_length, drop_app_length.
    split; [exact Hlt|]. split; [now apply match_suffix_complete|reflexivity]. }
  assert (Hsome : forall k b' d', match_from ext k name = Some (b', d') ->
                    b' = b /\ d' = d).
  { intros k b' d' Hm. apply match_from_sound in Hm as (Hname' & _ & Hd' & _).
    rewrite Hname in Hname'. symmetry in Hname'.
    now apply name_split_unique in Hname'. }
  induction k as [|k IH]; intros Hk.
  - destruct (Hat 0%nat ltac:(lia)) as (H1 & H2 & H3).
    cbn [match_from]. now rewrite H1, H2, H3.
  - destruct (match_from ext (S k) name) as [[b' d']|] eqn:Hm.
    + destruct (Hsome _ _ _ Hm) as [-> ->]. reflexivity.
    + destruct (Nat.eq_dec (length b) (S k)) as [E|E].
      * destruct (Hat (S k) E) as (H1 & H2 & H3).
        cbn [match_from] in Hm. rewrite H1, H2, H3 in Hm. discriminate.
      * cbn [match_from] in Hm.
        destruct (forallb _ (firstn (S k) name));
          [destruct (match_suffix ext (skipn (S k) name)); [discriminate|]|];
          rewrite IH in Hm by lia; discriminate.
Qed.

(** What the pattern accepts, for an extension that does not start with
    a digit: the names that read as a base name without line terminator,
    a dash, a non-empty run of digits and the extension; the two groups
    are the base name and the digits. *)
Lemma match_name_spec ext name b d :
  match ext with c :: _ => is_digit c = false | [] => True end ->
  match_name ext name = Some (b, d)
  <-> name = b ++ DASH :: d ++ ext
      /\ d <> [] /\ forallb is_digit d = true
      /\ forallb (fun c => negb (is_line_terminator c)) b = true.
Proof.
  intros Hext. unfold match_name. split.
  - apply match_from_sound.
  - intros (Hname & Hne & Hd & Hlt).
    apply (match_from_complete ext name b d); auto.
    rewrite Hname, length_app. lia.
Qed.

Example match_name_examples :
  match_name TXT (lit "doc.pdf-12.txt") = Some (lit "doc.pdf", lit "12")
  /\ match_name TXT (lit "a-1.txt-2.txt") = Some (lit "a-1.txt", lit "2")
  /\ match_name TXT (lit "-1.txt") = Some ([], lit "1")
  /\ match_name TXT (lit "a-.txt") = None
  /\ match_name TXT (lit "a1.txt") = None
  /\ match_name TXT (lit "a-1.txt.bak") = None
  /\ match_name TXT (lit "line" ++ NL ++ lit "break-1.txt") = None
  /\ parseInt (lit "0012") = 12%N.
Proof. vm_compute. repeat split. Qed.

Example path_parse_name_examples :
  path_parse_name (lit "doc.pdf") = lit "doc"
  /\ path_parse_name (lit "a.b.c") = lit "a.b"
  /\ path_parse_name (lit ".hidden") = lit ".hidden"
  /\ path_parse_name (lit "..") = lit ".."
  /\ path_parse_name (lit "plain") = lit "plain".
Proof. vm_compute. repeat split. Qed.

End NameFacts.

(** * Properties of the stitcher *)

Module StichFacts.
Import Stich.

(** The reading loop: the readable contents in the order of the list,
    each followed by a newline, and one console line for every file that
    cannot be read. *)
Lemma read_files_spec (w : world) (files : list ChunkInfo) :
  forall text log,
    read_files w files text log
    = (text ++ StichSpec.contents w files, log ++ StichSpec.read_errors w files).
Proof.
  induction files as [|f files IH]; intros text log;
    cbn [read_files StichSpec.contents StichSpec.read_errors flat_map].
  - now rewrite !app_nil_r.
  - fold (StichSpec.contents w files). fold (StichSpec.read_errors w files).
    destruct (readFile w (fileName f)) as [content|]; rewrite IH.
    + now rewrite <- !app_assoc.
    + now rewrite <- !app_assoc.
Qed.

Lemma stitch_spec (w : world) (baseName : jsstring) (files : list ChunkInfo)
    (log : list event) :
  stitch w baseName files log
  = (StichSpec.group_text w baseName files,
     log ++ StichSpec.read_errors w (sort_by chunk files)).
Proof. unfold stitch. rewrite read_files_spec. reflexivity. Qed.

(** The order in which the stitcher reads a group with distinct chunk
    numbers is the strictly ascending arrangement of the group. *)
Lemma sort_by_ascending (files ascending : list ChunkInfo) :
  List.NoDup (List.map chunk files) ->
  Permutation ascending files -> StronglySorted (key_lt chunk) ascending ->
  sort_by chunk files = ascending.
Proof.
  intros Hnd Hperm Hasc.
  apply (strict_sorted_unique chunk); [|exact Hasc|].
  - apply sorted_distinct_strict; [apply sort_by_sorted|].
    eapply Permutation_NoDup; [|exact Hnd].
    apply Permutation_map. symmetry. apply sort_by_perm.
  - etransitivity; [apply sort_by_perm|]. now symmetry.
Qed.

(** C6. The stitcher sorts the chunks of a group ascending by their
    numeric index: for pairwise-distinct indices and every order in
    which the chunks are presented, the stitched text is the header, an
    empty line and the contents of the chunks in strictly ascending order
    of their indices, each followed by a newline (an unreadable chunk
    gives a console line instead).  So the stitched text and the console
    output of the group are the same for every presentation order. *)
Theorem stitch_order_independent (w : world) (baseName : jsstring)
    (files files' : list ChunkInfo) (log : list event) :
  List.NoDup (List.map chunk files) -> Permutation files files' ->
  Permutation (sort_by chunk files) files
  /\ StronglySorted (key_le chunk) (sort_by chunk files)
  /\ stitch w baseName files' log = stitch w baseName files log
  /\ forall ascending,
       Permutation ascending files ->
       StronglySorted (key_lt chunk) ascending ->
       stitch w baseName files' log
       = (path_parse_name baseName ++ NL ++ NL ++ StichSpec.contents w ascending,
          log ++ StichSpec.read_errors w ascending).
Proof.
  intros Hnd Hp. split; [apply sort_by_perm|]. split; [apply sort_by_sorted|].
  assert (Hsame : sort_by chunk files' = sort_by chunk files)
    by (symmetry; now apply sort_by_order_independent).
  split; [unfold stitch; now rewrite Hsame|].
  intros ascending Hperm Hasc.
  rewrite stitch_spec. unfold StichSpec.group_text.
  now rewrite Hsame, (sort_by_ascending files ascending Hnd Hperm Hasc).
Qed.

Lemma stitch_order_independent_witness :
  List.NoDup (List.map chunk
                [Examples.part "doc.pdf-1.txt" 1; Examples.part "doc.pdf-2.txt" 2;
                 Examples.part "doc.pdf-10.txt" 10])
  /\ stitch Examples.stich_world (lit "doc.pdf")
       [Examples.part "doc.pdf-10.txt" 10; Examples.part "doc.pdf-2.txt" 2;
        Examples.part "doc.pdf-1.txt" 1] []
     = stitch Examples.stich_world (lit "doc.pdf")
         [Examples.part "doc.pdf-1.txt" 1; Examples.part "doc.pdf-2.txt" 2;
          Examples.part "doc.pdf-10.txt" 10] []
  /\ stitch Examples.stich_world (lit "doc.pdf")
       [Examples.part "doc.pdf-10.txt" 10; Examples.part "doc.pdf-2.txt" 2;
        Examples.part "doc.pdf-1.txt" 1] []
     = (lit "doc" ++ NL ++ NL ++ lit "one" ++ NL ++ lit "two" ++ NL ++ lit "ten" ++ NL,
        []).
Proof.
  assert (Hnd : List.NoDup (List.map chunk
                  [Examples.part "doc.pdf-1.txt" 1; Examples.part "doc.pdf-2.txt" 2;
                   Examples.part "doc.pdf-10.txt" 10]))
    by (simpl; repeat constructor; simpl; intuition discriminate).
  assert (Hp : Permutation
                 [Examples.part "doc.pdf-1.txt" 1; Examples.part "doc.pdf-2.txt" 2;
                  Examples.part "doc.pdf-10.txt" 10]
                 [Examples.part "doc.pdf-10.txt" 10; Examples.part "doc.pdf-2.txt" 2;
                  Examples.part "doc.pdf-1.txt" 1])
    by (apply Permutation_rev).
  destruct (stitch_order_independent Examples.stich_world (lit "doc.pdf") _ _ [] Hnd Hp)
    as (_ & _ & Hsame & Hasc).
  split; [exact Hnd|]. split; [exact Hsame|].
  apply (Hasc [Examples.part "doc.pdf-1.txt" 1; Examples.part "doc.pdf-2.txt" 2;
               Examples.part "doc.pdf-10.txt" 10]); [reflexivity|].
  repeat constructor.
Defined.

(** Indices [3, 1, 2] and [1, 2, 3] sort to the same list. *)
Example sort_312 :
  sort_by chunk [Examples.part "c" 3; Examples.part "a" 1; Examples.part "b" 2]
  = sort_by chunk [Examples.part "a" 1; Examples.part "b" 2; Examples.part "c" 3].
Proof. reflexivity. Qed.

(** The whole program on a folder listing chunk 10 before chunk 2: the
    order is numeric, and the name outside the convention is skipped. *)
Example main_numeric_order :
  written (main Examples.stich_world) !! lit "doc.pdf.txt"
  = Some (lit "doc" ++ NL ++ NL ++ lit "one" ++ NL ++ lit "two" ++ NL
            ++ lit "ten" ++ NL)
  /\ stitchMetadata (main Examples.stich_world) !! lit "doc.pdf.txt" = Some 17%nat
  /\ console (main Examples.stich_world)
     = [SkippedWarning (lit "notes"); SavedLog (lit "doc.pdf.txt")].
Proof. vm_compute. repeat split. Qed.

(** Listing the folder in another order gives the same files. *)
Example main_relisted :
  map_to_list (written (main Examples.stich_world_relisted))
  = map_to_list (written (main Examples.stich_world))
  /\ map_to_list (stitchMetadata (main Examples.stich_world_relisted))
     = map_to_list (stitchMetadata (main Examples.stich_world)).
Proof. vm_compute. split; reflexivity. Qed.

(** *** Metadata *)

Lemma fold_left_invariant {S G} (P : S -> Prop) (f : S -> G -> S) (gs : list G) :
  (forall s g, P s -> P (f s g)) -> forall s, P s -> P (fold_left f gs s).
Proof.
  intros Hf. induction gs as [|g gs IH]; intros s Hs; simpl; [exact Hs|].
  apply IH, Hf, Hs.
Qed.

Lemma stich_group_metadata_ok (w : world) (st : state)
    (group : jsstring * list ChunkInfo) :
  stich_metadata_ok st -> stich_metadata_ok (process_group w st group).
Proof.
  intros Hok. destruct group as [baseName files]. unfold process_group.
  destruct (stitch w baseName files (console st)) as [stitchedText log].
  destruct (writeFile_ok w (outputFileName baseName)); [|exact Hok].
  intros name len. simpl.
  destruct (decide (outputFileName baseName = name)) as [<-|Hne].
  - rewrite !lookup_insert_eq. intros [= <-]. eauto.
  - rewrite !lookup_insert_ne by assumption. apply Hok.
Qed.

Lemma stich_main_metadata_ok (w : world) : stich_metadata_ok (main w).
Proof.
  unfold main. destruct (readdir w) as [fileNames|].
  - destruct (fold_left group_file fileNames ([], [])) as [groups log].
    apply fold_left_invariant.
    + intros s g. apply stich_group_metadata_ok.
    + intros name len. simpl. now rewrite lookup_empty.
  - intros name len. simpl. now rewrite lookup_empty.
Qed.

End StichFacts.

(** * Properties of the re-indexer *)

Module CleanedFacts.
Import StitchCleaned.

Section WithNumbers.
Context `{JsNumber num}.

(** *** Object properties *)

Lemma get_set_prop_eq k (v : json num) props : get_prop k (set_prop k v props) = Some v.
Proof.
  induction props as [|[k' v'] props IH]; simpl.
  - now rewrite bool_decide_eq_true_2.
  - destruct (bool_decide (k' = k)) eqn:E; simpl; rewrite E; [reflexivity|exact IH].
Qed.

Lemma get_set_prop_ne k k' (v : json num) props :
  k' <> k -> get_prop k' (set_prop k v props) = get_prop k' props.
Proof.
  intros Hne. induction props as [|[k0 v0] props IH]; simpl.
  - rewrite bool_decide_eq_false_2; [reflexivity|congruence].
  - destruct (bool_decide (k0 = k)) eqn:E; simpl.
    + apply bool_decide_eq_true_1 in E. subst k0.
      rewrite bool_decide_eq_false_2; [reflexivity|congruence].
    + now rewrite IH.
Qed.

Lemma set_prop_same k (v : json num) props :
  get_prop k props = Some v -> set_prop k v props = props.
Proof.
  induction props as [|[k' v'] props IH]; simpl; [discriminate|].
  destruct (bool_decide (k' = k)); [now intros [= ->]|].
  intros Hget. now rewrite IH.
Qed.

(** *** Merging and re-indexing *)

Lemma chunks_of_well_formed (w : world num) (f : FileInfo) :
  well_formed w f ->
  exists props,
    readFile w (fileName f) = Parsed (JObj props)
    /\ get_prop (lit "chunks") props = Some (JArr (chunks_of w f)).
Proof.
  intros (props & chunks & Hread & Hget). exists props. split; [exact Hread|].
  unfold chunks_of. now rewrite Hread, Hget.
Qed.

Lemma merge_files_well_formed (w : world num) (files : list FileInfo) :
  Forall (well_formed w) files ->
  forall mergedChunks log,
    merge_files w files mergedChunks log
    = (Normal (mergedChunks ++ flat_map (chunks_of w) files), log).
Proof.
  induction 1 as [|f files Hf _ IH]; intros merged log; simpl.
  - now rewrite app_nil_r.
  - destruct (chunks_of_well_formed w f Hf) as (props & Hread & Hget).
    rewrite Hread. simpl. rewrite Hget, IH, <- app_assoc. reflexivity.
Qed.

Lemma reindex_lookup (chunks : list (json num)) (i : nat) :
  reindex chunks !! i
  = (fun chunk =>
       JObj (set_prop (lit "chunkNumber") (JNum (num_of_nat (i + 1))) (spread chunk)))
      <$> chunks !! i.
Proof. unfold reindex. apply list_lookup_imap. Qed.

Lemma reindex_length (chunks : list (json num)) : length (reindex chunks) = length chunks.
Proof. unfold reindex. apply length_imap. Qed.

Lemma reindex_numbered (chunks : list (json num)) : numbered (reindex chunks).
Proof.
  intros i c. rewrite reindex_lookup. destruct (chunks !! i); [|discriminate].
  intros [= <-]. eexists. split; [reflexivity|apply get_set_prop_eq].
Qed.

Lemma reindex_of_numbered (chunks : list (json num)) :
  numbered chunks -> reindex chunks = chunks.
Proof.
  intros Hnum. apply list_eq. intros i. rewrite reindex_lookup.
  destruct (chunks !! i) as [c|] eqn:Hc; [|reflexivity]. simpl.
  destruct (Hnum i c Hc) as (props & -> & Hget). simpl.
  now rewrite set_prop_same.
Qed.

(** Re-indexing its own output changes nothing. *)
Lemma reindex_reindex (chunks : list (json num)) : reindex (reindex chunks) = reindex chunks.
Proof. apply reindex_of_numbered, reindex_numbered. Qed.

(** C4. For a group of well-formed source records the re-indexer takes
    the records in ascending order of their numeric source index,
    concatenates their sub-chunk lists in that order and sets the
    [chunkNumber] of the element at position [i] (from 0) of the
    flattened list to [i + 1], whatever [chunkNumber] it had; every other
    property is kept. *)
Theorem reindex_group_contiguous (w : world num) (files : list FileInfo)
    (log : list event) :
  Forall (well_formed w) files ->
  let sorted := sort_by chunkNum files in
  let flat := flat_map (chunks_of w) sorted in
  Permutation sorted files
  /\ StronglySorted (key_le chunkNum) sorted
  /\ exists mergedChunks,
       merge_group w files log = (Normal mergedChunks, log)
       /\ length mergedChunks = length flat
       /\ forall i chunk,
            flat !! i = Some chunk ->
            exists props,
              mergedChunks !! i = Some (JObj props)
              /\ props = set_prop (lit "chunkNumber") (JNum (num_of_nat (i + 1)))
                           (spread chunk)
              /\ get_prop (lit "chunkNumber") props = Some (JNum (num_of_nat (i + 1)))
              /\ forall k, k <> lit "chunkNumber" ->
                   get_prop k props = get_prop k (spread chunk).
Proof.
  intros Hwf sorted flat.
  split; [apply sort_by_perm|]. split; [apply sort_by_sorted|].
  assert (Hsorted : Forall (well_formed w) sorted).
  { eapply Permutation.Permutation_Forall; [|exact Hwf].
    symmetry. apply sort_by_perm. }
  exists (reindex flat). split; [|split].
  - unfold merge_group. fold sorted. now rewrite merge_files_well_formed.
  - apply reindex_length.
  - intros i chunk Hi. eexists. split; [|split; [reflexivity|split]].
    + rewrite reindex_lookup, Hi. reflexivity.
    + apply get_set_prop_eq.
    + intros k Hk. now apply get_set_prop_ne.
Qed.

(** C5. A single group with one source record whose chunk list is
    already numbered 1..k is returned as it is: same elements, same
    properties, same [chunkNumber] values. *)
Theorem reindex_numbered_unchanged (w : world num) (f : FileInfo)
    (props : list (jsstring * json num)) (chunks : list (json num)) (log : list event) :
  readFile w (fileName f) = Parsed (JObj props) ->
  get_prop (lit "chunks") props = Some (JArr chunks) ->
  numbered chunks ->
  merge_group w [f] log = (Normal chunks, log).
Proof.
  intros Hread Hget Hnum. unfold merge_group. simpl.
  rewrite Hread. simpl. rewrite Hget. now rewrite reindex_of_numbered.
Qed.

(** *** Records that are passed over *)

(** The merged chunks are those of the files that are not passed over. *)
Lemma merge_files_skipped (w : world num) (files : list FileInfo) :
  forall mergedChunks log log',
    fst (merge_files w files mergedChunks log)
    = fst (merge_files w (List.filter (fun f => negb (skipped w f)) files)
             mergedChunks log').
Proof.
  induction files as [|f files IH]; intros merged log log'; [reflexivity|].
  cbn [merge_files List.filter]. unfold skipped.
  destruct (readFile w (fileName f)) as [| |jsonData] eqn:Hread; cbn [negb].
  - apply IH.
  - apply IH.
  - destruct (chunks_member jsonData) as [[[| | | |chunks|]|]|e] eqn:Hc; cbn [negb];
      try apply IH; cbn [merge_files]; rewrite Hread, Hc; try reflexivity; apply IH.
Qed.

Lemma merge_group_skipped (w : world num) (files : list FileInfo) (log log' : list event) :
  fst (merge_group w files log)
  = fst (merge_group w (List.filter (fun f => negb (skipped w f)) files) log').
Proof.
  unfold merge_group. rewrite sort_by_filter.
  pose proof (merge_files_skipped w (sort_by chunkNum files) [] log log') as Hm.
  destruct (merge_files w (sort_by chunkNum files) [] log) as [[m|e] l];
    destruct (merge_files w (List.filter _ (sort_by chunkNum files)) [] log')
      as [[m'|e'] l']; simpl in *; congruence.
Qed.

(** When no file of the group holds [null], each record that is passed
    over leaves exactly one warning or error on the console. *)
Lemma merge_files_console (w : world num) (files : list FileInfo) :
  forall mergedChunks log merged' log',
    merge_files w files mergedChunks log = (Normal merged', log') ->
    log' = log ++ List.map (skip_event w) (List.filter (skipped w) files).
Proof.
  induction files as [|f files IH]; intros merged log merged' log'.
  - intros [= _ <-]. now rewrite app_nil_r.
  - cbn [merge_files List.filter].
    pose proof (eq_refl (skipped w f)) as Hs. unfold skipped at 2 in Hs.
    pose proof (eq_refl (skip_event w f)) as He. unfold skip_event at 2 in He.
    destruct (readFile w (fileName f)) as [| |jsonData] eqn:Hread.
    + intros Hm. apply IH in Hm. rewrite Hs. cbn [List.map].
      now rewrite He, Hm, <- app_assoc.
    + intros Hm. apply IH in Hm. rewrite Hs. cbn [List.map].
      now rewrite He, Hm, <- app_assoc.
    + destruct (chunks_member jsonData) as [[[| | | |chunks|]|]|e] eqn:Hc;
        try discriminate; intros Hm; apply IH in Hm; rewrite Hs; cbn [List.map];
        rewrite ?He, Hm, <- ?app_assoc; reflexivity.
Qed.

(** A file that holds [null] makes the merge of its group throw. *)
Lemma merge_files_null (w : world num) (files : list FileInfo) :
  Exists (fun f => readFile w (fileName f) = Parsed JNull) files ->
  forall mergedChunks log,
    fst (merge_files w files mergedChunks log) = Throw TypeError.
Proof.
  induction files as [|f files IH]; intros Hex merged log.
  - inversion Hex.
  - cbn [merge_files].
    destruct (readFile w (fileName f)) as [| |jsonData] eqn:Hread.
    + apply IH. inversion Hex; subst; [congruence|assumption].
    + apply IH. inversion Hex; subst; [congruence|assumption].
    + destruct (chunks_member jsonData) as [[[| | | |chunks|]|]|[]] eqn:Hc;
        try reflexivity; apply IH; inversion Hex as [? ? Hnull|]; subst;
        try assumption; rewrite Hread in Hnull; injection Hnull as ->; discriminate.
Qed.

Lemma merge_group_null (w : world num) (files : list FileInfo) (log : list event) :
  Exists (fun f => readFile w (fileName f) = Parsed JNull) files ->
  fst (merge_group w files log) = Throw TypeError.
Proof.
  intros Hex. unfold merge_group.
  assert (Hsorted : Exists (fun f => readFile w (fileName f) = Parsed JNull)
                      (sort_by chunkNum files)).
  { rewrite List.Exists_exists in *. destruct Hex as (f & Hin & Hf). exists f.
    split; [|exact Hf]. eapply Permutation_in; [|exact Hin].
    symmetry. apply sort_by_perm. }
  pose proof (merge_files_null w _ Hsorted [] log) as Hm.
  destruct (merge_files w (sort_by chunkNum files) [] log) as [[m|e] l];
    simpl in *; congruence.
Qed.

(** A name outside the convention changes no group. *)
Lemma group_file_unmatched (files : list jsstring) :
  forall groups log log',
    fst (fold_left group_file files (groups, log))
    = fst (fold_left group_file (List.filter matches_json files) (groups, log')).
Proof.
  induction files as [|file files IH]; intros groups log log'; [reflexivity|].
  cbn [fold_left List.filter]. unfold matches_json at 1, group_file at 2.
  destruct (match_name (lit ".json") file) as [[baseName digits]|] eqn:Hm.
  - cbn [fold_left]. unfold group_file at 3. rewrite Hm. apply IH.
  - apply IH.
Qed.

(** Each such name leaves one warning on the console. *)
Lemma group_file_console (files : list jsstring) :
  forall groups log,
    snd (fold_left group_file files (groups, log))
    = log ++ List.map SkippedWarning
               (List.filter (fun file => negb (matches_json file)) files).
Proof.
  induction files as [|file files IH]; intros groups log; simpl.
  - now rewrite app_nil_r.
  - unfold matches_json at 1.
    destruct (match_name (lit ".json") file) as [[baseName digits]|]; simpl.
    + apply IH.
    + rewrite IH, <- app_assoc. reflexivity.
Qed.

(** *** Serialization *)

Lemma json_induction (P : json num -> Prop) :
  P JNull -> (forall b, P (JBool b)) -> (forall n, P (JNum n)) ->
  (forall s, P (JStr s)) ->
  (forall items, Forall P items -> P (JArr items)) ->
  (forall props, Forall (fun kv => P (snd kv)) props -> P (JObj props)) ->
  forall v, P v.
Proof.
  intros Hnull Hbool Hnum Hstr Harr Hobj. fix IH 1. intros [| b | n | s | items | props].
  - exact Hnull.
  - apply Hbool.
  - apply Hnum.
  - apply Hstr.
  - apply Harr. induction items as [|x items IHitems]; constructor; [apply IH|exact IHitems].
  - apply Hobj. induction props as [|[k x] props IHprops]; constructor;
      [apply IH|exact IHprops].
Qed.

Lemma join_length_le (sep sep' : jsstring) (l l' : list jsstring) :
  shorter sep sep' -> Forall2 shorter l l' -> shorter (join sep l) (join sep' l').
Proof.
  unfold shorter. intros Hsep. induction 1 as [|a b l l' Hab Hl IH]; [reflexivity|].
  destruct Hl as [|a2 b2 l l' Hab2 Hl]; [exact Hab|].
  change (join sep (a :: a2 :: l)) with (a ++ sep ++ join sep (a2 :: l)).
  change (join sep' (b :: b2 :: l')) with (b ++ sep' ++ join sep' (b2 :: l')).
  rewrite !length_app. lia.
Qed.

Lemma wrap_length_le (opening closing gap indent indent0 : jsstring)
    (partial0 partial : list jsstring) :
  Forall2 shorter partial0 partial ->
  shorter (wrap opening closing [] indent0 partial0)
          (wrap opening closing gap indent partial).
Proof.
  intros Hp. unfold wrap. destruct Hp as [|a b l l' Hab Hl]; [unfold shorter; lia|].
  change (nonempty []) with false. cbv iota.
  assert (Hall : Forall2 shorter (a :: l) (b :: l')) by now constructor.
  destruct (nonempty gap) eqn:Hgap.
  - pose proof (join_length_le (lit ",") (lit "," ++ NL ++ (indent ++ gap)) _ _
                  ltac:(unfold shorter; rewrite length_app; simpl; lia) Hall) as Hj.
    unfold shorter in *. rewrite !length_app in *. lia.
  - pose proof (join_length_le (lit ",") (lit ",") _ _
                  ltac:(unfold shorter; lia) Hall) as Hj.
    unfold shorter in *. rewrite !length_app in *. lia.
Qed.

Lemma wrap_length_lt (opening closing gap indent indent0 : jsstring)
    (partial0 partial : list jsstring) :
  Forall2 shorter partial0 partial -> partial0 <> [] -> nonempty gap = true ->
  (length (wrap opening closing [] indent0 partial0)
   < length (wrap opening closing gap indent partial))%nat.
Proof.
  intros Hp Hne Hgap. unfold wrap. destruct Hp as [|a b l l' Hab Hl]; [congruence|].
  change (nonempty []) with false. cbv iota. rewrite Hgap.
  assert (Hall : Forall2 shorter (a :: l) (b :: l')) by now constructor.
  pose proof (join_length_le (lit ",") (lit "," ++ NL ++ (indent ++ gap)) _ _
                ltac:(unfold shorter; rewrite length_app; simpl; lia) Hall) as Hj.
  unfold shorter in *. rewrite !length_app in *. simpl length in *. lia.
Qed.

(** The compact serialization is never longer than an indented one. *)
Lemma serialize_compact_le (v : json num) :
  forall gap indent indent0,
    shorter (serialize [] indent0 v) (serialize gap indent v).
Proof.
  induction v as [| b | n | s | items IH | props IH] using json_induction;
    intros gap indent indent0; try (unfold shorter; reflexivity).
  - cbn [serialize]. apply wrap_length_le.
    induction IH as [|x items Hx _ IHitems]; constructor; [apply Hx|exact IHitems].
  - cbn [serialize]. apply wrap_length_le.
    induction IH as [|[k x] props Hx _ IHprops]; constructor; [|exact IHprops].
    cbn [snd] in Hx. specialize (Hx gap (indent ++ gap) (indent0 ++ [])).
    unfold shorter in *. rewrite !length_app.
    change (nonempty []) with false. cbv iota.
    destruct (nonempty gap); simpl length; lia.
Qed.

Lemma serialize_object (gap indent : jsstring) (props : list (jsstring * json num)) :
  serialize gap indent (JObj props)
  = wrap (lit "{") (lit "}") gap indent
      (List.map (fun kv =>
                   quote (fst kv) ++ lit ":" ++ (if nonempty gap then lit " " else [])
                     ++ serialize gap (indent ++ gap) (snd kv)) props).
Proof.
  cbn [serialize]. f_equal. apply List.map_ext. now intros [k x].
Qed.

(** What the re-indexer records is strictly less than the length of what
    it writes. *)
Lemma compact_shorter_than_written (mergedChunks : list (json num)) :
  (length (stringify (finalJSON mergedChunks))
   < length (stringify_2 (finalJSON mergedChunks)))%nat.
Proof.
  unfold stringify, stringify_2, finalJSON. rewrite !serialize_object.
  apply wrap_length_lt; [|discriminate|reflexivity].
  cbn [List.map fst snd]. constructor; [|constructor].
  pose proof (serialize_compact_le (JArr mergedChunks) (lit "  ") ([] ++ lit "  ")
                ([] ++ [])) as Hle.
  unfold shorter in *. rewrite !length_app.
  change (nonempty []) with false. change (nonempty (lit "  ")) with true. cbv iota.
  change (length (@nil N)) with 0%nat. lia.
Qed.

(** *** Metadata *)

Lemma cleaned_group_metadata_ok (w : world num) (st : state)
    (group : jsstring * list FileInfo) :
  cleaned_metadata_ok st ->
  cleaned_metadata_ok (fst (process_group w st group)).
Proof.
  intros Hok. destruct group as [baseName files]. unfold process_group.
  destruct (merge_group w files (console st)) as [[mergedChunks|e] log]; [|exact Hok].
  destruct (writeFile_ok w (finalFileName baseName)); [|exact Hok].
  intros name len. simpl.
  destruct (decide (finalFileName baseName = name)) as [<-|Hne].
  - rewrite !lookup_insert_eq. intros [= <-]. eauto.
  - rewrite !lookup_insert_ne by assumption. apply Hok.
Qed.

Lemma cleaned_groups_metadata_ok (w : world num) (groups : list (jsstring * list FileInfo)) :
  forall st, cleaned_metadata_ok st ->
    cleaned_metadata_ok (fst (process_groups w groups st)).
Proof.
  induction groups as [|group groups IH]; intros st Hok; simpl; [exact Hok|].
  pose proof (cleaned_group_metadata_ok w st group Hok) as Hstep.
  destruct (process_group w st group) as [st' [e|]]; [exact Hstep|now apply IH].
Qed.

Lemma cleaned_main_metadata_ok (w : world num) : cleaned_metadata_ok (fst (main w)).
Proof.
  unfold main. destruct (readdir w) as [fileNames|].
  - destruct (fold_left group_file fileNames ([], [])) as [groups log].
    pose proof (cleaned_groups_metadata_ok w groups
                  {| written := ∅; stitchMetadata := ∅; console := log |}) as Hok.
    destruct (process_groups w groups _) as [st [e|]]; apply Hok;
      intros name len; simpl; now rewrite lookup_empty.
  - intros name len. simpl. now rewrite lookup_empty.
Qed.

End WithNumbers.

(** *** Examples *)

Lemma reindex_group_contiguous_witness :
  Forall (well_formed Examples.cleaned_world)
    [Examples.record "doc.pdf-2.json" 2; Examples.record "doc.pdf-1.json" 1]
  /\ exists mergedChunks,
       merge_group Examples.cleaned_world
         [Examples.record "doc.pdf-2.json" 2; Examples.record "doc.pdf-1.json" 1] []
       = (Normal mergedChunks, [])
       /\ length mergedChunks = 4%nat.
Proof.
  assert (Hwf : Forall (well_formed Examples.cleaned_world)
                  [Examples.record "doc.pdf-2.json" 2;
                   Examples.record "doc.pdf-1.json" 1]).
  { repeat constructor; do 2 eexists; split; vm_compute; reflexivity. }
  split; [exact Hwf|].
  destruct (reindex_group_contiguous Examples.cleaned_world _ [] Hwf)
    as (_ & _ & mergedChunks & Hrun & Hlen & _).
  exists mergedChunks. split; [exact Hrun|exact Hlen].
Defined.

(** The grouping example: the sub-chunks of file [-1] come first, then
    those of file [-2], numbered 1..4. *)
Example reindex_doc_pdf :
  merge_group Examples.cleaned_world
    [Examples.record "doc.pdf-2.json" 2; Examples.record "doc.pdf-1.json" 1] []
  = (Normal [Examples.chunk_object 1 "a"; Examples.chunk_object 2 "b";
             Examples.chunk_object 3 "c"; Examples.chunk_object 4 "d"], []).
Proof. vm_compute. reflexivity. Qed.

Lemma reindex_numbered_unchanged_witness :
  merge_group Examples.renumbered_world [Examples.record "doc.pdf-1.json" 1] []
  = (Normal [Examples.chunk_object 1 "a"; Examples.chunk_object 2 "b"], []).
Proof.
  refine (reindex_numbered_unchanged Examples.renumbered_world
            (Examples.record "doc.pdf-1.json" 1)
            [(lit "chunks", JArr [Examples.chunk_object 1 "a"; Examples.chunk_object 2 "b"])]
            [Examples.chunk_object 1 "a"; Examples.chunk_object 2 "b"] [] _ _ _).
  - vm_compute. reflexivity.
  - vm_compute. reflexivity.
  - intros [|[|i]] c; simpl; intros [= <-]; eexists; split; reflexivity.
Defined.

(** The whole program on the grouping example. *)
Example main_doc_pdf :
  written (fst (main Examples.cleaned_world)) !! lit "doc.pdf.txt"
  = Some (stringify_2
            (finalJSON [Examples.chunk_object 1 "a"; Examples.chunk_object 2 "b";
                        Examples.chunk_object 3 "c"; Examples.chunk_object 4 "d"]))
  /\ console (fst (main Examples.cleaned_world)) = [SavedLog (lit "doc.pdf.txt") 4].
Proof. vm_compute. split; reflexivity. Qed.

(** C8 fails on a file that holds the JSON text [null]: reading
    [jsonData.chunks] throws, the exception leaves [main], nothing is
    written for the group [b] that comes after it, and the metadata file
    is never saved; without that file the group [b] is written. *)
Theorem null_record_aborts_run :
  readFile Examples.null_world (lit "a-1.json") = Parsed JNull
  /\ snd (main Examples.null_world) = Some TypeError
  /\ console (fst (main Examples.null_world)) = [UncaughtError TypeError]
  /\ written (fst (main Examples.null_world)) !! lit "b.txt" = None
  /\ stitchMetadata (fst (main Examples.null_world)) !! lit "b.txt" = None
  /\ snd (main Examples.null_world_without) = None
  /\ written (fst (main Examples.null_world_without)) !! lit "b.txt"
     = Some (stringify_2 (finalJSON [Examples.chunk_object 1 "x"])).
Proof. vm_compute. repeat split. Qed.

End CleanedFacts.

(** * Properties shared by the stitcher and the re-indexer *)

Module PipelineFacts.

(** *** Output names *)

Lemma endsWith_true (s suffix : jsstring) :
  endsWith s suffix = true <-> exists p, s = p ++ suffix.
Proof.
  unfold endsWith. rewrite andb_true_iff, Nat.leb_le, bool_decide_eq_true. split.
  - intros [Hlen Hdrop]. exists (firstn (length s - length suffix) s).
    transitivity (firstn (length s - length suffix) s
                    ++ skipn (length s - length suffix) s);
      [symmetry; apply firstn_skipn|now f_equal].
  - intros [p ->]. rewrite length_app. split; [lia|].
    replace (length p + length suffix - length suffix)%nat with (length p) by lia.
    apply drop_app_length.
Qed.

Lemma toLowerCase_app (a b : jsstring) :
  toLowerCase (a ++ b) = toLowerCase a ++ toLowerCase b.
Proof. apply List.map_app. Qed.

Lemma outputFileName_cases (baseName : jsstring) :
  (endsWith (toLowerCase baseName) TXT = true
   /\ Stich.outputFileName baseName = baseName)
  \/ (endsWith (toLowerCase baseName) TXT = false
      /\ Stich.outputFileName baseName = baseName ++ TXT).
Proof.
  unfold Stich.outputFileName.
  destruct (endsWith (toLowerCase baseName) TXT); [left|right]; split; reflexivity.
Qed.

Lemma outputFileName_ends (baseName : jsstring) :
  endsWith (toLowerCase (Stich.outputFileName baseName)) TXT = true.
Proof.
  destruct (outputFileName_cases baseName) as [[He ->]|[He ->]]; [exact He|].
  apply endsWith_true. exists (toLowerCase baseName). apply toLowerCase_app.
Qed.

(** C9, as the code has it.  Both programs name their output by the same
    rule: a base name that ends in [.txt], whatever the case of the
    letters, is used as it is, and any other base name gets [.txt]
    appended.  The rule is idempotent, and it never makes a double
    extension: an output name ends in [.txt.txt] only if the base name
    itself does. *)
Theorem output_naming (baseName : jsstring) :
  StitchCleaned.finalFileName baseName = Stich.outputFileName baseName
  /\ (endsWith (toLowerCase baseName) TXT = true ->
      Stich.outputFileName baseName = baseName)
  /\ (endsWith (toLowerCase baseName) TXT = false ->
      Stich.outputFileName baseName = baseName ++ TXT)
  /\ Stich.outputFileName (Stich.outputFileName baseName)
     = Stich.outputFileName baseName
  /\ (endsWith (toLowerCase (Stich.outputFileName baseName)) (TXT ++ TXT) = true ->
      endsWith (toLowerCase baseName) (TXT ++ TXT) = true).
Proof.
  split; [reflexivity|]. split; [|split; [|split]].
  - intros He. unfold Stich.outputFileName. now rewrite He.
  - intros He. unfold Stich.outputFileName. now rewrite He.
  - unfold Stich.outputFileName at 1. now rewrite outputFileName_ends.
  - destruct (outputFileName_cases baseName) as [[He ->]|[He ->]]; [auto|].
    intros Hdouble. apply endsWith_true in Hdouble as [p Hp].
    rewrite toLowerCase_app, app_assoc in Hp.
    apply app_inv_tail in Hp.
    assert (endsWith (toLowerCase baseName) TXT = true)
      by (apply endsWith_true; eauto).
    congruence.
Qed.

Lemma output_naming_witness :
  Stich.outputFileName (lit "report.TXT") = lit "report.TXT"
  /\ Stich.outputFileName (lit "doc.pdf") = lit "doc.pdf.txt".
Proof.
  split.
  - exact (proj1 (proj2 (output_naming (lit "report.TXT"))) eq_refl).
  - exact (proj1 (proj2 (proj2 (output_naming (lit "doc.pdf")))) eq_refl).
Defined.

(** C9, as stated, fails: a base name that already carries [.txt.txt] is
    used as it is, so the output name carries the double extension. *)
Lemma double_extension_counterexample :
  Stich.outputFileName (lit "a.txt.txt") = lit "a.txt.txt"
  /\ StitchCleaned.finalFileName (lit "a.txt.txt") = lit "a.txt.txt"
  /\ endsWith (Stich.outputFileName (lit "a.txt.txt")) (lit ".txt.txt") = true.
Proof. vm_compute. repeat split. Qed.

(** *** Recorded lengths *)

(** In the stitcher every length recorded in [stitchMetadata] is the
    length of the text written under that name.  In the re-indexer the
    recorded length is that of the compact [JSON.stringify] of the
    document, while the file holds the serialization indented by 2,
    which is strictly longer. *)
Lemma recorded_and_written `{JsNumber num} :
  (forall (w : Stich.world) (name : jsstring) (len : nat),
      Stich.stitchMetadata (Stich.main w) !! name = Some len ->
      exists content : jsstring,
        Stich.written (Stich.main w) !! name = Some content
        /\ len = length content)
  /\ (forall (w : StitchCleaned.world num) (name : jsstring) (len : nat),
        StitchCleaned.stitchMetadata (fst (StitchCleaned.main w)) !! name = Some len ->
        exists mergedChunks : list (json num),
          StitchCleaned.written (fst (StitchCleaned.main w)) !! name
          = Some (stringify_2 (StitchCleaned.finalJSON mergedChunks))
          /\ len = length (stringify (StitchCleaned.finalJSON mergedChunks))
          /\ (len < length (stringify_2 (StitchCleaned.finalJSON mergedChunks)))%nat).
Proof.
  split.
  - intros w. apply StichFacts.stich_main_metadata_ok.
  - intros w name len Hlen.
    destruct (CleanedFacts.cleaned_main_metadata_ok w name len Hlen) as (merged & Hw & ->).
    exists merged. repeat split; [exact Hw|].
    apply CleanedFacts.compact_shorter_than_written.
Qed.

(** C7 fails in the re-indexer: for the folder whose file [doc.pdf-1.json]
    holds two chunks, the run writes 144 characters to [doc.pdf.txt] and
    records the length 84 for it, the length of the same document
    serialized without indentation. *)
Theorem recorded_length_mismatch :
  StitchCleaned.stitchMetadata (fst (StitchCleaned.main Examples.renumbered_world))
    !! lit "doc.pdf.txt" = Some 84%nat
  /\ length <$> (StitchCleaned.written (fst (StitchCleaned.main Examples.renumbered_world))
                   !! lit "doc.pdf.txt") = Some 144%nat
  /\ length (stringify (StitchCleaned.finalJSON
                          [Examples.chunk_object 1 "a"; Examples.chunk_object 2 "b"]))
     = 84%nat.
Proof. vm_compute. repeat split. Qed.

End PipelineFacts.

(** * Chunk numbers in file names *)

Section DecimalRoundTrip.

Lemma lit_String (c : ascii) (s : string) : lit (String c s) = N_of_ascii c :: lit s.
Proof. reflexivity. Qed.

Lemma digits_of_uint (d : Decimal.uint) :
  forallb is_digit (lit (NilEmpty.string_of_uint d)) = true.
Proof. induction d; cbn [NilEmpty.string_of_uint]; [reflexivity|..]; rewrite lit_String; exact IHd. Qed.

Lemma parseInt_of_uint (d : Decimal.uint) :
  forall acc : N,
    fold_left (fun acc c => (10 * acc + (c - 0x30))%N) (lit (NilEmpty.string_of_uint d)) acc
    = N.of_nat (Nat.of_uint_acc d (N.to_nat acc)).
Proof.
  induction d; intros acc; cbn [NilEmpty.string_of_uint Nat.of_uint_acc];
    [cbn; lia|..];
    rewrite lit_String; cbn [fold_left]; rewrite IHd; do 2 f_equal;
    rewrite Nat.tail_mul_spec;
    match goal with
    | |- context [N_of_ascii ?c] =>
        let v := eval vm_compute in (N_of_ascii c) in change (N_of_ascii c) with v
    end; lia.
Qed.

(** The decimal text of a chunk number is a non-empty run of digits. *)
Lemma index_key_digits (n : nat) :
  index_key n <> [] /\ forallb is_digit (index_key n) = true.
Proof.
  unfold index_key. destruct (Nat.to_uint n) as [|d|d|d|d|d|d|d|d|d|d];
    (split; [discriminate|]);
    [reflexivity|..]; apply (digits_of_uint (_ d)).
Qed.

Lemma parseInt_index_key (n : nat) : parseInt (index_key n) = N.of_nat n.
Proof.
  unfold parseInt, index_key.
  pose proof (Unsigned.of_to n) as E. unfold Nat.of_uint in E.
  destruct (Nat.to_uint n) as [|d|d|d|d|d|d|d|d|d|d] eqn:Ed;
    [cbn in E; subst n; reflexivity|..];
    cbn [NilZero.string_of_uint]; rewrite parseInt_of_uint;
    change (N.to_nat 0) with 0%nat; now rewrite E.
Qed.

Lemma index_key_inj (a b : nat) : index_key a = index_key b -> a = b.
Proof.
  intros E. apply Nat2N.inj. now rewrite <- !parseInt_index_key, E.
Qed.

End DecimalRoundTrip.

(** * The character splitter *)

Module SplitFacts.
Import SplitByChars SplitSpec.

Lemma substring_window (s : jsstring) (a b : nat) :
  (a <= b)%nat -> substring s a b = firstn (b - a) (skipn a s).
Proof.
  intros Hab. unfold substring.
  rewrite (Nat.min_l (Nat.min a _) (Nat.min b _)),
    (Nat.max_r (Nat.min a _) (Nat.min b _)) by lia.
  destruct (Nat.le_gt_cases b (length s)) as [Hb|Hb].
  - now rewrite !Nat.min_l by lia.
  - rewrite (Nat.min_r b) by lia.
    destruct (Nat.le_gt_cases a (length s)) as [Ha|Ha].
    + rewrite Nat.min_l by lia.
      rewrite !firstn_all2; [reflexivity| |]; rewrite length_skipn; lia.
    + rewrite Nat.min_r by lia.
      rewrite !skipn_all2 by lia. now rewrite !firstn_nil.
Qed.

Lemma substring_prefix (s : jsstring) (b : nat) : substring s 0 b = firstn b s.
Proof. rewrite substring_window by lia. now rewrite Nat.sub_0_r. Qed.

Lemma substring_from_skipn (s : jsstring) (a : nat) : substring_from s a = skipn a s.
Proof.
  unfold substring_from.
  destruct (Nat.le_gt_cases a (length s)) as [Ha|Ha].
  - rewrite substring_window by lia. apply firstn_all2. rewrite length_skipn. lia.
  - unfold substring. rewrite Nat.min_id, (Nat.min_r a) by lia.
    rewrite Nat.min_id, Nat.max_id, Nat.sub_diag.
    cbn [firstn]. symmetry. apply skipn_all2. lia.
Qed.

Lemma mark_first (ov : nat) (chunk : jsstring) : mark ov 0 chunk = chunk.
Proof. reflexivity. Qed.

Lemma mark_later (ov s : nat) (chunk : jsstring) :
  (0 < s)%nat ->
  mark ov s chunk
  = OVERLAP_START_LINE ++ firstn ov chunk ++ OVERLAP_END_LINE ++ skipn ov chunk.
Proof.
  intros Hs. unfold mark.
  destruct (Nat.ltb_spec 0 s); [|lia].
  now rewrite substring_prefix, substring_from_skipn.
Qed.

Lemma length_mark_later (ov s : nat) (chunk : jsstring) :
  (0 < s)%nat ->
  length (mark ov s chunk)
  = (length OVERLAP_START_LINE + length OVERLAP_END_LINE + length chunk)%nat.
Proof.
  intros Hs. rewrite mark_later by assumption.
  rewrite !length_app, length_firstn, length_skipn. lia.
Qed.

Lemma unmark_mark (ov s : nat) (chunk : jsstring) :
  (0 < s)%nat -> unmark ov (mark ov s chunk) = skipn ov chunk.
Proof.
  intros Hs. unfold unmark. rewrite length_mark_later by assumption.
  replace (length OVERLAP_START_LINE + length OVERLAP_END_LINE + length chunk
           - length OVERLAP_START_LINE - length OVERLAP_END_LINE)%nat
    with (length chunk) by lia.
  rewrite mark_later by assumption.
  rewrite <- (length_firstn ov chunk).
  rewrite !app_assoc.
  rewrite <- !length_app. apply drop_app_length.
Qed.

Lemma ceil_div_lt (n step i : nat) :
  (0 < step)%nat -> (i < ceil_div n step)%nat <-> (i * step < n)%nat.
Proof.
  intros Hstep. unfold ceil_div.
  pose proof (Nat.div_mod_eq (n + step - 1) step) as E.
  pose proof (Nat.mod_upper_bound (n + step - 1) step ltac:(lia)) as B.
  set (q := ((n + step - 1) / step)%nat) in *.
  set (r := ((n + step - 1) mod step)%nat) in *.
  assert (E' : (n + step - 1 = q * step + r)%nat) by lia.
  split; intros Hi.
  - pose proof (Nat.mul_le_mono_r (S i) q step ltac:(lia)). lia.
  - destruct (Nat.le_gt_cases q i) as [Hqi|]; [|assumption].
    pose proof (Nat.mul_le_mono_r q i step Hqi). lia.
Qed.

Lemma ceil_div_le (n step : nat) : (0 < step)%nat -> (ceil_div n step <= n)%nat.
Proof.
  intros Hstep. destruct (Nat.le_gt_cases (ceil_div n step) n) as [|Hgt]; [assumption|].
  apply (ceil_div_lt n step n Hstep) in Hgt. nia.
Qed.

Lemma ceil_div_covers (n step : nat) : (0 < step)%nat -> (n <= ceil_div n step * step)%nat.
Proof.
  intros Hstep.
  destruct (Nat.le_gt_cases n (ceil_div n step * step)) as [|Hlt]; [assumption|].
  apply (ceil_div_lt n step _ Hstep) in Hlt. lia.
Qed.

(** The loop from the start index of chunk [i]: it is left after the
    last chunk, and has pushed the chunks [i], [i + 1], ... in between. *)
Lemma split_loop_spec (cs ov : nat) (content : jsstring) :
  (ov < cs)%nat ->
  forall fuel i chunks,
    let m := ceil_div (length content) (cs - ov) in
    (i <= m)%nat -> (m - i < fuel)%nat ->
    split_loop fuel cs ov content (i * (cs - ov)) chunks
    = Some (chunks ++ List.map (chunk_at cs ov content) (seq i (m - i))).
Proof.
  intros Hov fuel. induction fuel as [|fuel IH]; intros i chunks m Hi Hfuel; [lia|].
  cbn [split_loop].
  destruct (Nat.ltb_spec (i * (cs - ov)) (length content)) as [Hlt|Hge].
  - apply (ceil_div_lt _ (cs - ov) i ltac:(lia)) in Hlt. fold m in Hlt.
    replace (i * (cs - ov) + (cs - ov))%nat with (S i * (cs - ov))%nat by lia.
    rewrite IH by (fold m; lia). fold m.
    replace (m - i)%nat with (S (m - S i)) by lia.
    cbn [seq List.map]. rewrite <- app_assoc. reflexivity.
  - assert (Hm : ~ (i < m)%nat).
    { intros Hlt. apply (ceil_div_lt _ (cs - ov) i ltac:(lia)) in Hlt. lia. }
    replace (m - i)%nat with 0%nat by lia. cbn. now rewrite app_nil_r.
Qed.

Lemma piece_window (cs ov : nat) (content : jsstring) (i : nat) :
  piece cs ov content i = firstn cs (skipn (i * (cs - ov)) content).
Proof.
  unfold piece. rewrite substring_window by lia. f_equal. lia.
Qed.

Lemma concat_windows {A} (step : nat) (l : list A) :
  forall k a,
    concat (List.map (fun j => firstn step (skipn (a + j * step) l)) (seq 0 k))
    = firstn (k * step) (skipn a l).
Proof.
  induction k as [|k IH]; intros a; [reflexivity|].
  cbn [seq List.map concat]. rewrite <- seq_shift, List.map_map.
  rewrite (List.map_ext _ (fun j => firstn step (skipn ((a + step) + j * step) l))).
  2:{ intros j. do 2 f_equal. lia. }
  rewrite IH. rewrite Nat.add_0_r.
  rewrite <- (drop_drop l step a).
  replace (S k * step)%nat with (step + k * step)%nat by lia.
  apply take_take_drop.
Qed.

Lemma rejoin_chunks (cs ov : nat) (content : jsstring) :
  (ov < cs)%nat ->
  rejoin ov (List.map (chunk_at cs ov content)
               (seq 0 (ceil_div (length content) (cs - ov))))
  = content.
Proof.
  intros Hov. set (step := (cs - ov)%nat).
  pose proof (ceil_div_covers (length content) step ltac:(lia)) as Hcov.
  destruct (ceil_div (length content) step) as [|m].
  - destruct content; [reflexivity|simpl in Hcov; lia].
  - cbn [seq List.map rejoin]. rewrite <- seq_shift, !List.map_map.
    rewrite (List.map_ext _ (fun j => firstn step (skipn (cs + j * step) content))).
    2:{ intros j. unfold chunk_at. rewrite unmark_mark by (fold step; lia).
        rewrite piece_window. fold step.
        rewrite skipn_firstn_comm, skipn_skipn. fold step. do 2 f_equal.
        unfold step. lia. }
    rewrite concat_windows.
    unfold chunk_at. cbn [Nat.mul]. rewrite mark_first, piece_window. cbn [Nat.mul skipn].
    rewrite take_take_drop. apply firstn_all2. unfold step in *. lia.
Qed.

Lemma overlap_lt_chunk_size : (OVERLAP < CHUNK_SIZE)%nat.
Proof. apply Nat.ltb_lt. vm_compute. reflexivity. Qed.

Lemma marker_lengths : (length OVERLAP_START_LINE + length OVERLAP_END_LINE = 43)%nat.
Proof. reflexivity. Qed.

Lemma length_piece (cs ov : nat) (content : jsstring) (i : nat) :
  length (piece cs ov content i)
  = Nat.min cs (length content - i * (cs - ov)).
Proof. rewrite piece_window, length_firstn, length_skipn. reflexivity. Qed.

(** What the splitter returns. *)
Lemma split_content_chunks (content : jsstring) :
  split_content content
  = Some (List.map (chunk_at CHUNK_SIZE OVERLAP content)
            (seq 0 (ceil_div (length content) (CHUNK_SIZE - OVERLAP)))).
Proof.
  pose proof overlap_lt_chunk_size as Hov.
  set (m := ceil_div (length content) (CHUNK_SIZE - OVERLAP)).
  unfold split_content.
  pose proof (ceil_div_le (length content) (CHUNK_SIZE - OVERLAP) ltac:(lia)).
  pose proof (split_loop_spec CHUNK_SIZE OVERLAP content Hov
                (S (length content)) 0 []) as E.
  cbv zeta in E. fold m in E. rewrite Nat.sub_0_r in E.
  apply E; lia.
Qed.

(** X13. The splitter always returns: a content of [n] characters gives
    [ceil (n / (CHUNK_SIZE - OVERLAP))] chunks, chunk [i] is the marked
    piece that starts at [i * (CHUNK_SIZE - OVERLAP)], and the first chunk
    followed by the text behind the end marker of every other chunk is
    the content. *)
Theorem split_content_rejoins (content : jsstring) :
  exists chunks,
    split_content content = Some chunks
    /\ length chunks = ceil_div (length content) (CHUNK_SIZE - OVERLAP)
    /\ (forall i, (i < length chunks)%nat ->
          chunks !! i = Some (chunk_at CHUNK_SIZE OVERLAP content i))
    /\ rejoin OVERLAP chunks = content.
Proof.
  eexists. split; [apply split_content_chunks|]. split; [|split].
  - now rewrite length_map, length_seq.
  - intros i Hi. rewrite length_map, length_seq in Hi.
    rewrite list_lookup_fmap, lookup_seq_lt by assumption. reflexivity.
  - apply rejoin_chunks, overlap_lt_chunk_size.
Qed.

(** X14. The first chunk is the first [CHUNK_SIZE] characters of the content,
    without markers; every later chunk carries the two marker lines, 43
    characters, on top of its piece, so no chunk is longer than
    [CHUNK_SIZE + 43]. *)
Theorem split_chunk_lengths (content : jsstring) (chunks : list jsstring)
    (i : nat) (c : jsstring) :
  split_content content = Some chunks -> chunks !! i = Some c ->
  (i = 0%nat -> c = firstn CHUNK_SIZE content)
  /\ ((0 < i)%nat ->
      length c = (43 + length (piece CHUNK_SIZE OVERLAP content i))%nat)
  /\ (length c <= CHUNK_SIZE + 43)%nat.
Proof.
  intros Hrun Hc. pose proof overlap_lt_chunk_size as Hov.
  rewrite split_content_chunks in Hrun. injection Hrun as <-.
  pose proof (lookup_lt_Some _ _ _ Hc) as Hlt.
  rewrite length_map, length_seq in Hlt.
  rewrite list_lookup_fmap, lookup_seq_lt in Hc by assumption.
  change (Some (chunk_at CHUNK_SIZE OVERLAP content i) = Some c) in Hc.
  injection Hc as <-.
  assert (Hfirst : chunk_at CHUNK_SIZE OVERLAP content 0 = firstn CHUNK_SIZE content).
  { unfold chunk_at. cbn [Nat.mul]. rewrite mark_first, piece_window. reflexivity. }
  assert (Hlater : (0 < i)%nat ->
            length (chunk_at CHUNK_SIZE OVERLAP content i)
            = (43 + length (piece CHUNK_SIZE OVERLAP content i))%nat).
  { intros Hi. unfold chunk_at. rewrite length_mark_later by nia.
    now rewrite marker_lengths. }
  split; [|split].
  - intros ->. exact Hfirst.
  - exact Hlater.
  - destruct i as [|i].
    + rewrite Hfirst, length_firstn. lia.
    + rewrite Hlater, length_piece by lia. lia.
Qed.

Lemma split_chunk_lengths_witness :
  let content := repeat 0x61%N 9900 in
  let c := OVERLAP_START_LINE ++ repeat 0x61%N 100 ++ OVERLAP_END_LINE in
  split_content content = Some [content; c]
  /\ [content; c] !! 1%nat = Some c
  /\ length c = (43 + length (piece CHUNK_SIZE OVERLAP content 1))%nat
  /\ (length c <= CHUNK_SIZE + 43)%nat.
Proof.
  intros content c.
  assert (H1 : split_content content = Some [content; c]) by (vm_compute; reflexivity).
  assert (H2 : [content; c] !! 1%nat = Some c) by reflexivity.
  destruct (split_chunk_lengths content [content; c] 1 c H1 H2) as (_ & H3 & H4).
  exact (conj H1 (conj H2 (conj (H3 (le_n 1)) H4))).
Defined.

(** X15. The loop has no exit at the end of the content: when the start index
    of chunk [i > 0] is still inside the content but at most [OVERLAP]
    characters before its end, chunk [i] is pushed all the same, and all
    of its text is the end of the previous piece between the two marker
    lines; nothing is left behind its end marker. *)
Theorem split_trailing_chunk (cs ov : nat) (content : jsstring) (i fuel : nat) :
  (ov < cs)%nat -> (0 < i)%nat ->
  (i * (cs - ov) < length content <= i * (cs - ov) + ov)%nat ->
  (length content < fuel)%nat ->
  let tail := skipn (i * (cs - ov)) content in
  exists chunks,
    split_loop fuel cs ov content 0 [] = Some chunks
    /\ chunks !! i = Some (OVERLAP_START_LINE ++ tail ++ OVERLAP_END_LINE)
    /\ unmark ov (OVERLAP_START_LINE ++ tail ++ OVERLAP_END_LINE) = []
    /\ skipn (cs - ov) (piece cs ov content (i - 1)) = tail.
Proof.
  intros Hov Hi [Hlt Hle] Hfuel tail.
  set (step := (cs - ov)%nat) in *.
  pose proof (proj2 (ceil_div_lt (length content) step i ltac:(lia)) Hlt) as Him.
  assert (Htail : (length tail <= ov)%nat) by (unfold tail; rewrite length_skipn; lia).
  assert (Hpiece : piece cs ov content i = tail).
  { rewrite piece_window. fold step tail. apply firstn_all2. lia. }
  assert (Hchunk : chunk_at cs ov content i
                   = OVERLAP_START_LINE ++ tail ++ OVERLAP_END_LINE).
  { unfold chunk_at. fold step. rewrite Hpiece, mark_later by nia.
    rewrite firstn_all2, skipn_all2 by lia. now rewrite app_nil_r. }
  pose proof (ceil_div_le (length content) step ltac:(lia)) as Hmle.
  pose proof (split_loop_spec cs ov content Hov fuel 0 []) as E.
  cbv zeta in E. fold step in E. rewrite Nat.sub_0_r in E.
  eexists. split; [apply E; lia|]. cbn [app]. split; [|split].
  - rewrite list_lookup_fmap, lookup_seq_lt by lia. cbn. now rewrite Hchunk.
  - rewrite <- Hchunk. unfold chunk_at. fold step.
    rewrite unmark_mark by nia. rewrite Hpiece. apply skipn_all2. lia.
  - rewrite piece_window. fold step.
    rewrite skipn_firstn_comm, skipn_skipn.
    replace (step + (i - 1) * step)%nat with (i * step)%nat by nia.
    fold tail. apply firstn_all2. unfold step. lia.
Qed.

Lemma split_trailing_chunk_witness :
  (3 < 10)%nat /\ (0 < 1)%nat
  /\ (1 * (10 - 3) < length (lit "abcdefghi") <= 1 * (10 - 3) + 3)%nat
  /\ (length (lit "abcdefghi") < 10)%nat
  /\ exists chunks,
       split_loop 10 10 3 (lit "abcdefghi") 0 [] = Some chunks
       /\ chunks !! 1%nat = Some (OVERLAP_START_LINE ++ lit "hi" ++ OVERLAP_END_LINE)
       /\ unmark 3 (OVERLAP_START_LINE ++ lit "hi" ++ OVERLAP_END_LINE) = []
       /\ skipn (10 - 3) (piece 10 3 (lit "abcdefghi") (1 - 1)) = lit "hi".
Proof.
  assert (H1 : (3 < 10)%nat) by lia.
  assert (H2 : (0 < 1)%nat) by lia.
  assert (H3 : (1 * (10 - 3) < length (lit "abcdefghi") <= 1 * (10 - 3) + 3)%nat)
    by (cbn; lia).
  assert (H4 : (length (lit "abcdefghi") < 10)%nat) by (cbn; lia).
  exact (conj H1 (conj H2 (conj H3 (conj H4
           (split_trailing_chunk 10 3 (lit "abcdefghi") 1 10 H1 H2 H3 H4))))).
Defined.

Lemma chunk_file_name_inj (baseName : jsstring) (a b : nat) :
  chunk_file_name baseName a = chunk_file_name baseName b -> a = b.
Proof.
  unfold chunk_file_name. intros E.
  apply app_inv_head, app_inv_head, app_inv_tail in E. now apply index_key_inj.
Qed.

Lemma save_chunks_other (w : world) (base name : jsstring) (chunks : list jsstring) :
  forall st i0,
    (forall i, (i0 <= i)%nat -> name <> chunk_file_name base (i + 1)) ->
    written (save_chunks w base st i0 chunks) !! name = written st !! name.
Proof.
  induction chunks as [|chunk rest IH]; intros st i0 Hname; [reflexivity|].
  cbn [save_chunks]. rewrite IH by (intros i Hi; apply Hname; lia).
  unfold save_chunk. destruct (writeFile_ok w _); cbn [written]; [|reflexivity].
  apply lookup_insert_ne. intros E. now apply (Hname i0 ltac:(lia)).
Qed.

Lemma save_chunks_saved (w : world) (base : jsstring) (chunks : list jsstring) :
  forall st i0 k c,
    chunks !! k = Some c ->
    writeFile_ok w (chunk_file_name base (i0 + k + 1)) = true ->
    written (save_chunks w base st i0 chunks) !! chunk_file_name base (i0 + k + 1)
    = Some (toWellFormed (base ++ NL ++ NL ++ c)).
Proof.
  induction chunks as [|chunk rest IH]; intros st i0 k c Hk Hok; [discriminate|].
  cbn [save_chunks]. destruct k as [|k].
  - injection Hk as ->. rewrite Nat.add_0_r in *.
    rewrite save_chunks_other.
    + unfold save_chunk. rewrite Hok. cbn [written].
      rewrite lookup_insert_eq. now rewrite <- !app_assoc.
    + intros i Hi E. apply chunk_file_name_inj in E. lia.
  - replace (i0 + S k)%nat with (S i0 + k)%nat in * by lia.
    now apply IH.
Qed.

(** *** Writing in UTF-8 *)

Lemma toWellFormed_no_surrogate (s : jsstring) :
  no_surrogate s = true -> toWellFormed s = s.
Proof.
  induction s as [|c s IH]; [reflexivity|].
  cbn [no_surrogate forallb]. intros [[Hh Hl]%andb_true_iff Hs]%andb_true_iff.
  apply negb_true_iff in Hh, Hl. cbn [toWellFormed]. rewrite Hh, Hl.
  f_equal. now apply IH.
Qed.

Lemma length_toWellFormed (s : jsstring) : length (toWellFormed s) = length s.
Proof.
  assert (H : forall n s, (length s <= n)%nat -> length (toWellFormed s) = length s).
  { clear s. induction n as [|n IH]; intros s Hn.
    - destruct s; [reflexivity|cbn in Hn; lia].
    - destruct s as [|c s]; [reflexivity|]. cbn [length] in Hn. cbn [toWellFormed].
      destruct (is_high_surrogate c).
      + destruct s as [|d s]; [reflexivity|]. cbn [length] in Hn.
        destruct (is_low_surrogate d); cbn [length]; rewrite IH; cbn [length]; lia.
      + destruct (is_low_surrogate c); cbn [length]; rewrite IH; lia. }
  now apply (H (length s)).
Qed.

Lemma no_surrogate_app (a b : jsstring) :
  no_surrogate (a ++ b) = no_surrogate a && no_surrogate b.
Proof. apply forallb_app. Qed.

Lemma no_surrogate_firstn (s : jsstring) (k : nat) :
  no_surrogate s = true -> no_surrogate (firstn k s) = true.
Proof.
  rewrite <- (firstn_skipn k s) at 1. rewrite no_surrogate_app.
  now intros [H _]%andb_true_iff.
Qed.

Lemma no_surrogate_skipn (s : jsstring) (k : nat) :
  no_surrogate s = true -> no_surrogate (skipn k s) = true.
Proof.
  rewrite <- (firstn_skipn k s) at 1. rewrite no_surrogate_app.
  now intros [_ H]%andb_true_iff.
Qed.

Lemma no_surrogate_mark (ov s : nat) (chunk : jsstring) :
  no_surrogate chunk = true -> no_surrogate (mark ov s chunk) = true.
Proof.
  intros H. destruct s as [|s]; [exact H|].
  rewrite mark_later by lia. rewrite !no_surrogate_app.
  rewrite no_surrogate_firstn, no_surrogate_skipn by assumption. reflexivity.
Qed.

Lemma no_surrogate_chunk (content : jsstring) (chunks : list jsstring)
    (i : nat) (c : jsstring) :
  no_surrogate content = true ->
  split_content content = Some chunks -> chunks !! i = Some c ->
  no_surrogate c = true.
Proof.
  intros Hcontent Hrun Hc.
  rewrite split_content_chunks in Hrun. injection Hrun as <-.
  pose proof (lookup_lt_Some _ _ _ Hc) as Hlt.
  rewrite length_map, length_seq in Hlt.
  rewrite list_lookup_fmap, lookup_seq_lt in Hc by assumption.
  change (Some (chunk_at CHUNK_SIZE OVERLAP content i) = Some c) in Hc.
  injection Hc as <-. unfold chunk_at. apply no_surrogate_mark.
  rewrite piece_window. now apply no_surrogate_firstn, no_surrogate_skipn.
Qed.

Lemma no_surrogate_path_parse_name (fileName : jsstring) :
  no_surrogate fileName = true -> no_surrogate (path_parse_name fileName) = true.
Proof.
  intros H. unfold path_parse_name.
  destruct (last_index_of _ fileName) as [startDot|]; [|exact H].
  destruct (_ || _); [exact H|]. now apply no_surrogate_firstn.
Qed.

(** X16. Every chunk of a readable file whose write succeeds is in the
    output folder after the turn for that file, under the stem of the
    file name, the chunk number counted from 1 and [.txt]: the numbers of
    two chunks never print the same, so no chunk of the file overwrites
    another.  The file holds the UTF-8 form of the stem, an empty line
    and the chunk, of the length that the console reports; it is that
    text itself when the file name and the content have no surrogate code
    unit, while a chunk that begins or ends inside a surrogate pair is
    written with U+FFFD in place of the half. *)
Theorem split_file_saved (w : world) (st : state) (fileName content : jsstring)
    (chunks : list jsstring) (i : nat) (c : jsstring) :
  readFile w fileName = Some content ->
  split_content content = Some chunks ->
  chunks !! i = Some c ->
  let baseNameWithoutExt := path_parse_name fileName in
  let chunkContent := baseNameWithoutExt ++ NL ++ NL ++ c in
  writeFile_ok w (chunk_file_name baseNameWithoutExt (i + 1)) = true ->
  written (process_file w st fileName) !! chunk_file_name baseNameWithoutExt (i + 1)
    = Some (toWellFormed chunkContent)
  /\ length (toWellFormed chunkContent) = length chunkContent
  /\ (no_surrogate fileName = true -> no_surrogate content = true ->
      toWellFormed chunkContent = chunkContent).
Proof.
  intros Hread Hsplit Hc base chunkContent Hok. split; [|split].
  - unfold process_file. rewrite Hread, Hsplit. fold base.
    now apply (save_chunks_saved w base chunks st 0 i c).
  - apply length_toWellFormed.
  - intros Hname Hcontent. apply toWellFormed_no_surrogate.
    unfold chunkContent. rewrite !no_surrogate_app.
    unfold base. rewrite no_surrogate_path_parse_name by assumption.
    now rewrite (no_surrogate_chunk content chunks i c).
Qed.

Lemma split_file_saved_witness :
  written (process_file MoreExamples.split_world {| written := ∅; console := [] |}
             (lit "doc.pdf.txt")) !! lit "doc.pdf-1.txt"
  = Some (lit "doc.pdf" ++ NL ++ NL ++ lit "hello").
Proof.
  exact (proj1 (split_file_saved MoreExamples.split_world
                  {| written := ∅; console := [] |}
                  (lit "doc.pdf.txt") (lit "hello") [lit "hello"] 0 (lit "hello")
                  eq_refl eq_refl eq_refl eq_refl)).
Defined.

(** A content of 10001 code units that ends in a surrogate pair: the
    first chunk ends with the first half of the pair, and its file ends
    with U+FFFD. *)
Example split_inside_surrogate_pair :
  option_map (fun chunks => List.map (@length N) chunks)
    (split_content (repeat 0x61%N 9999 ++ [0xD83D%N; 0xDE00%N]))
  = Some [10000; 244]%nat
  /\ written (process_file MoreExamples.surrogate_world
                {| written := ∅; console := [] |} (lit "s.txt")) !! lit "s-1.txt"
     = Some (lit "s" ++ NL ++ NL ++ repeat 0x61%N 9999 ++ [0xFFFD%N]).
Proof. split; vm_compute; reflexivity. Qed.

Lemma save_chunks_from_chunk (w : world) (fileNames : list jsstring)
    (fileName content : jsstring) (chunks : list jsstring) :
  In fileName fileNames ->
  readFile w fileName = Some content ->
  split_content content = Some chunks ->
  forall rest st i0,
    (forall k c, rest !! k = Some c -> chunks !! (i0 + k)%nat = Some c) ->
    (forall name text, written st !! name = Some text ->
       from_chunk w fileNames name text) ->
    forall name text,
      written (save_chunks w (path_parse_name fileName) st i0 rest) !! name = Some text ->
      from_chunk w fileNames name text.
Proof.
  intros Hin Hread Hsplit.
  induction rest as [|chunk rest IH]; intros st i0 Hrest Hst; [exact Hst|].
  cbn [save_chunks]. apply IH.
  - intros k c Hk. replace (S i0 + k)%nat with (i0 + S k)%nat by lia. now apply Hrest.
  - intros name text. unfold save_chunk.
    destruct (writeFile_ok w _) eqn:Hok; cbn [written]; [|apply Hst].
    destruct (decide (name = chunk_file_name (path_parse_name fileName) (i0 + 1)))
      as [->|Hne].
    + rewrite lookup_insert_eq. intros [= <-].
      exists fileName, content, chunks, i0, chunk.
      split; [exact Hin|]. split; [exact Hread|]. split; [exact Hsplit|].
      split; [rewrite <- (Nat.add_0_r i0); now apply Hrest|].
      split; [reflexivity|]. split; [now rewrite <- !app_assoc|exact Hok].
    + rewrite lookup_insert_ne by congruence. apply Hst.
Qed.

Lemma process_files_from_chunk (w : world) (fileNames : list jsstring) :
  forall files st,
    (forall f, In f files -> In f fileNames) ->
    (forall name text, written st !! name = Some text ->
       from_chunk w fileNames name text) ->
    forall name text,
      written (fold_left (process_file w) files st) !! name = Some text ->
      from_chunk w fileNames name text.
Proof.
  induction files as [|f files IH]; intros st Hsub Hst; [exact Hst|].
  cbn [fold_left]. apply IH; [intros g Hg; apply Hsub; now right|].
  unfold process_file. destruct (readFile w f) as [content|] eqn:Hread; [|exact Hst].
  destruct (split_content content) as [chunks|] eqn:Hsplit; [|exact Hst].
  apply (save_chunks_from_chunk w fileNames f content chunks
           (Hsub f (or_introl eq_refl)) Hread Hsplit chunks st 0); [|exact Hst].
  intros k c Hk. exact Hk.
Qed.

(** X17. The run writes nothing but chunks: every file in the output
    folder is a chunk of a readable file of the input folder, named by
    the stem of that file and the chunk number, and holds the UTF-8 form
    of the stem, an empty line and the chunk. *)
Theorem split_main_written (w : world) (name text : jsstring) :
  written (main w) !! name = Some text ->
  exists fileNames,
    readdir w = Some fileNames /\ from_chunk w fileNames name text.
Proof.
  unfold main. destruct (readdir w) as [fileNames|]; cbn [written].
  - intros Hw. exists fileNames. split; [reflexivity|].
    revert name text Hw. apply process_files_from_chunk; [auto|].
    cbn [written]. intros name text Hw. now rewrite lookup_empty in Hw.
  - intros Hw. now rewrite lookup_empty in Hw.
Qed.

Lemma split_main_written_witness :
  written (main MoreExamples.split_world) !! lit "doc.pdf-1.txt"
    = Some (lit "doc.pdf" ++ NL ++ NL ++ lit "hello")
  /\ exists fileNames,
       readdir MoreExamples.split_world = Some fileNames
       /\ from_chunk MoreExamples.split_world fileNames (lit "doc.pdf-1.txt")
            (lit "doc.pdf" ++ NL ++ NL ++ lit "hello").
Proof.
  assert (H : written (main MoreExamples.split_world) !! lit "doc.pdf-1.txt"
              = Some (lit "doc.pdf" ++ NL ++ NL ++ lit "hello"))
    by (vm_compute; reflexivity).
  exact (conj H (split_main_written MoreExamples.split_world _ _ H)).
Defined.

End SplitFacts.

(** * File names along the pipeline *)

Section PipelineNames.

Lemma no_line_terminator_firstn (s : jsstring) (k : nat) :
  no_line_terminator s = true -> no_line_terminator (firstn k s) = true.
Proof.
  unfold no_line_terminator. rewrite <- (firstn_skipn k s) at 1.
  rewrite forallb_app. now intros [H _]%andb_true_iff.
Qed.

(** A name made of a base, a dash, a printed number and the extension is
    read back as that base and that number. *)
Lemma match_name_numbered (ext base : jsstring) (k : nat) :
  match ext with c :: _ => is_digit c = false | [] => True end ->
  no_line_terminator base = true ->
  match_name ext (base ++ lit "-" ++ index_key k ++ ext) = Some (base, index_key k).
Proof.
  intros Hext Hbase. apply match_name_spec; [exact Hext|].
  destruct (index_key_digits k) as [Hne Hdig]. now repeat split.
Qed.

Lemma last_index_of_none (c : N) (s : jsstring) :
  forallb (fun x => negb (x =? c)%N) s = true -> last_index_of c s = None.
Proof.
  induction s as [|x s IH]; [reflexivity|]. cbn [forallb last_index_of].
  intros [Hx Hs]%andb_true_iff. rewrite (IH Hs).
  now destruct (x =? c)%N.
Qed.

Lemma last_index_of_last (c : N) (a r : jsstring) :
  forallb (fun x => negb (x =? c)%N) r = true ->
  last_index_of c (a ++ c :: r) = Some (length a).
Proof.
  intros Hr. induction a as [|x a IH].
  - cbn [app last_index_of length]. rewrite (last_index_of_none c r Hr).
    now rewrite N.eqb_refl.
  - cbn [app last_index_of length]. now rewrite IH.
Qed.

(** [path.parse] drops the extension behind the last dot of a name that
    has something before that dot. *)
Lemma path_parse_name_ext (stem e : jsstring) :
  stem <> [] -> e <> [] ->
  forallb (fun x => negb (x =? 0x2e)%N) e = true ->
  path_parse_name (stem ++ 0x2e%N :: e) = stem.
Proof.
  intros Hstem He Hdot. unfold path_parse_name.
  rewrite (last_index_of_last _ stem e Hdot).
  assert (Hlen : (length stem =? 0)%nat = false)
    by (destruct stem; [congruence|reflexivity]).
  rewrite Hlen. cbn [orb]. rewrite bool_decide_eq_false_2.
  - apply take_app_length.
  - intros E. apply (f_equal (@length N)) in E.
    rewrite length_app in E. apply Nat.eqb_neq in Hlen.
    destruct e; [congruence|]. cbn in E. lia.
Qed.

Lemma path_parse_name_txt (stem : jsstring) :
  stem <> [] -> path_parse_name (stem ++ TXT) = stem.
Proof. intros H. now apply (path_parse_name_ext stem (lit "txt")). Qed.

Lemma chunk_file_name_stem (base : jsstring) (k : nat) :
  path_parse_name (chunk_file_name base k) = base ++ lit "-" ++ index_key k.
Proof.
  unfold chunk_file_name.
  change (base ++ lit "-" ++ index_key k ++ lit ".txt")
    with (base ++ lit "-" ++ index_key k ++ 0x2e%N :: lit "txt").
  rewrite !app_assoc. apply path_parse_name_ext; [|discriminate|reflexivity].
  intros E. apply app_eq_nil in E as [E _]. apply app_eq_nil in E as [_ E].
  discriminate.
Qed.

End PipelineNames.

(** X5. The pattern of both stitch programs accepts exactly the names that
    are a first part without line terminator, a dash, a non-empty run of
    digits and the extension, and the two parts it returns are unique:
    the first part may itself hold dashes, digits and dots. *)
Theorem chunk_name_pattern (ext name : jsstring) :
  match ext with c :: _ => is_digit c = false | [] => True end ->
  (forall b d,
     match_name ext name = Some (b, d)
     <-> name = b ++ DASH :: d ++ ext
         /\ d <> [] /\ forallb is_digit d = true /\ no_line_terminator b = true)
  /\ (match_name ext name = None
      <-> forall b d,
            name = b ++ DASH :: d ++ ext -> forallb is_digit d = true ->
            no_line_terminator b = true -> d = []).
Proof.
  intros Hext. split; [intros b d; now apply match_name_spec|].
  split.
  - intros Hnone b d Hname Hdig Hb.
    destruct d as [|c d]; [reflexivity|].
    assert (match_name ext name = Some (b, c :: d)) as E
      by (apply match_name_spec; [exact Hext|now repeat split]).
    congruence.
  - intros Hno. destruct (match_name ext name) as [[b d]|] eqn:E; [|reflexivity].
    apply match_name_spec in E as (Hname & Hne & Hdig & Hb); [|exact Hext].
    now specialize (Hno b d Hname Hdig Hb).
Qed.

Lemma chunk_name_pattern_witness :
  match_name TXT (lit "a-1.txt-2.txt") = Some (lit "a-1.txt", lit "2")
  /\ match_name TXT (lit "a-.txt") = None.
Proof.
  destruct (chunk_name_pattern TXT (lit "a-1.txt-2.txt") eq_refl) as [H _].
  split; [|reflexivity].
  apply H. now repeat split.
Defined.

(** X6. Chunk numbers survive the file names: the decimal text that the
    programs print for a chunk number is a non-empty run of digits, the
    stitch programs parse it back to the same number, and two numbers
    never print the same. *)
Theorem chunk_number_round_trip (n : nat) :
  index_key n <> []
  /\ forallb is_digit (index_key n) = true
  /\ parseInt (index_key n) = N.of_nat n
  /\ forall m, index_key m = index_key n -> m = n.
Proof.
  destruct (index_key_digits n) as [Hne Hdig].
  split; [exact Hne|]. split; [exact Hdig|]. split; [apply parseInt_index_key|].
  intros m. apply index_key_inj.
Qed.

(** X7. From the character splitter to the re-indexer: for a stitched file
    [<stem>.txt] the splitter writes chunk [k] as [<stem>-<k>.txt], the
    cleaning driver turns that name into [<stem>-<k>.json], and the
    re-indexer reads this name back as the group [<stem>] and the number
    [k]. *)
Theorem split_names_reindexed (stem : jsstring) (k : nat) :
  stem <> [] -> no_line_terminator stem = true ->
  let baseNameWithoutExt := path_parse_name (stem ++ TXT) in
  let cleaned := Finetune.outputFileName (chunk_file_name baseNameWithoutExt k) in
  baseNameWithoutExt = stem
  /\ cleaned = stem ++ lit "-" ++ index_key k ++ lit ".json"
  /\ match_name (lit ".json") cleaned = Some (stem, index_key k)
  /\ parseInt (index_key k) = N.of_nat k.
Proof.
  intros Hstem Hno base cleaned.
  assert (Hbase : base = stem) by (now apply path_parse_name_txt).
  assert (Hcleaned : cleaned = stem ++ lit "-" ++ index_key k ++ lit ".json").
  { unfold cleaned, Finetune.outputFileName. rewrite chunk_file_name_stem, Hbase.
    now rewrite <- !app_assoc. }
  split; [exact Hbase|]. split; [exact Hcleaned|]. split; [|apply parseInt_index_key].
  rewrite Hcleaned. now apply match_name_numbered.
Qed.

Lemma split_names_reindexed_witness :
  match_name (lit ".json")
    (Finetune.outputFileName
       (chunk_file_name (path_parse_name (lit "doc.pdf" ++ TXT)) 12))
  = Some (lit "doc.pdf", lit "12").
Proof.
  refine (proj1 (proj2 (proj2
            (split_names_reindexed (lit "doc.pdf") 12 _ eq_refl)))).
  discriminate.
Defined.

(** * The chunking program *)

Module CleanseFacts.
Import ChunkUtils Overlap ChunkFacts Cleanse CleanseSpec.

(** No chunk has more tokens than the chunk size and the two markers. *)
Lemma countTokens_chunk_bound (text : jsstring) (chunkSize overlap : Z) (fuel : nat)
    (chunks : list jsstring) (i : nat) (c : jsstring) :
  (0 < chunkSize)%Z -> (0 <= overlap < chunkSize)%Z ->
  (length (tokenize text) < fuel)%nat ->
  splitIntoChunks fuel text chunkSize overlap = Some chunks ->
  chunks !! i = Some c ->
  (Z.of_nat (countTokens c) <= chunkSize + 2)%Z.
Proof.
  intros Hcs Hov Hfuel Hrun Hc.
  destruct (splitIntoChunks_spec text chunkSize overlap fuel Hcs Hov Hfuel)
    as (chunks' & Hrun' & _ & _ & Hshape).
  rewrite Hrun in Hrun'. injection Hrun' as <-.
  pose proof (tokenize_is_token text) as Htok.
  set (toks := tokenize text) in *.
  set (cs := Z.to_nat chunkSize). set (ov := Z.to_nat overlap).
  assert (Ecs : chunkSize = Z.of_nat cs) by lia.
  assert (Eov : overlap = Z.of_nat ov) by lia.
  destruct (Hshape i c Hc) as [Hceq Hlen].
  set (w := window toks chunkSize overlap i) in *.
  assert (Hwtok : Forall is_token w).
  { unfold w. rewrite Ecs, Eov, window_nat by lia. now apply Forall_firstn_skipn. }
  assert (Hwlen : (length w <= cs)%nat).
  { unfold w. rewrite Ecs, Eov, window_nat by lia.
    rewrite length_firstn, length_skipn. lia. }
  destruct i as [|i].
  - rewrite Hceq. unfold chunk_at. fold w. cbn [Z.of_nat Z.mul].
    rewrite render_first. unfold countTokens. rewrite tokenize_join by assumption. lia.
  - specialize (Hlen ltac:(lia)).
    rewrite Hceq. unfold chunk_at. fold w.
    rewrite Ecs, Eov, of_nat_start by lia.
    unfold countTokens. rewrite tokenize_render_marked; [|nia|lia|exact Hwtok].
    cbn [length]. rewrite length_app. cbn [length].
    rewrite length_firstn, length_skipn. lia.
Qed.

(** [main] calls the chunker within its contract and with enough fuel. *)
Lemma chunks_of_content_spec (content : jsstring) :
  exists chunks,
    chunks_of_content content = Some chunks
    /\ reconstruct 200 chunks = tokenize content
    /\ forall i c, chunks !! i = Some c -> (countTokens c <= 1502)%nat.
Proof.
  unfold chunks_of_content.
  destruct (splitIntoChunks_spec content 1500 200 (S (length (tokenize content))))
    as (chunks & Hrun & Hrec & _); [lia..|].
  exists chunks. split; [exact Hrun|]. split; [exact Hrec|].
  intros i c Hc.
  pose proof (countTokens_chunk_bound content 1500 200
                (S (length (tokenize content))) chunks i c
                ltac:(lia) ltac:(lia) ltac:(lia) Hrun Hc). lia.
Qed.

Lemma no_line_terminator_strip_txt (s : jsstring) :
  no_line_terminator s = true -> no_line_terminator (strip_txt s) = true.
Proof.
  intros H. unfold strip_txt. destruct (endsWith _ _); [|exact H].
  now apply no_line_terminator_firstn.
Qed.

(** X8. What [main] calls a chunk file is what the stitcher looks for: the
    name of chunk [k] of an entry without line terminator in its name
    matches the stitcher's pattern, with the chunk number [k] and, as
    the group, the file name without its [.txt] for a text and the whole
    file name for a PDF.  An entry of another type gets no name. *)
Theorem cleanse_chunk_names (filename type : jsstring) (k : nat) :
  no_line_terminator filename = true ->
  (is_text type || is_pdf type = true ->
   exists name,
     outputFileName filename type k = Some name
     /\ match_name TXT name = Some (baseName filename type, index_key k)
     /\ parseInt (index_key k) = N.of_nat k)
  /\ (is_text type || is_pdf type = false ->
      outputFileName filename type k = None /\ filePath filename type = None).
Proof.
  intros Hno. unfold outputFileName, filePath, baseName.
  destruct (is_text type); [|destruct (is_pdf type)]; cbn [orb];
    (split; intros Hf; try discriminate).
  - eexists. split; [reflexivity|]. split; [|apply parseInt_index_key].
    apply (match_name_numbered TXT); [reflexivity|].
    now apply no_line_terminator_strip_txt.
  - eexists. split; [reflexivity|]. split; [|apply parseInt_index_key].
    now apply (match_name_numbered TXT).
  - now split.
Qed.

Lemma cleanse_chunk_names_witness :
  no_line_terminator (lit "notes.TXT") = true
  /\ outputFileName (lit "notes.TXT") (lit "text") 3 = Some (lit "notes-3.txt")
  /\ match_name TXT (lit "notes-3.txt") = Some (lit "notes", lit "3")
  /\ outputFileName (lit "doc.pdf") (lit "pdf") 3 = Some (lit "doc.pdf-3.txt")
  /\ outputFileName (lit "pic.png") (lit "image") 3 = None.
Proof.
  assert (H : no_line_terminator (lit "notes.TXT") = true) by reflexivity.
  destruct (cleanse_chunk_names (lit "notes.TXT") (lit "text") 3 H) as [H1 _].
  destruct (H1 eq_refl) as (name & Hname & Hmatch & _).
  vm_compute in Hname. injection Hname as <-.
  split; [exact H|]. split; [reflexivity|]. split; [exact Hmatch|].
  split; reflexivity.
Defined.

Lemma save_chunks_from_entry (w : world) (fileMap : list (jsstring * jsstring))
    (filename type : jsstring) (path : source_path) (content : jsstring)
    (chunks : list jsstring) :
  Cleanse.fileMap w = Some fileMap ->
  In (filename, type) fileMap ->
  filePath filename type = Some path ->
  readFile w path = Some content ->
  chunks_of_content content = Some chunks ->
  forall rest st i0,
    (forall k c, rest !! k = Some c -> chunks !! (i0 + k)%nat = Some c) ->
    (forall name chunk, written st !! name = Some chunk -> from_entry w name chunk) ->
    forall name chunk,
      written (save_chunks w filename type st i0 rest) !! name = Some chunk ->
      from_entry w name chunk.
Proof.
  intros Hmap Hin Hpath Hread Hsplit.
  induction rest as [|c rest IH]; intros st i0 Hrest Hst; [exact Hst|].
  cbn [save_chunks]. apply IH.
  - intros k c' Hk. replace (S i0 + k)%nat with (i0 + S k)%nat by lia. now apply Hrest.
  - intros name chunk.
    destruct (outputFileName filename type (i0 + 1)) as [out|] eqn:Hout; [|apply Hst].
    destruct (writeFile_ok w out); cbn [written]; [|apply Hst].
    destruct (decide (name = out)) as [->|Hne].
    + rewrite lookup_insert_eq. intros [= <-].
      exists fileMap, filename, type, path, content, chunks, i0.
      repeat (split; [assumption|]). split; [|exact Hout].
      rewrite <- (Nat.add_0_r i0). now apply Hrest.
    + rewrite lookup_insert_ne by congruence. apply Hst.
Qed.

Lemma In_slice {A} (l : list A) (a b : Z) (x : A) : In x (slice l a b) -> In x l.
Proof.
  unfold slice. intros H%list_elem_of_In.
  apply list_elem_of_In. eapply subseteq_drop, subseteq_take, H.
Qed.

Lemma process_entries_from_entry (w : world) (fileMap : list (jsstring * jsstring)) :
  Cleanse.fileMap w = Some fileMap ->
  forall entries st,
    (forall e, In e entries -> In e fileMap) ->
    (forall name chunk, written st !! name = Some chunk -> from_entry w name chunk) ->
    forall name chunk,
      written (fold_left (process_entry w) entries st) !! name = Some chunk ->
      from_entry w name chunk.
Proof.
  intros Hmap. induction entries as [|[filename type] entries IH]; intros st Hsub Hst;
    [exact Hst|].
  cbn [fold_left]. apply IH; [intros g Hg; apply Hsub; now right|].
  unfold process_entry.
  destruct (filePath filename type) as [path|] eqn:Hpath; [|exact Hst].
  destruct (readFile w path) as [content|] eqn:Hread; [|exact Hst].
  destruct (chunks_of_content content) as [chunks|] eqn:Hsplit; [|exact Hst].
  apply (save_chunks_from_entry w fileMap filename type path content chunks Hmap
           (Hsub _ (or_introl eq_refl)) Hpath Hread Hsplit chunks st 0); [|exact Hst].
  intros k c Hk. exact Hk.
Qed.

(** X9. The run writes nothing but chunks: every file in the [prepared]
    folder is a chunk of the content of a text or PDF entry of
    [files.json], under the name of that entry and its chunk number, and
    it has at most 1502 tokens. *)
Theorem cleanse_main_written (w : world) (name chunk : jsstring) :
  written (main w) !! name = Some chunk ->
  from_entry w name chunk /\ (countTokens chunk <= 1502)%nat.
Proof.
  intros Hw.
  assert (Hfrom : from_entry w name chunk).
  { revert Hw. unfold main. destruct (Cleanse.fileMap w) as [fileMap|] eqn:Hmap;
      cbn [written]; [|intros Hw; now rewrite lookup_empty in Hw].
    apply (process_entries_from_entry w fileMap Hmap).
    - intros e. apply In_slice.
    - cbn [written]. intros n c Hc. now rewrite lookup_empty in Hc. }
  split; [exact Hfrom|].
  destruct Hfrom as (fm & filename & type & path & content & chunks & i
                     & _ & _ & _ & _ & Hsplit & Hc & _).
  destruct (chunks_of_content_spec content) as (chunks' & Hsplit' & _ & Hbound).
  rewrite Hsplit in Hsplit'. injection Hsplit' as <-.
  now apply (Hbound i).
Qed.

Lemma cleanse_main_written_witness :
  written (main MoreExamples.cleanse_world) !! lit "doc.pdf-1.txt" = Some (lit "page one")
  /\ from_entry MoreExamples.cleanse_world (lit "doc.pdf-1.txt") (lit "page one")
  /\ (countTokens (lit "page one") <= 1502)%nat.
Proof.
  assert (H : written (main MoreExamples.cleanse_world) !! lit "doc.pdf-1.txt"
              = Some (lit "page one")) by (vm_compute; reflexivity).
  exact (conj H (cleanse_main_written MoreExamples.cleanse_world _ _ H)).
Defined.

Lemma outputFileName_chunk_file_name (filename type : jsstring) (k : nat) (name : jsstring) :
  outputFileName filename type k = Some name ->
  name = chunk_file_name (baseName filename type) k.
Proof.
  unfold outputFileName, baseName, chunk_file_name.
  destruct (is_text type); [now intros [= <-]|].
  destruct (is_pdf type); [now intros [= <-]|discriminate].
Qed.

Lemma cleanse_save_chunks_other (w : world) (filename type name : jsstring)
    (chunks : list jsstring) :
  forall st i0,
    (forall i, (i0 <= i)%nat -> outputFileName filename type (i + 1) <> Some name) ->
    written (save_chunks w filename type st i0 chunks) !! name = written st !! name.
Proof.
  induction chunks as [|chunk rest IH]; intros st i0 Hname; [reflexivity|].
  cbn [save_chunks]. rewrite IH by (intros i Hi; apply Hname; lia).
  pose proof (Hname i0 ltac:(lia)) as Hne.
  destruct (outputFileName filename type (i0 + 1)) as [out|]; [|reflexivity].
  destruct (writeFile_ok w out); cbn [written]; [|reflexivity].
  apply lookup_insert_ne. congruence.
Qed.

Lemma cleanse_save_chunks_saved (w : world) (filename type : jsstring)
    (chunks : list jsstring) :
  forall st i0 k c name,
    chunks !! k = Some c ->
    outputFileName filename type (i0 + k + 1) = Some name ->
    writeFile_ok w name = true ->
    written (save_chunks w filename type st i0 chunks) !! name = Some c.
Proof.
  induction chunks as [|chunk rest IH]; intros st i0 k c name Hk Hname Hok;
    [discriminate|].
  cbn [save_chunks]. destruct k as [|k].
  - injection Hk as ->. rewrite Nat.add_0_r in Hname.
    rewrite cleanse_save_chunks_other.
    + rewrite Hname, Hok. cbn [written]. apply lookup_insert_eq.
    + intros i Hi E.
      apply outputFileName_chunk_file_name in E, Hname. rewrite Hname in E.
      apply SplitFacts.chunk_file_name_inj in E. lia.
  - replace (i0 + S k)%nat with (S i0 + k)%nat in Hname by lia.
    now apply (IH _ (S i0) k).
Qed.

(** X27. Every chunk of a readable entry whose write succeeds is in the
    [prepared] folder after the turn for that entry, under the name of
    the entry with the chunk number counted from 1; no chunk of the entry
    overwrites another. *)
Theorem cleanse_entry_saved (w : world) (st : state) (filename type : jsstring)
    (path : source_path) (content : jsstring) (chunks : list jsstring)
    (i : nat) (c name : jsstring) :
  filePath filename type = Some path ->
  readFile w path = Some content ->
  chunks_of_content content = Some chunks ->
  chunks !! i = Some c ->
  outputFileName filename type (i + 1) = Some name ->
  writeFile_ok w name = true ->
  written (process_entry w st (filename, type)) !! name = Some c.
Proof.
  intros Hpath Hread Hsplit Hc Hname Hok. unfold process_entry.
  rewrite Hpath, Hread, Hsplit.
  now apply (cleanse_save_chunks_saved w filename type chunks st 0 i c name).
Qed.

Lemma cleanse_entry_saved_witness :
  written (process_entry MoreExamples.cleanse_world {| written := ∅; console := [] |}
             (lit "notes.txt", lit "text")) !! lit "notes-1.txt"
  = Some (lit "some notes").
Proof.
  exact (cleanse_entry_saved MoreExamples.cleanse_world {| written := ∅; console := [] |}
           (lit "notes.txt") (lit "text") (InputText (lit "notes.txt"))
           (lit "some  notes") [lit "some notes"] 0 (lit "some notes")
           (lit "notes-1.txt") eq_refl eq_refl eq_refl eq_refl eq_refl eq_refl).
Defined.

Example cleanse_main_example :
  map_to_list (written (main MoreExamples.cleanse_world))
  = map_to_list ({[ lit "notes-1.txt" := lit "some notes";
                    lit "doc.pdf-1.txt" := lit "page one" ]} : gmap jsstring jsstring)
  /\ console (main MoreExamples.cleanse_world)
     = [WrittenLog 1 (lit "notes.txt") (lit "notes-1.txt") 2;
        WrittenLog 1 (lit "doc.pdf") (lit "doc.pdf-1.txt") 2;
        UnknownTypeWarning (lit "pic.png")].
Proof. split; vm_compute; reflexivity. Qed.

End CleanseFacts.

(** * More on the token chunker *)

Module ChunkMore.
Import ChunkUtils Overlap ChunkFacts.

Lemma ceil_div_step (d step : nat) :
  (0 < step)%nat -> (0 < d)%nat ->
  ceil_div d step = S (ceil_div (d - step) step).
Proof.
  intros Hstep Hd.
  pose proof (SplitFacts.ceil_div_lt d step) as HA.
  pose proof (SplitFacts.ceil_div_lt (d - step) step) as HB.
  set (A := ceil_div d step) in *. set (B := ceil_div (d - step) step) in *.
  apply Nat.le_antisymm.
  - destruct (Nat.le_gt_cases A (S B)) as [|Hgt]; [assumption|].
    apply (HA (S B) Hstep) in Hgt.
    assert (Hlt : (B * step < d - step)%nat) by lia.
    apply (HB B Hstep) in Hlt. lia.
  - destruct (Nat.le_gt_cases (S B) A) as [|Hgt]; [assumption|].
    destruct A as [|A'].
    + assert (H0 : (0 * step < d)%nat) by lia.
      apply (HA 0%nat Hstep) in H0. lia.
    + assert (Hlt : (A' < B)%nat) by lia.
      apply (HB A' Hstep) in Hlt.
      assert (Hlt' : (S A' * step < d)%nat) by lia.
      apply (HA (S A') Hstep) in Hlt'. lia.
Qed.

Lemma ceil_div_0 (step : nat) : (0 < step)%nat -> ceil_div 0 step = 0%nat.
Proof. intros H. unfold ceil_div. apply Nat.div_small. lia. Qed.

(** How many chunks the loop pushes from a start index inside the
    tokens. *)
Lemma chunk_loop_count (toks : list jsstring) (cs ov : nat) :
  (ov < cs)%nat ->
  forall fuel s chunks r,
    (s < length toks)%nat ->
    chunk_loop fuel toks (Z.of_nat cs) (Z.of_nat ov) (Z.of_nat s) chunks = Some r ->
    length r = (length chunks + S (ceil_div (length toks - (s + cs)) (cs - ov)))%nat.
Proof.
  intros Hov. induction fuel as [|fuel IH]; intros s chunks r Hs Hrun; [discriminate|].
  cbn [chunk_loop] in Hrun. set (n := length toks) in *.
  destruct (Z.ltb_spec (Z.of_nat s) (Z.of_nat n)); [|lia].
  destruct (Z.eqb_spec (Z.min (Z.of_nat s + Z.of_nat cs) (Z.of_nat n)) (Z.of_nat n))
    as [He|He].
  - injection Hrun as <-. rewrite length_app. cbn [length].
    replace (n - (s + cs))%nat with 0%nat by lia.
    rewrite ceil_div_0 by lia. lia.
  - replace (Z.min (Z.of_nat s + Z.of_nat cs) (Z.of_nat n) - Z.of_nat ov)%Z
      with (Z.of_nat (s + (cs - ov))) in Hrun by lia.
    apply IH in Hrun; [|fold n; lia]. fold n in Hrun.
    rewrite Hrun, length_app. cbn [length].
    rewrite (ceil_div_step (n - (s + cs)) (cs - ov)) by lia.
    replace (n - (s + (cs - ov) + cs))%nat with (n - (s + cs) - (cs - ov))%nat by lia.
    lia.
Qed.

(** X1. The number of chunks: none for a text without tokens, and otherwise
    one for the first [chunkSize] tokens and one more for every further
    [chunkSize - overlap] tokens or part of them. *)
Theorem chunk_count (text : jsstring) (chunkSize overlap : Z) (fuel : nat) :
  (0 < chunkSize)%Z -> (0 <= overlap < chunkSize)%Z ->
  (length (tokenize text) < fuel)%nat ->
  exists chunks,
    splitIntoChunks fuel text chunkSize overlap = Some chunks
    /\ length chunks
       = match tokenize text with
         | [] => 0%nat
         | _ :: _ =>
             S (ceil_div (length (tokenize text) - Z.to_nat chunkSize)
                  (Z.to_nat (chunkSize - overlap)))
         end.
Proof.
  intros Hcs Hov Hfuel.
  destruct (splitIntoChunks_spec text chunkSize overlap fuel Hcs Hov Hfuel)
    as (chunks & Hrun & _ & Hnil & _).
  exists chunks. split; [exact Hrun|].
  destruct (tokenize text) as [|t toks] eqn:Etoks.
  - now rewrite (proj2 Hnil eq_refl).
  - unfold splitIntoChunks in Hrun. rewrite Etoks in Hrun.
    set (cs := Z.to_nat chunkSize). set (ov := Z.to_nat overlap).
    replace chunkSize with (Z.of_nat cs) in Hrun by lia.
    replace overlap with (Z.of_nat ov) in Hrun by lia.
    change 0%Z with (Z.of_nat 0) in Hrun.
    apply chunk_loop_count in Hrun; [|lia|cbn; lia].
    rewrite Hrun. cbn [length Nat.add].
    replace (Z.to_nat (chunkSize - overlap)) with (cs - ov)%nat by lia.
    reflexivity.
Qed.

Lemma chunk_count_witness :
  (0 < 10)%Z /\ (0 <= 3 < 10)%Z /\ (length (tokenize Examples.t25) < 26)%nat
  /\ exists chunks,
       splitIntoChunks 26 Examples.t25 10 3 = Some chunks /\ length chunks = 4%nat.
Proof.
  assert (H1 : (0 < 10)%Z) by lia.
  assert (H2 : (0 <= 3 < 10)%Z) by lia.
  assert (H3 : (length (tokenize Examples.t25) < 26)%nat) by (vm_compute; lia).
  exact (conj H1 (conj H2 (conj H3 (chunk_count Examples.t25 10 3 26 H1 H2 H3)))).
Defined.

(** X2. Two consecutive chunks: the window of the earlier one is full, and
    the tokens between the markers of the later one are the last
    [overlap] tokens of that window. *)
Theorem overlap_shared (text : jsstring) (chunkSize overlap : Z) (fuel : nat)
    (chunks : list jsstring) (i : nat) (c c' : jsstring) :
  (0 < chunkSize)%Z -> (0 <= overlap < chunkSize)%Z ->
  (length (tokenize text) < fuel)%nat ->
  splitIntoChunks fuel text chunkSize overlap = Some chunks ->
  chunks !! i = Some c -> chunks !! S i = Some c' ->
  let w := window (tokenize text) chunkSize overlap i in
  let w' := window (tokenize text) chunkSize overlap (S i) in
  Z.of_nat (length w) = chunkSize
  /\ tokenize c'
     = OVERLAP_START :: skipn (Z.to_nat (chunkSize - overlap)) w
         ++ OVERLAP_END :: skipn (Z.to_nat overlap) w'.
Proof.
  intros Hcs Hov Hfuel Hrun Hc Hc' w w'.
  destruct (splitIntoChunks_spec text chunkSize overlap fuel Hcs Hov Hfuel)
    as (chunks' & Hrun' & _ & _ & Hshape).
  rewrite Hrun in Hrun'. injection Hrun' as <-.
  pose proof (tokenize_is_token text) as Htok.
  set (toks := tokenize text) in *.
  set (cs := Z.to_nat chunkSize). set (ov := Z.to_nat overlap).
  assert (Ecs : chunkSize = Z.of_nat cs) by lia.
  assert (Eov : overlap = Z.of_nat ov) by lia.
  destruct (Hshape (S i) c' Hc') as [Hceq Hlen]. specialize (Hlen ltac:(lia)).
  fold w' in Hlen.
  assert (Hw' : w' = firstn (Nat.min (S i * (cs - ov) + cs) (length toks)
                             - S i * (cs - ov))
                       (skipn (S i * (cs - ov)) toks)
                 /\ (S i * (cs - ov) + ov < length toks)%nat).
  { assert (E : w' = firstn (Nat.min (S i * (cs - ov) + cs) (length toks)
                             - Nat.min (S i * (cs - ov)) (length toks))
                       (skipn (Nat.min (S i * (cs - ov)) (length toks)) toks))
      by (unfold w'; rewrite Ecs, Eov; apply window_nat; lia).
    assert (Hin : (S i * (cs - ov) + ov < length toks)%nat).
    { rewrite E, length_firstn, length_skipn in Hlen. lia. }
    split; [|exact Hin]. rewrite E. now rewrite (Nat.min_l (S i * (cs - ov))) by lia. }
  destruct Hw' as [Ew' Hin].
  assert (Ew : w = firstn cs (skipn (i * (cs - ov)) toks)).
  { unfold w. rewrite Ecs, Eov, window_nat by lia.
    rewrite (Nat.min_l (i * (cs - ov))), (Nat.min_l (i * (cs - ov) + cs)) by lia.
    f_equal. lia. }
  split.
  - rewrite Ew, length_firstn, length_skipn. lia.
  - assert (Hmarked : tokenize c'
                      = OVERLAP_START :: firstn ov w' ++ OVERLAP_END :: skipn ov w').
    { rewrite Hceq. unfold chunk_at. fold w'.
      rewrite Ecs, Eov, of_nat_start by lia.
      apply tokenize_render_marked; [nia|lia|].
      rewrite Ew'. now apply Forall_firstn_skipn. }
    rewrite Hmarked. do 2 f_equal.
    replace (Z.to_nat (chunkSize - overlap)) with (cs - ov)%nat by lia.
    rewrite Ew, Ew', skipn_firstn_comm, skipn_skipn, firstn_firstn.
    replace (cs - ov + i * (cs - ov))%nat with (S i * (cs - ov))%nat by lia.
    f_equal. lia.
Qed.

Lemma overlap_shared_witness :
  (0 < 10)%Z /\ (0 <= 3 < 10)%Z /\ (length (tokenize Examples.t25) < 26)%nat
  /\ tokenize (lit "<OVERLAP_START> t8 t9 t10 <OVERLAP_END> t11 t12 t13 t14 t15 t16 t17")
     = OVERLAP_START :: [lit "t8"; lit "t9"; lit "t10"]
         ++ OVERLAP_END :: [lit "t11"; lit "t12"; lit "t13"; lit "t14"; lit "t15";
                            lit "t16"; lit "t17"].
Proof.
  assert (H1 : (0 < 10)%Z) by lia.
  assert (H2 : (0 <= 3 < 10)%Z) by lia.
  assert (H3 : (length (tokenize Examples.t25) < 26)%nat) by (vm_compute; lia).
  refine (conj H1 (conj H2 (conj H3
            (proj2 (overlap_shared Examples.t25 10 3 26 _ 0 _ _ H1 H2 H3
                      eq_refl eq_refl eq_refl))))).
Defined.

Lemma tokenize_space (c : N) (s : jsstring) :
  is_space c = true -> tokenize (c :: s) = tokenize s.
Proof.
  intros Hc. change (c :: s) with ([] ++ c :: s).
  now rewrite tokenize_app_space, tokenize_nil.
Qed.

Lemma tokenize_nonspace (c : N) (s : jsstring) :
  is_space c = false -> tokenize (c :: s) <> [].
Proof.
  intros Hc. rewrite tokenize_pieces. cbn [pieces]. rewrite Hc.
  destruct (pieces s); discriminate.
Qed.

Lemma tokenize_blank (text : jsstring) :
  tokenize text = [] <-> forallb is_space text = true.
Proof.
  induction text as [|c s IH]; [now split|]. cbn [forallb].
  destruct (is_space c) eqn:Hc.
  - now rewrite tokenize_space.
  - split; [|discriminate]. intros E. now apply tokenize_nonspace in E.
Qed.

(** X3. A text has no tokens exactly when it is empty or all whitespace, and
    then the chunker returns no chunk at all, whatever the chunk size
    and the overlap. *)
Theorem blank_text_no_chunk (text : jsstring) :
  (countTokens text = 0%nat <-> forallb is_space text = true)
  /\ (forallb is_space text = true ->
      forall fuel chunkSize overlap,
        splitIntoChunks (S fuel) text chunkSize overlap = Some []).
Proof.
  split.
  - unfold countTokens. rewrite <- tokenize_blank.
    split; [apply length_zero_iff_nil|now intros ->].
  - intros Hblank%tokenize_blank fuel chunkSize overlap.
    unfold splitIntoChunks. now rewrite Hblank.
Qed.

(** X4. [countTokens] adds up over a whitespace character, and does not
    change when the tokens of a text are joined by single spaces. *)
Theorem countTokens_additive (a b : jsstring) (c : N) :
  is_space c = true ->
  countTokens (a ++ c :: b) = (countTokens a + countTokens b)%nat
  /\ tokenize (join SP (tokenize a)) = tokenize a.
Proof.
  intros Hc. unfold countTokens. split.
  - now rewrite tokenize_app_space, length_app.
  - apply tokenize_join, tokenize_is_token.
Qed.

Lemma countTokens_additive_witness :
  is_space 0x0a%N = true
  /\ countTokens (lit "one two" ++ 0x0a%N :: lit " three") = 3%nat.
Proof.
  assert (H : is_space 0x0a%N = true) by reflexivity.
  exact (conj H (proj1 (countTokens_additive (lit "one two") (lit " three") _ H))).
Defined.

Lemma join_cons (x : jsstring) (l : list jsstring) :
  l <> [] -> join SP (x :: l) = x ++ SP ++ join SP l.
Proof. destruct l; [congruence|reflexivity]. Qed.

Lemma join_app (a b : list jsstring) :
  a <> [] -> b <> [] -> join SP (a ++ b) = join SP a ++ SP ++ join SP b.
Proof.
  intros Ha Hb. induction a as [|x a IH]; [congruence|].
  destruct a as [|y a].
  - cbn [app]. now rewrite join_cons.
  - change ((x :: y :: a) ++ b) with (x :: (y :: a) ++ b).
    rewrite !join_cons by discriminate. rewrite IH by discriminate.
    now rewrite <- !app_assoc.
Qed.

Lemma render_marked_text (s ov : nat) (w : list jsstring) :
  (0 < s)%nat -> (0 < ov < length w)%nat ->
  render (Z.of_nat s) (Z.of_nat ov) w
  = join SP (OVERLAP_START :: firstn ov w ++ OVERLAP_END :: skipn ov w).
Proof.
  intros Hs Hov. unfold render.
  destruct (Z.ltb_spec 0 (Z.of_nat s)); [|lia].
  destruct (Z.ltb_spec (Z.of_nat ov) (Z.of_nat (length w))); [|lia].
  cbn [andb]. rewrite slice_prefix, slice_from_nat by lia.
  assert (Hfirst : firstn ov w <> []).
  { intros E. apply (f_equal (@length jsstring)) in E.
    rewrite length_firstn in E. cbn in E. lia. }
  assert (Hrest : skipn ov w <> []).
  { intros E. apply (f_equal (@length jsstring)) in E.
    rewrite length_skipn in E. cbn in E. lia. }
  rewrite join_cons by (destruct (firstn ov w); [congruence|discriminate]).
  rewrite join_app by (assumption || discriminate).
  rewrite join_cons by assumption.
  reflexivity.
Qed.

(** X26. With a positive overlap every chunk is single-spaced: it is its own
    tokens joined by single spaces, so it is not empty, starts and ends
    with a token and keeps no line break or other whitespace of the
    text. *)
Theorem chunks_single_spaced (text : jsstring) (chunkSize overlap : Z) (fuel : nat)
    (chunks : list jsstring) (i : nat) (c : jsstring) :
  (0 < overlap < chunkSize)%Z ->
  (length (tokenize text) < fuel)%nat ->
  splitIntoChunks fuel text chunkSize overlap = Some chunks ->
  chunks !! i = Some c ->
  c = join SP (tokenize c) /\ tokenize c <> [].
Proof.
  intros Hov Hfuel Hrun Hc.
  destruct (splitIntoChunks_spec text chunkSize overlap fuel ltac:(lia) ltac:(lia) Hfuel)
    as (chunks' & Hrun' & _ & Hnil & Hshape).
  rewrite Hrun in Hrun'. injection Hrun' as <-.
  pose proof (tokenize_is_token text) as Htok.
  set (toks := tokenize text) in *.
  set (cs := Z.to_nat chunkSize). set (ov := Z.to_nat overlap).
  assert (Ecs : chunkSize = Z.of_nat cs) by lia.
  assert (Eov : overlap = Z.of_nat ov) by lia.
  destruct (Hshape i c Hc) as [Hceq Hlen].
  set (w := window toks chunkSize overlap i) in *.
  assert (Hwtok : Forall is_token w).
  { unfold w. rewrite Ecs, Eov, window_nat by lia. now apply Forall_firstn_skipn. }
  destruct i as [|i].
  - assert (Hw : w <> []).
    { assert (Htoks : toks <> []).
      { intros E. apply Hnil in E. subst chunks. discriminate. }
      unfold w. rewrite Ecs, Eov, window_nat by lia. cbn [Nat.mul Nat.add].
      rewrite Nat.min_0_l, Nat.sub_0_r. cbn [skipn].
      destruct toks as [|t toks']; [congruence|].
      destruct (Nat.min cs (length (t :: toks'))) eqn:E; [cbn in E; lia|discriminate]. }
    assert (Hc0 : c = join SP w).
    { rewrite Hceq. unfold chunk_at. fold w. cbn [Z.of_nat Z.mul]. apply render_first. }
    rewrite Hc0, tokenize_join by assumption. now split.
  - specialize (Hlen ltac:(lia)).
    assert (Hs : (0 < S i * (cs - ov))%nat) by nia.
    assert (Hc1 : c = render (Z.of_nat (S i * (cs - ov))) (Z.of_nat ov) w).
    { rewrite Hceq. unfold chunk_at. fold w. now rewrite Ecs, Eov, of_nat_start by lia. }
    rewrite Hc1 at 2 3.
    rewrite tokenize_render_marked by (assumption || lia).
    split; [|discriminate].
    rewrite Hc1. apply render_marked_text; lia.
Qed.

Lemma chunks_single_spaced_witness :
  (0 < 3 < 10)%Z /\ (length (tokenize Examples.t25) < 26)%nat
  /\ lit "<OVERLAP_START> t22 t23 t24 <OVERLAP_END> t25"
     = join SP (tokenize (lit "<OVERLAP_START> t22 t23 t24 <OVERLAP_END> t25")).
Proof.
  assert (H1 : (0 < 3 < 10)%Z) by lia.
  assert (H2 : (length (tokenize Examples.t25) < 26)%nat) by (vm_compute; lia).
  refine (conj H1 (conj H2
            (proj1 (chunks_single_spaced Examples.t25 10 3 26 _ 3 _ H1 H2
                      eq_refl eq_refl)))).
Defined.

(** Without overlap the markers are still written, around nothing: the
    chunk then has two spaces between them. *)
Example zero_overlap_double_space :
  splitIntoChunks 3 (lit "a b c") 2 0
  = Some [lit "a b"; lit "<OVERLAP_START>  <OVERLAP_END> c"].
Proof. reflexivity. Qed.

End ChunkMore.

(** * Grouping *)

Section GroupFacts.
Context {A : Type} (classify : jsstring -> option (jsstring * A)).

Lemma lookup_group_push (b b' : jsstring) (i : A) (groups : list (jsstring * list A)) :
  lookup_group b (push_group b' i groups)
  = if bool_decide (b' = b) then lookup_group b groups ++ [i] else lookup_group b groups.
Proof.
  induction groups as [|[k infos] rest IH]; cbn [push_group lookup_group].
  - now destruct (bool_decide (b' = b)).
  - destruct (decide (k = b')) as [->|Hk].
    + rewrite bool_decide_eq_true_2 by reflexivity. cbn [lookup_group].
      now destruct (bool_decide (b' = b)).
    + rewrite (bool_decide_eq_false_2 (k = b')) by assumption. cbn [lookup_group].
      rewrite IH. destruct (decide (k = b)) as [->|Hkb].
      * rewrite (bool_decide_eq_true_2 (b = b)) by reflexivity.
        rewrite (bool_decide_eq_false_2 (b' = b)) by congruence. reflexivity.
      * now rewrite (bool_decide_eq_false_2 (k = b)) by assumption.
Qed.

Lemma push_group_keys (b : jsstring) (i : A) (groups : list (jsstring * list A)) :
  List.map fst (push_group b i groups)
  = if bool_decide (b ∈ List.map fst groups) then List.map fst groups
    else List.map fst groups ++ [b].
Proof.
  induction groups as [|[k infos] rest IH]; cbn [push_group List.map fst app].
  - now rewrite bool_decide_eq_false_2 by (intros H; inversion H).
  - destruct (decide (k = b)) as [->|Hk].
    + rewrite (bool_decide_eq_true_2 (b = b)) by reflexivity.
      now rewrite bool_decide_eq_true_2 by (now left).
    + rewrite (bool_decide_eq_false_2 (k = b)) by assumption.
      cbn [List.map fst]. rewrite IH.
      destruct (decide (b ∈ List.map fst rest)) as [Hin|Hin].
      * rewrite !bool_decide_eq_true_2; [reflexivity|now right|assumption].
      * rewrite !bool_decide_eq_false_2; [reflexivity| |assumption].
        intros H. inversion H; subst; tauto.
Qed.

Lemma push_group_NoDup (b : jsstring) (i : A) (groups : list (jsstring * list A)) :
  List.NoDup (List.map fst groups) -> List.NoDup (List.map fst (push_group b i groups)).
Proof.
  intros Hnd. rewrite push_group_keys.
  destruct (decide (b ∈ List.map fst groups)) as [Hin|Hin].
  - now rewrite bool_decide_eq_true_2.
  - rewrite bool_decide_eq_false_2 by assumption.
    apply NoDup_ListNoDup, NoDup_app.
    split; [now apply NoDup_ListNoDup|]. split.
    + intros x Hx Hb. apply list_elem_of_singleton in Hb as ->. contradiction.
    + apply NoDup_singleton.
Qed.

Lemma lookup_group_In (b : jsstring) (infos : list A) (groups : list (jsstring * list A)) :
  List.NoDup (List.map fst groups) -> In (b, infos) groups ->
  lookup_group b groups = infos.
Proof.
  induction groups as [|[k infos0] rest IH]; intros Hnd Hin; [destruct Hin|].
  cbn [List.map fst] in Hnd. inversion Hnd as [|? ? Hk Hnd']; subst.
  cbn [lookup_group]. destruct Hin as [[= -> ->]|Hin].
  - now rewrite bool_decide_eq_true_2.
  - rewrite bool_decide_eq_false_2; [now apply IH|].
    intros ->. apply Hk. now apply (in_map fst) in Hin.
Qed.

Lemma lookup_group_nonempty (b : jsstring) (groups : list (jsstring * list A)) :
  lookup_group b groups <> [] -> In (b, lookup_group b groups) groups.
Proof.
  induction groups as [|[k infos0] rest IH]; cbn [lookup_group]; [congruence|].
  destruct (decide (k = b)) as [->|Hk].
  - rewrite bool_decide_eq_true_2 by reflexivity. now left.
  - rewrite bool_decide_eq_false_2 by assumption. intros H. right. now apply IH.
Qed.

Lemma push_group_nonempty (b : jsstring) (i : A) (groups : list (jsstring * list A)) :
  Forall (fun g => snd g <> []) groups ->
  Forall (fun g => snd g <> []) (push_group b i groups).
Proof.
  induction 1 as [|[k infos0] rest Hk Hrest IH]; cbn [push_group].
  - repeat constructor. discriminate.
  - destruct (bool_decide (k = b)); constructor; try assumption.
    cbn [snd]. now destruct infos0.
Qed.

(** After the grouping loop the map has one key for every group with a
    member, and under it the members in the order of the listing. *)
Lemma fold_group_step (fileNames : list jsstring) :
  forall groups,
    List.NoDup (List.map fst groups) -> Forall (fun g => snd g <> []) groups ->
    let groups' := fold_left (group_step classify) fileNames groups in
    List.NoDup (List.map fst groups')
    /\ Forall (fun g => snd g <> []) groups'
    /\ forall b, lookup_group b groups'
                 = lookup_group b groups ++ members_of classify fileNames b.
Proof.
  induction fileNames as [|file fileNames IH]; intros groups Hnd Hne; cbn zeta.
  - split; [assumption|]. split; [assumption|]. intros b. now rewrite app_nil_r.
  - cbn [fold_left].
    assert (Hnd' : List.NoDup (List.map fst (group_step classify groups file))).
    { unfold group_step. destruct (classify file) as [[b i]|]; [|assumption].
      now apply push_group_NoDup. }
    assert (Hne' : Forall (fun g => snd g <> []) (group_step classify groups file)).
    { unfold group_step. destruct (classify file) as [[b i]|]; [|assumption].
      now apply push_group_nonempty. }
    destruct (IH _ Hnd' Hne') as (H1 & H2 & H3).
    split; [assumption|]. split; [assumption|].
    intros b. rewrite H3. unfold members_of at 2. cbn [flat_map].
    fold (members_of classify fileNames b). rewrite app_assoc. f_equal.
    unfold group_step. destruct (classify file) as [[b' i]|]; [|now rewrite app_nil_r].
    rewrite lookup_group_push. destruct (bool_decide (b' = b)); [reflexivity|].
    now rewrite app_nil_r.
Qed.

Lemma groups_of_listing (fileNames : list jsstring) :
  let groups := fold_left (group_step classify) fileNames [] in
  List.NoDup (List.map fst groups)
  /\ (forall b infos, In (b, infos) groups <->
        infos <> [] /\ infos = members_of classify fileNames b).
Proof.
  destruct (fold_group_step fileNames [] (List.NoDup_nil _) (List.Forall_nil _))
    as (Hnd & Hne & Hlook).
  cbn zeta in *. split; [assumption|]. intros b infos. split.
  - intros Hin. split.
    + now apply (proj1 (List.Forall_forall _ _) Hne (b, infos)).
    + rewrite <- (lookup_group_In b infos _ Hnd Hin). apply Hlook.
  - intros [Hne' ->]. rewrite <- (app_nil_l (members_of _ _ _)) in *.
    change (@nil A) with (lookup_group b (@nil (jsstring * list A))) in *.
    rewrite <- Hlook in *. now apply lookup_group_nonempty.
Qed.

End GroupFacts.

(** * More on the stitcher *)

Module StichMore.
Import Stich StichSpec.

Lemma group_file_step (files : list jsstring) :
  forall groups log,
    fst (fold_left group_file files (groups, log))
    = fold_left (group_step info_of) files groups.
Proof.
  induction files as [|file files IH]; intros groups log; [reflexivity|].
  cbn [fold_left]. unfold group_file at 2, group_step at 2, info_of.
  destruct (match_name TXT file) as [[b d]|]; apply IH.
Qed.

Lemma process_group_written (w : world) (st : state) (baseName : jsstring)
    (files : list ChunkInfo) :
  let name := outputFileName baseName in
  let text := group_text w baseName files in
  written (process_group w st (baseName, files))
  = (if writeFile_ok w name then <[name := text]> (written st) else written st)
  /\ stitchMetadata (process_group w st (baseName, files))
     = (if writeFile_ok w name then <[name := length text]> (stitchMetadata st)
        else stitchMetadata st).
Proof.
  cbn zeta. unfold process_group. rewrite StichFacts.stitch_spec.
  now destruct (writeFile_ok w _).
Qed.

Lemma process_groups_other (w : world) (name : jsstring)
    (groups : list (jsstring * list ChunkInfo)) :
  forall st,
    (forall g, In g groups -> outputFileName (fst g) <> name) ->
    written (fold_left (process_group w) groups st) !! name = written st !! name
    /\ stitchMetadata (fold_left (process_group w) groups st) !! name
       = stitchMetadata st !! name.
Proof.
  induction groups as [|[b infos] groups IH]; intros st Hother; [now split|].
  cbn [fold_left].
  destruct (IH (process_group w st (b, infos))
              (fun g Hg => Hother g (or_intror Hg))) as [-> ->].
  destruct (process_group_written w st b infos) as [-> ->].
  pose proof (Hother (b, infos) (or_introl eq_refl)) as Hne. cbn [fst] in Hne.
  destruct (writeFile_ok w _); [|now split].
  now rewrite !lookup_insert_ne by assumption.
Qed.

Lemma process_groups_target (w : world) (b : jsstring) (infos : list ChunkInfo)
    (groups : list (jsstring * list ChunkInfo)) :
  writeFile_ok w (outputFileName b) = true ->
  forall st,
    List.NoDup (List.map fst groups) -> In (b, infos) groups ->
    (forall g, In g groups -> outputFileName (fst g) = outputFileName b -> fst g = b) ->
    written (fold_left (process_group w) groups st) !! outputFileName b
      = Some (group_text w b infos)
    /\ stitchMetadata (fold_left (process_group w) groups st) !! outputFileName b
       = Some (length (group_text w b infos)).
Proof.
  intros Hok. induction groups as [|[k infos'] groups IH]; intros st Hnd Hin Hcol;
    [destruct Hin|].
  cbn [List.map fst] in Hnd. inversion Hnd as [|? ? Hk Hnd']; subst.
  cbn [fold_left]. destruct Hin as [[= -> ->]|Hin].
  - destruct (process_groups_other w (outputFileName b) groups
                (process_group w st (b, infos))) as [-> ->].
    + intros [b' infos''] Hg E. cbn [fst] in E.
      pose proof (Hcol _ (or_intror Hg) E) as Hb. cbn [fst] in Hb. subst b'.
      apply Hk. now apply (in_map fst) in Hg.
    + destruct (process_group_written w st b infos) as [-> ->].
      rewrite Hok. now rewrite !lookup_insert_eq.
  - apply IH; [assumption..|]. intros g Hg. apply Hcol. now right.
Qed.

Lemma process_groups_provenance (w : world) (name text : jsstring)
    (groups : list (jsstring * list ChunkInfo)) :
  forall st,
    written (fold_left (process_group w) groups st) !! name = Some text ->
    written st !! name = Some text
    \/ exists b infos,
         In (b, infos) groups /\ name = outputFileName b
         /\ text = group_text w b infos.
Proof.
  induction groups as [|[b infos] groups IH]; intros st Hw; [now left|].
  cbn [fold_left] in Hw. apply IH in Hw as [Hw|(b' & infos' & Hin & -> & ->)].
  - destruct (process_group_written w st b infos) as [E _]. rewrite E in Hw.
    destruct (writeFile_ok w _); [|now left].
    destruct (decide (outputFileName b = name)) as [<-|Hne].
    + rewrite lookup_insert_eq in Hw. injection Hw as <-.
      right. exists b, infos. split; [now left|now split].
    + rewrite lookup_insert_ne in Hw by assumption. now left.
  - right. exists b', infos'. split; [now right|now split].
Qed.

Lemma members_of_nonempty {A} (classify : jsstring -> option (jsstring * A))
    (fileNames : list jsstring) (b : jsstring) :
  members_of classify fileNames b <> [] ->
  exists file i, In file fileNames /\ classify file = Some (b, i).
Proof.
  induction fileNames as [|file fileNames IH]; [now intros []|].
  unfold members_of. cbn [flat_map]. fold (members_of classify fileNames b).
  destruct (classify file) as [[b' i]|] eqn:E.
  - destruct (decide (b' = b)) as [->|Hb].
    + intros _. exists file, i. split; [now left|assumption].
    + rewrite bool_decide_eq_false_2 by assumption. cbn [app]. intros H.
      destruct (IH H) as (f & j & Hf & Hj). exists f, j. split; [now right|assumption].
  - cbn [app]. intros H.
    destruct (IH H) as (f & j & Hf & Hj). exists f, j. split; [now right|assumption].
Qed.

Lemma main_folds (w : world) (fileNames : list jsstring) :
  readdir w = Some fileNames ->
  exists log,
    main w = fold_left (process_group w)
               (fold_left (group_step info_of) fileNames [])
               {| written := ∅; stitchMetadata := ∅; console := log |}.
Proof.
  intros Hdir. unfold main. rewrite Hdir.
  pose proof (group_file_step fileNames [] []) as E.
  destruct (fold_left group_file fileNames ([], [])) as [groups log].
  cbn [fst] in E. subst groups. now exists log.
Qed.

(** X10. The stitched document of a group.  For a listing whose chunk
    numbers are all within [Number.MAX_SAFE_INTEGER]: when the listing
    has a chunk file of [baseName], the write succeeds and no other group
    of the listing has the same output name, the run leaves under the
    output name of [baseName] the header (the base name without its last
    extension), an empty line and the contents of the readable chunk
    files of the group in the order of their chunk numbers, each followed
    by a newline; the metadata entry is the length of that text. *)
Theorem stich_main_group (w : world) (fileNames : list jsstring) (baseName : jsstring) :
  readdir w = Some fileNames ->
  safe_listing TXT fileNames = true ->
  members fileNames baseName <> [] ->
  writeFile_ok w (outputFileName baseName) = true ->
  no_collision fileNames baseName = true ->
  written (main w) !! outputFileName baseName = Some (stitched w fileNames baseName)
  /\ stitchMetadata (main w) !! outputFileName baseName
     = Some (length (stitched w fileNames baseName)).
Proof.
  intros Hdir _ Hmem Hok Hcol.
  destruct (main_folds w fileNames Hdir) as [log ->].
  destruct (groups_of_listing info_of fileNames) as [Hnd Hgroups]. cbn zeta in *.
  apply process_groups_target; [assumption..| |].
  - apply Hgroups. now split.
  - intros [b' infos] Hg E. cbn [fst] in *.
    apply Hgroups in Hg as [Hne ->].
    destruct (members_of_nonempty info_of fileNames b' Hne) as (file & i & Hfile & Hi).
    unfold no_collision in Hcol. rewrite forallb_forall in Hcol.
    specialize (Hcol file Hfile). rewrite Hi in Hcol.
    rewrite bool_decide_eq_true_2 in Hcol by assumption.
    cbn [implb] in Hcol. now apply bool_decide_eq_true_1 in Hcol.
Qed.

Lemma stich_main_group_witness :
  safe_listing TXT
    [lit "doc.pdf-10.txt"; lit "doc.pdf-2.txt"; lit "notes"; lit "doc.pdf-1.txt"] = true
  /\ written (main Examples.stich_world) !! lit "doc.pdf.txt"
       = Some (lit "doc" ++ NL ++ NL ++ lit "one" ++ NL ++ lit "two" ++ NL
                 ++ lit "ten" ++ NL)
  /\ stitchMetadata (main Examples.stich_world) !! lit "doc.pdf.txt" = Some 17%nat.
Proof.
  assert (Hsafe : safe_listing TXT
                    [lit "doc.pdf-10.txt"; lit "doc.pdf-2.txt"; lit "notes";
                     lit "doc.pdf-1.txt"] = true) by reflexivity.
  split; [exact Hsafe|].
  refine (stich_main_group Examples.stich_world
            [lit "doc.pdf-10.txt"; lit "doc.pdf-2.txt"; lit "notes"; lit "doc.pdf-1.txt"]
            (lit "doc.pdf") eq_refl Hsafe _ eq_refl eq_refl).
  vm_compute. discriminate.
Defined.

(** X11. The run writes nothing but stitched groups.  For a listing whose
    chunk numbers are all within [Number.MAX_SAFE_INTEGER], every file in
    the output folder is the stitched text of a group of the listing that
    has at least one chunk file, under the output name of that group,
    and the name ends in [.txt] in some letter case. *)
Theorem stich_main_written (w : world) (fileNames : list jsstring)
    (name text : jsstring) :
  readdir w = Some fileNames ->
  safe_listing TXT fileNames = true ->
  written (main w) !! name = Some text ->
  exists baseName,
    members fileNames baseName <> []
    /\ name = outputFileName baseName
    /\ text = stitched w fileNames baseName
    /\ endsWith (toLowerCase name) TXT = true.
Proof.
  intros Hdir _ Hw.
  destruct (main_folds w fileNames Hdir) as [log E]. rewrite E in Hw.
  apply process_groups_provenance in Hw as [Hw|(b & infos & Hin & -> & ->)].
  - cbn [written] in Hw. now rewrite lookup_empty in Hw.
  - destruct (groups_of_listing info_of fileNames) as [_ Hgroups]. cbn zeta in *.
    apply Hgroups in Hin as [Hne ->].
    exists b. split; [exact Hne|].
    split; [reflexivity|]. split; [reflexivity|].
    apply PipelineFacts.outputFileName_ends.
Qed.

Lemma stich_main_written_witness :
  readdir Examples.stich_world
    = Some [lit "doc.pdf-10.txt"; lit "doc.pdf-2.txt"; lit "notes"; lit "doc.pdf-1.txt"]
  /\ safe_listing TXT
       [lit "doc.pdf-10.txt"; lit "doc.pdf-2.txt"; lit "notes"; lit "doc.pdf-1.txt"]
     = true
  /\ written (main Examples.stich_world) !! lit "doc.pdf.txt"
     = Some (lit "doc" ++ NL ++ NL ++ lit "one" ++ NL ++ lit "two" ++ NL
               ++ lit "ten" ++ NL)
  /\ exists baseName,
       members [lit "doc.pdf-10.txt"; lit "doc.pdf-2.txt"; lit "notes";
                lit "doc.pdf-1.txt"] baseName <> []
       /\ lit "doc.pdf.txt" = outputFileName baseName
       /\ lit "doc" ++ NL ++ NL ++ lit "one" ++ NL ++ lit "two" ++ NL ++ lit "ten" ++ NL
          = stitched Examples.stich_world
              [lit "doc.pdf-10.txt"; lit "doc.pdf-2.txt"; lit "notes";
               lit "doc.pdf-1.txt"] baseName
       /\ endsWith (toLowerCase (lit "doc.pdf.txt")) TXT = true.
Proof.
  assert (Hdir : readdir Examples.stich_world
                 = Some [lit "doc.pdf-10.txt"; lit "doc.pdf-2.txt"; lit "notes";
                         lit "doc.pdf-1.txt"]) by reflexivity.
  assert (Hsafe : safe_listing TXT
                    [lit "doc.pdf-10.txt"; lit "doc.pdf-2.txt"; lit "notes";
                     lit "doc.pdf-1.txt"] = true) by reflexivity.
  assert (H : written (main Examples.stich_world) !! lit "doc.pdf.txt"
              = Some (lit "doc" ++ NL ++ NL ++ lit "one" ++ NL ++ lit "two" ++ NL
                        ++ lit "ten" ++ NL)) by (vm_compute; reflexivity).
  exact (conj Hdir (conj Hsafe (conj H
           (stich_main_written Examples.stich_world _ _ _ Hdir Hsafe H)))).
Defined.

(** X12. Two groups are written under the same name exactly when they are the
    same group or one base name is the other followed by [.txt], the
    other not ending in [.txt] in any letter case: the later of two such
    groups overwrites the document of the earlier. *)
Theorem output_name_collision (b1 b2 : jsstring) :
  outputFileName b1 = outputFileName b2
  <-> b1 = b2
      \/ (b1 = b2 ++ TXT /\ endsWith (toLowerCase b2) TXT = false)
      \/ (b2 = b1 ++ TXT /\ endsWith (toLowerCase b1) TXT = false).
Proof.
  assert (Hends : forall b, endsWith (toLowerCase (b ++ TXT)) TXT = true).
  { intros b. apply PipelineFacts.endsWith_true. exists (toLowerCase b).
    now rewrite PipelineFacts.toLowerCase_app. }
  unfold outputFileName. split.
  - destruct (endsWith (toLowerCase b1) TXT) eqn:E1,
             (endsWith (toLowerCase b2) TXT) eqn:E2; cbn [negb]; intros E.
    + now left.
    + right. left. now split.
    + right. right. now split.
    + left. now apply app_inv_tail in E.
  - intros [->|[[-> E2]|[-> E1]]]; [reflexivity| |].
    + now rewrite Hends, E2.
    + now rewrite Hends, E1.
Qed.

Example output_name_collision_example :
  outputFileName (lit "a") = outputFileName (lit "a.txt")
  /\ outputFileName (lit "a") <> outputFileName (lit "a.TXT").
Proof. split; [reflexivity|discriminate]. Qed.

End StichMore.

(** * More on the re-indexer *)

Module CleanedMore.
Import StitchCleaned CleanedFacts.

Section WithNumbers.
Context `{JsNumber num}.

Lemma merge_files_no_null (w : world num) (files : list FileInfo) :
  existsb (is_null_record w) files = false ->
  forall mergedChunks log,
    merge_files w files mergedChunks log
    = (Normal (mergedChunks ++ flat_map (chunks_of w) files),
       log ++ List.map (skip_event w) (List.filter (skipped w) files)).
Proof.
  induction files as [|f files IH]; intros Hnull mergedChunks log.
  - cbn. now rewrite !app_nil_r.
  - cbn [existsb] in Hnull. apply orb_false_iff in Hnull as [Hf Hfiles].
    cbn [merge_files flat_map List.filter].
    unfold is_null_record in Hf. unfold chunks_of at 1, skipped at 1, skip_event at 1.
    destruct (readFile w (fileName f)) as [| |jsonData] eqn:Hread.
    + cbn [List.map app]. rewrite Hread, IH by assumption.
      now rewrite <- app_assoc.
    + cbn [List.map app]. rewrite Hread, IH by assumption.
      now rewrite <- app_assoc.
    + destruct jsonData as [| | | | |props]; try discriminate;
        cbn [chunks_member];
        try (cbn [List.map app]; rewrite Hread, IH by assumption;
             now rewrite <- app_assoc).
      destruct (get_prop (lit "chunks") props) as [[| | | |chunks|]|];
        try (cbn [List.map app]; rewrite Hread, IH by assumption;
             now rewrite <- app_assoc).
      rewrite IH by assumption. now rewrite <- app_assoc.
Qed.

Lemma merge_files_throws (w : world num) (files : list FileInfo) :
  existsb (is_null_record w) files = true ->
  forall mergedChunks log,
    fst (merge_files w files mergedChunks log) = Throw TypeError.
Proof.
  intros Hex. apply merge_files_null. apply List.Exists_exists.
  apply existsb_exists in Hex as (f & Hf & Hnull). exists f. split; [assumption|].
  unfold is_null_record in Hnull.
  destruct (readFile w (fileName f)) as [| |[]]; congruence.
Qed.

Lemma existsb_perm {A} (p : A -> bool) (l l' : list A) :
  Permutation l l' -> existsb p l = existsb p l'.
Proof.
  intros Hperm. destruct (existsb p l') eqn:E.
  - apply existsb_exists in E as (x & Hx & Hp). apply existsb_exists. exists x.
    split; [|assumption]. eapply Permutation_in; [symmetry|]; eassumption.
  - destruct (existsb p l) eqn:E'; [|reflexivity].
    apply existsb_exists in E' as (x & Hx & Hp).
    assert (existsb p l' = true); [|congruence].
    apply existsb_exists. exists x. split; [|assumption].
    eapply Permutation_in; eassumption.
Qed.

(** The chunk list of a group without a [null] record. *)
Lemma merge_group_no_null (w : world num) (files : list FileInfo) (log : list event) :
  existsb (is_null_record w) files = false ->
  let sorted := sort_by chunkNum files in
  merge_group w files log
  = (Normal (reindex (flat_map (chunks_of w) sorted)),
     log ++ List.map (skip_event w) (List.filter (skipped w) sorted)).
Proof.
  intros Hnull sorted. unfold merge_group. fold sorted.
  rewrite merge_files_no_null; [reflexivity|].
  rewrite <- Hnull. apply existsb_perm, sort_by_perm.
Qed.

Lemma merge_group_throws (w : world num) (files : list FileInfo) (log : list event) :
  existsb (is_null_record w) files = true ->
  fst (merge_group w files log) = Throw TypeError.
Proof.
  intros Hnull. unfold merge_group.
  pose proof (merge_files_throws w (sort_by chunkNum files)) as Hthrow.
  rewrite (existsb_perm _ _ _ (sort_by_perm chunkNum files)) in Hthrow.
  specialize (Hthrow Hnull [] log).
  destruct (merge_files w (sort_by chunkNum files) [] log) as [[m|e] log'];
    cbn [fst] in *; congruence.
Qed.

Lemma skipped_no_chunks (w : world num) (f : FileInfo) :
  skipped w f = true -> chunks_of w f = [].
Proof.
  unfold skipped, chunks_of.
  destruct (readFile w (fileName f)) as [| |[| | | | |props]]; try reflexivity.
  cbn [chunks_member].
  destruct (get_prop (lit "chunks") props) as [[| | | |chunks|]|];
    try reflexivity; discriminate.
Qed.

Lemma flat_map_skipped (w : world num) (l : list FileInfo) :
  (forall f, In f l -> skipped w f = true) -> flat_map (chunks_of w) l = [].
Proof.
  induction l as [|f l IH]; intros Hall; [reflexivity|].
  cbn [flat_map]. rewrite (skipped_no_chunks w f) by (apply Hall; now left).
  apply IH. intros g Hg. apply Hall. now right.
Qed.

(** X18. The re-indexer is tolerant of every record but [null].  In a group
    without a [null] record the unreadable files, the files that are not
    JSON and the values without a [chunks] array are passed over with one
    console line each, in the order of the chunk numbers, and the
    document is the re-indexed concatenation of the [chunks] arrays of
    the other records. *)
Theorem merge_group_tolerant (w : world num) (files : list FileInfo) (log : list event) :
  existsb (is_null_record w) files = false ->
  let sorted := sort_by chunkNum files in
  merge_group w files log
  = (Normal (reindex (flat_map (chunks_of w)
                        (List.filter (fun f => negb (skipped w f)) sorted))),
     log ++ List.map (skip_event w) (List.filter (skipped w) sorted))
  /\ Forall (fun f => chunks_of w f = []) (List.filter (skipped w) sorted).
Proof.
  intros Hnull sorted.
  pose proof (skipped_no_chunks w) as Hskip.
  split.
  - rewrite merge_group_no_null by assumption. fold sorted. do 3 f_equal.
    induction sorted as [|f l IH]; [reflexivity|]. cbn [flat_map List.filter].
    destruct (skipped w f) eqn:E; cbn [negb flat_map].
    + now rewrite (Hskip f E).
    + now rewrite IH.
  - apply List.Forall_forall. intros f [_ Hf]%filter_In. now apply Hskip.
Qed.

(** X19. Listing order does not matter for a group with distinct chunk
    numbers. *)
Theorem merge_group_order_independent (w : world num) (files files' : list FileInfo)
    (log : list event) :
  List.NoDup (List.map chunkNum files) -> Permutation files files' ->
  merge_group w files' log = merge_group w files log.
Proof.
  intros Hnd Hperm. unfold merge_group.
  now rewrite (sort_by_order_independent chunkNum files files' Hnd Hperm).
Qed.

(** X20. The re-indexer reproduces its own output: a group whose only record
    is a document that the re-indexer wrote gets the same chunk list
    again, and re-indexing twice is re-indexing once. *)
Theorem reindex_idempotent (w : world num) (f : FileInfo) (chunks : list (json num))
    (log : list event) :
  readFile w (fileName f) = Parsed (finalJSON (reindex chunks)) ->
  merge_group w [f] log = (Normal (reindex chunks), log)
  /\ reindex (reindex chunks) = reindex chunks
  /\ length (reindex chunks) = length chunks.
Proof.
  intros Hread. split; [|split; [apply reindex_reindex|apply reindex_length]].
  unfold merge_group. cbn [sort_by insert_by merge_files]. rewrite Hread.
  cbn [finalJSON chunks_member].
  assert (Hget : get_prop (lit "chunks") [(lit "chunks", JArr (reindex chunks))]
                 = Some (JArr (reindex chunks))).
  { rewrite <- (get_set_prop_eq (lit "chunks") (JArr (reindex chunks)) []).
    reflexivity. }
  rewrite Hget. cbn [app]. now rewrite reindex_reindex.
Qed.

(** X21. A group in which every record is passed over: the document is still
    written, with an empty chunk list. *)
Theorem empty_group_written (w : world num) (st : state) (baseName : jsstring)
    (files : list FileInfo) :
  forallb (skipped w) files = true ->
  writeFile_ok w (finalFileName baseName) = true ->
  snd (process_group w st (baseName, files)) = None
  /\ written (fst (process_group w st (baseName, files))) !! finalFileName baseName
     = Some (stringify_2 (finalJSON []))
  /\ stitchMetadata (fst (process_group w st (baseName, files))) !! finalFileName baseName
     = Some 13%nat.
Proof.
  intros Hskip Hok.
  assert (Hnull : existsb (is_null_record w) files = false).
  { destruct (existsb (is_null_record w) files) eqn:E; [|reflexivity].
    apply existsb_exists in E as (f & Hf & Hn).
    rewrite forallb_forall in Hskip. specialize (Hskip f Hf).
    unfold is_null_record in Hn. unfold skipped in Hskip.
    destruct (readFile w (fileName f)) as [| |[]]; discriminate. }
  pose proof (merge_group_no_null w files (console st) Hnull) as Hrun.
  cbn zeta in Hrun.
  assert (Hnone : flat_map (chunks_of w) (sort_by chunkNum files) = []).
  { apply flat_map_skipped.
    intros f Hf. rewrite forallb_forall in Hskip. apply Hskip.
    eapply Permutation_in; [apply sort_by_perm|exact Hf]. }
  rewrite Hnone in Hrun.
  unfold process_group. rewrite Hrun, Hok. cbn [fst snd written stitchMetadata].
  split; [reflexivity|]. now rewrite !lookup_insert_eq.
Qed.

Lemma cleaned_group_file_step (files : list jsstring) :
  forall groups log,
    fst (fold_left group_file files (groups, log))
    = fold_left (group_step record_of) files groups.
Proof.
  induction files as [|file files IH]; intros groups log; [reflexivity|].
  cbn [fold_left]. unfold group_file at 2, group_step at 2, record_of.
  destruct (match_name (lit ".json") file) as [[b d]|]; apply IH.
Qed.

Lemma process_group_throws (w : world num) (st : state) (g : jsstring * list FileInfo) :
  snd (process_group w st g)
  = if existsb (is_null_record w) (snd g) then Some TypeError else None.
Proof.
  destruct g as [b files]. cbn [snd]. unfold process_group.
  destruct (existsb (is_null_record w) files) eqn:Hnull.
  - pose proof (merge_group_throws w files (console st) Hnull) as Hthrow.
    destruct (merge_group w files (console st)) as [[m|e] log]; cbn [fst] in Hthrow;
      [discriminate|]. now destruct e.
  - rewrite merge_group_no_null by assumption.
    now destruct (writeFile_ok w _).
Qed.

Lemma process_groups_throws (w : world num) (groups : list (jsstring * list FileInfo)) :
  forall st,
    snd (process_groups w groups st)
    = if existsb (fun g => existsb (is_null_record w) (snd g)) groups
      then Some TypeError else None.
Proof.
  induction groups as [|g groups IH]; intros st; [reflexivity|].
  cbn [process_groups existsb].
  pose proof (process_group_throws w st g) as Hg.
  destruct (process_group w st g) as [st' [e|]]; cbn [snd] in Hg.
  - destruct (existsb (is_null_record w) (snd g)); [|discriminate].
    cbn [orb snd]. exact Hg.
  - destruct (existsb (is_null_record w) (snd g)); [discriminate|].
    cbn [orb]. apply IH.
Qed.

Lemma members_of_In {A} (classify : jsstring -> option (jsstring * A))
    (fileNames : list jsstring) (b : jsstring) (i : A) :
  In i (members_of classify fileNames b)
  <-> exists file, In file fileNames /\ classify file = Some (b, i).
Proof.
  unfold members_of. rewrite in_flat_map. split.
  - intros (file & Hfile & Hi). exists file. split; [assumption|].
    destruct (classify file) as [[b' i']|]; [|destruct Hi].
    destruct (decide (b' = b)) as [->|Hb].
    + rewrite bool_decide_eq_true_2 in Hi by reflexivity.
      destruct Hi as [->|[]]. reflexivity.
    + rewrite bool_decide_eq_false_2 in Hi by assumption. destruct Hi.
  - intros (file & Hfile & Hi). exists file. split; [assumption|].
    rewrite Hi, bool_decide_eq_true_2 by reflexivity. now left.
Qed.

Lemma main_aborts (w : world num) (fileNames : list jsstring) :
  readdir w = Some fileNames ->
  let groups := fold_left (group_step record_of) fileNames [] in
  snd (main w)
  = (if existsb (fun g => existsb (is_null_record w) (snd g)) groups
     then Some TypeError else None)
  /\ exists log,
       fst (main w)
       = (if existsb (fun g => existsb (is_null_record w) (snd g)) groups
          then fst (main w)
          else fst (process_groups w groups
                      {| written := ∅; stitchMetadata := ∅; console := log |})).
Proof.
  intros Hdir groups. unfold main. rewrite Hdir.
  pose proof (cleaned_group_file_step fileNames [] []) as E.
  destruct (fold_left group_file fileNames ([], [])) as [groups' log].
  cbn [fst] in E. subst groups'. fold groups.
  pose proof (process_groups_throws w groups
                {| written := ∅; stitchMetadata := ∅; console := log |}) as Hp.
  destruct (process_groups w groups _) as [st [e|]] eqn:Hrun; cbn [snd] in *.
  - split; [exact Hp|]. exists log.
    destruct (existsb _ groups); [reflexivity|discriminate].
  - split; [exact Hp|]. exists log.
    destruct (existsb _ groups); [reflexivity|]. now rewrite Hrun.
Qed.

Lemma groups_null_iff (w : world num) (fileNames : list jsstring) :
  existsb (fun g => existsb (is_null_record w) (snd g))
    (fold_left (group_step record_of) fileNames []) = true
  <-> exists file,
        In file fileNames /\ matches_json file = true
        /\ readFile w file = Parsed JNull.
Proof.
  set (groups := fold_left (group_step record_of) fileNames []).
  destruct (groups_of_listing record_of fileNames) as [_ Hgroups].
  cbn zeta in Hgroups. fold groups in Hgroups.
  rewrite existsb_exists. split.
  - intros ([b infos] & Hg & (f & Hf & Hnull)%existsb_exists). cbn [snd] in *.
    apply Hgroups in Hg as [_ ->].
    apply members_of_In in Hf as (file & Hfile & Hrec).
    exists file. split; [assumption|].
    unfold record_of in Hrec. unfold matches_json.
    destruct (match_name (lit ".json") file) as [[b' d]|]; [|discriminate].
    injection Hrec as -> <-. split; [reflexivity|].
    unfold is_null_record in Hnull. cbn [fileName] in Hnull.
    destruct (readFile w file) as [| |[]]; congruence.
  - intros (file & Hfile & Hmatch & Hnull).
    unfold matches_json in Hmatch.
    destruct (match_name (lit ".json") file) as [[b d]|] eqn:Hm; [|discriminate].
    set (info := {| fileName := file; chunkNum := parseInt d |}).
    assert (Hin : In info (members_of record_of fileNames b)).
    { apply members_of_In. exists file. split; [assumption|].
      unfold record_of. now rewrite Hm. }
    exists (b, members_of record_of fileNames b). split.
    + apply Hgroups. split; [|reflexivity]. intros E. now rewrite E in Hin.
    + cbn [snd]. apply existsb_exists. exists info. split; [assumption|].
      unfold is_null_record, info. cbn [fileName]. now rewrite Hnull.
Qed.

Lemma main_abort_console (w : world num) (e : exn) :
  snd (main w) = Some e ->
  exists log, console (fst (main w)) = log ++ [UncaughtError e].
Proof.
  unfold main. destruct (readdir w) as [fileNames|]; [|discriminate].
  destruct (fold_left group_file fileNames ([], [])) as [groups log].
  destruct (process_groups w groups _) as [st [e'|]]; cbn [fst snd console];
    [|discriminate].
  intros E. assert (e' = e) as -> by congruence. now exists (console st).
Qed.

(** X22. A [null] record aborts the run.  When some file of the listing
    that follows the naming convention holds the JSON text [null],
    [main] is left by an exception before the metadata is saved,
    whatever the other files hold and wherever the file is listed; the
    handler reports the exception as the last console line.  So a run
    that reaches the end of [main] has read no such file. *)
Theorem run_aborts_on_null (w : world num) (fileNames : list jsstring)
    (file : jsstring) :
  readdir w = Some fileNames ->
  In file fileNames -> matches_json file = true ->
  readFile w file = Parsed JNull ->
  exists e,
    snd (main w) = Some e
    /\ exists log, console (fst (main w)) = log ++ [UncaughtError e].
Proof.
  intros Hdir Hfile Hmatch Hnull.
  destruct (main_aborts w fileNames Hdir) as [Hmain _]. cbn zeta in Hmain.
  assert (Hex : existsb (fun g => existsb (is_null_record w) (snd g))
                  (fold_left (group_step record_of) fileNames []) = true)
    by (apply groups_null_iff; now exists file).
  rewrite Hex in Hmain.
  exists TypeError. split; [exact Hmain|]. now apply main_abort_console.
Qed.

Lemma process_group_no_null (w : world num) (st : state) (b : jsstring)
    (files : list FileInfo) :
  existsb (is_null_record w) files = false ->
  let name := finalFileName b in
  let doc := finalJSON (reindex (flat_map (chunks_of w) (sort_by chunkNum files))) in
  written (fst (process_group w st (b, files)))
  = (if writeFile_ok w name then <[name := stringify_2 doc]> (written st)
     else written st)
  /\ stitchMetadata (fst (process_group w st (b, files)))
     = (if writeFile_ok w name then <[name := length (stringify doc)]> (stitchMetadata st)
        else stitchMetadata st)
  /\ snd (process_group w st (b, files)) = None.
Proof.
  intros Hnull. cbn zeta. unfold process_group.
  rewrite merge_group_no_null by assumption.
  now destruct (writeFile_ok w _).
Qed.

Lemma cleaned_groups_other (w : world num) (name : jsstring)
    (groups : list (jsstring * list FileInfo)) :
  forall st,
    existsb (fun g => existsb (is_null_record w) (snd g)) groups = false ->
    (forall g, In g groups -> finalFileName (fst g) <> name) ->
    written (fst (process_groups w groups st)) !! name = written st !! name
    /\ stitchMetadata (fst (process_groups w groups st)) !! name
       = stitchMetadata st !! name.
Proof.
  induction groups as [|[b infos] groups IH]; intros st Hnull Hother; [now split|].
  cbn [existsb snd] in Hnull. apply orb_false_iff in Hnull as [Hb Hrest].
  cbn [process_groups].
  destruct (process_group_no_null w st b infos Hb) as (Hw & Hm & Hs). cbn zeta in *.
  destruct (process_group w st (b, infos)) as [st' r]. cbn [fst snd] in *. subst r.
  destruct (IH st' Hrest (fun g Hg => Hother g (or_intror Hg))) as [-> ->].
  rewrite Hw, Hm.
  pose proof (Hother (b, infos) (or_introl eq_refl)) as Hne. cbn [fst] in Hne.
  destruct (writeFile_ok w _); [|now split].
  now rewrite !lookup_insert_ne by assumption.
Qed.

Lemma cleaned_groups_target (w : world num) (b : jsstring) (infos : list FileInfo)
    (groups : list (jsstring * list FileInfo)) :
  writeFile_ok w (finalFileName b) = true ->
  forall st,
    existsb (fun g => existsb (is_null_record w) (snd g)) groups = false ->
    List.NoDup (List.map fst groups) -> In (b, infos) groups ->
    (forall g, In g groups -> finalFileName (fst g) = finalFileName b -> fst g = b) ->
    let doc := finalJSON (reindex (flat_map (chunks_of w) (sort_by chunkNum infos))) in
    written (fst (process_groups w groups st)) !! finalFileName b
      = Some (stringify_2 doc)
    /\ stitchMetadata (fst (process_groups w groups st)) !! finalFileName b
       = Some (length (stringify doc)).
Proof.
  intros Hok. induction groups as [|[k infos'] groups IH];
    intros st Hnull Hnd Hin Hcol; [destruct Hin|].
  cbn [existsb snd] in Hnull. apply orb_false_iff in Hnull as [Hk0 Hrest].
  cbn [List.map fst] in Hnd. inversion Hnd as [|? ? Hk Hnd']; subst.
  cbn [process_groups].
  destruct (process_group_no_null w st k infos' Hk0) as (Hw & Hm & Hs). cbn zeta in *.
  destruct (process_group w st (k, infos')) as [st' r]. cbn [fst snd] in *. subst r.
  destruct Hin as [[= -> ->]|Hin].
  - destruct (cleaned_groups_other w (finalFileName b) groups st' Hrest) as [-> ->].
    + intros [b' infos''] Hg E. cbn [fst] in E.
      pose proof (Hcol _ (or_intror Hg) E) as Hb. cbn [fst] in Hb. subst b'.
      apply Hk. now apply (in_map fst) in Hg.
    + rewrite Hw, Hm, Hok. now rewrite !lookup_insert_eq.
  - apply IH; [assumption..|]. intros g Hg. apply Hcol. now right.
Qed.

(** X23. The document of a group.  For a listing whose chunk numbers are
    all within [Number.MAX_SAFE_INTEGER]: when the run is not aborted,
    the listing has a record of [baseName], the write succeeds and no
    other group has the same final name, the file under the final name of
    [baseName] holds, indented, the object whose [chunks] are the chunks
    of the group's records in the order of the chunk numbers, numbered
    anew from 1; the metadata entry is the length of its compact form. *)
Theorem cleaned_main_group (w : world num) (fileNames : list jsstring)
    (baseName : jsstring) :
  readdir w = Some fileNames ->
  safe_listing (lit ".json") fileNames = true ->
  snd (main w) = None ->
  cleaned_members fileNames baseName <> [] ->
  writeFile_ok w (finalFileName baseName) = true ->
  cleaned_no_collision fileNames baseName = true ->
  written (fst (main w)) !! finalFileName baseName
    = Some (stringify_2 (finalJSON (merged w fileNames baseName)))
  /\ stitchMetadata (fst (main w)) !! finalFileName baseName
     = Some (length (stringify (finalJSON (merged w fileNames baseName)))).
Proof.
  intros Hdir _ Hrun Hmem Hok Hcol.
  destruct (main_aborts w fileNames Hdir) as [Hmain [log Hst]]. cbn zeta in *.
  rewrite Hrun in Hmain.
  destruct (existsb _ (fold_left (group_step record_of) fileNames [])) eqn:Hnull;
    [discriminate|].
  rewrite Hst.
  destruct (groups_of_listing record_of fileNames) as [Hnd Hgroups]. cbn zeta in *.
  apply cleaned_groups_target; [assumption..| |].
  - apply Hgroups. now split.
  - intros [b' infos] Hg E. cbn [fst] in *.
    apply Hgroups in Hg as [Hne ->].
    destruct (StichMore.members_of_nonempty record_of fileNames b' Hne)
      as (file & i & Hfile & Hi).
    unfold cleaned_no_collision in Hcol. rewrite forallb_forall in Hcol.
    specialize (Hcol file Hfile). rewrite Hi in Hcol.
    rewrite bool_decide_eq_true_2 in Hcol by assumption.
    cbn [implb] in Hcol. now apply bool_decide_eq_true_1 in Hcol.
Qed.

Lemma process_group_throw_written (w : world num) (st : state)
    (g : jsstring * list FileInfo) :
  existsb (is_null_record w) (snd g) = true ->
  written (fst (process_group w st g)) = written st.
Proof.
  destruct g as [b files]. cbn [snd]. intros Hnull. unfold process_group.
  pose proof (merge_group_throws w files (console st) Hnull) as Hthrow.
  destruct (merge_group w files (console st)) as [[m|e] log]; cbn [fst] in Hthrow;
    [discriminate|reflexivity].
Qed.

Lemma cleaned_groups_provenance (w : world num) (name text : jsstring)
    (groups : list (jsstring * list FileInfo)) :
  forall st,
    written (fst (process_groups w groups st)) !! name = Some text ->
    written st !! name = Some text
    \/ exists b infos,
         In (b, infos) groups
         /\ existsb (is_null_record w) infos = false
         /\ name = finalFileName b
         /\ text = stringify_2
                     (finalJSON (reindex (flat_map (chunks_of w)
                                            (sort_by chunkNum infos)))).
Proof.
  induction groups as [|[b infos] groups IH]; intros st Hw; [now left|].
  cbn [process_groups] in Hw.
  destruct (existsb (is_null_record w) infos) eqn:Hnull.
  - pose proof (process_group_throw_written w st (b, infos) Hnull) as Hsame.
    pose proof (process_group_throws w st (b, infos)) as Hr.
    cbn [snd] in Hr. rewrite Hnull in Hr.
    destruct (process_group w st (b, infos)) as [st' r]. cbn [fst snd] in *. subst r.
    cbn [fst] in Hw. rewrite Hsame in Hw. now left.
  - destruct (process_group_no_null w st b infos Hnull) as (Hwr & _ & Hs).
    cbn zeta in *.
    destruct (process_group w st (b, infos)) as [st' r]. cbn [fst snd] in *. subst r.
    apply IH in Hw as [Hw|(b' & infos' & Hin & Hn & -> & ->)].
    + rewrite Hwr in Hw. destruct (writeFile_ok w _); [|now left].
      destruct (decide (finalFileName b = name)) as [<-|Hne].
      * rewrite lookup_insert_eq in Hw. injection Hw as <-.
        right. exists b, infos. split; [now left|]. now repeat split.
      * rewrite lookup_insert_ne in Hw by assumption. now left.
    + right. exists b', infos'. split; [now right|]. now repeat split.
Qed.

Lemma main_written (w : world num) (fileNames : list jsstring) :
  readdir w = Some fileNames ->
  exists log,
    written (fst (main w))
    = written (fst (process_groups w (fold_left (group_step record_of) fileNames [])
                      {| written := ∅; stitchMetadata := ∅; console := log |})).
Proof.
  intros Hdir. unfold main. rewrite Hdir.
  pose proof (cleaned_group_file_step fileNames [] []) as E.
  destruct (fold_left group_file fileNames ([], [])) as [groups' log].
  cbn [fst] in E. subst groups'. exists log.
  now destruct (process_groups w _ _) as [st [e|]].
Qed.

(** X28. The run writes nothing but documents of groups, also when it is
    aborted.  For a listing whose chunk numbers are all within
    [Number.MAX_SAFE_INTEGER], every file in the output folder is the
    indented document of a group of the listing that has a record and no
    [null] record, under the final name of that group. *)
Theorem cleaned_main_written (w : world num) (fileNames : list jsstring)
    (name text : jsstring) :
  readdir w = Some fileNames ->
  safe_listing (lit ".json") fileNames = true ->
  written (fst (main w)) !! name = Some text ->
  exists baseName,
    cleaned_members fileNames baseName <> []
    /\ existsb (is_null_record w) (cleaned_members fileNames baseName) = false
    /\ name = finalFileName baseName
    /\ text = stringify_2 (finalJSON (merged w fileNames baseName)).
Proof.
  intros Hdir _ Hw.
  destruct (main_written w fileNames Hdir) as [log E]. rewrite E in Hw.
  apply cleaned_groups_provenance in Hw as [Hw|(b & infos & Hin & Hn & -> & ->)].
  - cbn [written] in Hw. now rewrite lookup_empty in Hw.
  - destruct (groups_of_listing record_of fileNames) as [_ Hgroups]. cbn zeta in *.
    apply Hgroups in Hin as [Hne ->].
    exists b. now repeat split.
Qed.

End WithNumbers.

Lemma merge_group_tolerant_witness :
  existsb (is_null_record MoreExamples.tolerant_world)
    [Examples.record "r-3.json" 3; Examples.record "r-1.json" 1;
     Examples.record "r-2.json" 2] = false
  /\ merge_group MoreExamples.tolerant_world
       [Examples.record "r-3.json" 3; Examples.record "r-1.json" 1;
        Examples.record "r-2.json" 2] []
     = (Normal [Examples.chunk_object 1 "x"],
        [ReadError (lit "r-1.json"); NoChunksWarning (lit "r-2.json")]).
Proof.
  assert (H : existsb (is_null_record MoreExamples.tolerant_world)
                [Examples.record "r-3.json" 3; Examples.record "r-1.json" 1;
                 Examples.record "r-2.json" 2] = false) by reflexivity.
  exact (conj H (proj1 (merge_group_tolerant MoreExamples.tolerant_world _ [] H))).
Defined.

Lemma merge_group_order_independent_witness :
  merge_group Examples.cleaned_world
    [Examples.record "doc.pdf-1.json" 1; Examples.record "doc.pdf-2.json" 2] []
  = merge_group Examples.cleaned_world
      [Examples.record "doc.pdf-2.json" 2; Examples.record "doc.pdf-1.json" 1] [].
Proof.
  apply (merge_group_order_independent Examples.cleaned_world
           [Examples.record "doc.pdf-2.json" 2; Examples.record "doc.pdf-1.json" 1]
           [Examples.record "doc.pdf-1.json" 1; Examples.record "doc.pdf-2.json" 2]).
  - repeat constructor; cbn; intuition discriminate.
  - apply perm_swap.
Defined.

Lemma reindex_idempotent_witness :
  merge_group Examples.renumbered_world [Examples.record "doc.pdf-1.json" 1] []
  = (Normal (reindex [Examples.chunk_object 9 "a"; Examples.chunk_object 9 "b"]), []).
Proof.
  exact (proj1 (reindex_idempotent Examples.renumbered_world
                  (Examples.record "doc.pdf-1.json" 1)
                  [Examples.chunk_object 9 "a"; Examples.chunk_object 9 "b"] []
                  eq_refl)).
Defined.

Lemma empty_group_written_witness :
  written (fst (process_group Examples.cleaned_world
                  {| written := ∅; stitchMetadata := ∅; console := [] |}
                  (lit "x", [Examples.record "x-1.json" 1]))) !! lit "x.txt"
  = Some (lit "{" ++ NL ++ lit "  " ++ [0x22%N] ++ lit "chunks" ++ [0x22%N] ++ lit ": []"
            ++ NL ++ lit "}").
Proof.
  exact (proj1 (proj2 (empty_group_written Examples.cleaned_world
                         {| written := ∅; stitchMetadata := ∅; console := [] |}
                         (lit "x") [Examples.record "x-1.json" 1] eq_refl eq_refl))).
Defined.

Lemma cleaned_main_group_witness :
  safe_listing (lit ".json") [lit "doc.pdf-2.json"; lit "doc.pdf-1.json"] = true
  /\ written (fst (main Examples.cleaned_world)) !! lit "doc.pdf.txt"
     = Some (stringify_2
               (finalJSON [Examples.chunk_object 1 "a"; Examples.chunk_object 2 "b";
                           Examples.chunk_object 3 "c"; Examples.chunk_object 4 "d"])).
Proof.
  assert (Hsafe : safe_listing (lit ".json")
                    [lit "doc.pdf-2.json"; lit "doc.pdf-1.json"] = true)
    by reflexivity.
  split; [exact Hsafe|].
  refine (proj1 (cleaned_main_group Examples.cleaned_world
                   [lit "doc.pdf-2.json"; lit "doc.pdf-1.json"] (lit "doc.pdf")
                   eq_refl Hsafe eq_refl _ eq_refl eq_refl)).
  vm_compute. discriminate.
Defined.

Lemma cleaned_main_written_witness :
  readdir Examples.cleaned_world = Some [lit "doc.pdf-2.json"; lit "doc.pdf-1.json"]
  /\ safe_listing (lit ".json") [lit "doc.pdf-2.json"; lit "doc.pdf-1.json"] = true
  /\ written (fst (main Examples.cleaned_world)) !! lit "doc.pdf.txt"
     = Some (stringify_2
               (finalJSON [Examples.chunk_object 1 "a"; Examples.chunk_object 2 "b";
                           Examples.chunk_object 3 "c"; Examples.chunk_object 4 "d"]))
  /\ exists baseName,
       cleaned_members [lit "doc.pdf-2.json"; lit "doc.pdf-1.json"] baseName <> []
       /\ existsb (is_null_record Examples.cleaned_world)
            (cleaned_members [lit "doc.pdf-2.json"; lit "doc.pdf-1.json"] baseName)
          = false
       /\ lit "doc.pdf.txt" = finalFileName baseName
       /\ stringify_2
            (finalJSON [Examples.chunk_object 1 "a"; Examples.chunk_object 2 "b";
                        Examples.chunk_object 3 "c"; Examples.chunk_object 4 "d"])
          = stringify_2
              (finalJSON (merged Examples.cleaned_world
                            [lit "doc.pdf-2.json"; lit "doc.pdf-1.json"] baseName)).
Proof.
  assert (Hdir : readdir Examples.cleaned_world
                 = Some [lit "doc.pdf-2.json"; lit "doc.pdf-1.json"]) by reflexivity.
  assert (Hsafe : safe_listing (lit ".json")
                    [lit "doc.pdf-2.json"; lit "doc.pdf-1.json"] = true)
    by reflexivity.
  assert (H : written (fst (main Examples.cleaned_world)) !! lit "doc.pdf.txt"
              = Some (stringify_2
                        (finalJSON [Examples.chunk_object 1 "a";
                                    Examples.chunk_object 2 "b";
                                    Examples.chunk_object 3 "c";
                                    Examples.chunk_object 4 "d"])))
    by (vm_compute; reflexivity).
  exact (conj Hdir (conj Hsafe (conj H
           (cleaned_main_written Examples.cleaned_world _ _ _ Hdir Hsafe H)))).
Defined.

Lemma run_aborts_on_null_witness :
  readdir Examples.null_world = Some [lit "a-1.json"; lit "b-1.json"]
  /\ In (lit "a-1.json") [lit "a-1.json"; lit "b-1.json"]
  /\ matches_json (lit "a-1.json") = true
  /\ readFile Examples.null_world (lit "a-1.json") = Parsed JNull
  /\ exists e,
       snd (main Examples.null_world) = Some e
       /\ exists log,
            console (fst (main Examples.null_world)) = log ++ [UncaughtError e].
Proof.
  assert (Hin : In (lit "a-1.json") [lit "a-1.json"; lit "b-1.json"]) by (now left).
  exact (conj eq_refl (conj Hin (conj eq_refl (conj eq_refl
           (run_aborts_on_null Examples.null_world _ (lit "a-1.json")
              eq_refl Hin eq_refl eq_refl))))).
Defined.

End CleanedMore.

(** * Attaching the document metadata *)

Module ReadyFacts.
Import Ready.

Section SearchFacts.
Variable lowerCase : jsstring -> jsstring.
Variable fileName : jsstring.

Lemma search_stops (documents : list DocumentEntry) :
  forall matchUrl matchTitle,
    match matchUrl with Some u => nonempty u | None => false end = false ->
    match find (stops lowerCase fileName) documents with
    | Some doc =>
        search lowerCase fileName documents matchUrl matchTitle
        = (Some (url doc), Some (title doc))
    | None =>
        match fst (search lowerCase fileName documents matchUrl matchTitle) with
        | Some u => nonempty u
        | None => false
        end = false
    end.
Proof.
  induction documents as [|doc rest IH]; intros matchUrl matchTitle Hfalsy;
    [exact Hfalsy|].
  cbn [find search]. unfold stops.
  destruct (text_matches lowerCase fileName doc); [reflexivity|]. cbn [orb].
  destruct (pdfs doc) as [entries|]; [|now apply IH].
  destruct (existsb (pdf_entry_matches lowerCase fileName) entries); cbn [andb].
  - destruct (nonempty (url doc)) eqn:Hurl; [reflexivity|].
    now apply IH.
  - rewrite Hfalsy. now apply IH.
Qed.

(** X24. Which document gives a file its metadata.  The search stops at the
    first document whose [textFile] is the file name in lower case, or
    one of whose [pdfs] is the file name without [.txt] in lower case
    while its [url] is not empty; the file gets the [url] and the [title]
    of that document when both are non-empty, and no metadata otherwise.
    A document that matches by [pdfs] only and has an empty [url] does
    not stop the search; a document that matches by [textFile] stops it
    even with an empty [url] or [title]. *)
Theorem ready_metadata (documents : list DocumentEntry) :
  metadata lowerCase fileName documents
  = match find (stops lowerCase fileName) documents with
    | Some doc =>
        if nonempty (url doc) && nonempty (title doc)
        then Some (url doc, title doc) else None
    | None => None
    end.
Proof.
  unfold metadata.
  pose proof (search_stops documents None None eq_refl) as Hs.
  destruct (find (stops lowerCase fileName) documents) as [doc|].
  - now rewrite Hs.
  - destruct (search lowerCase fileName documents None None) as [[u|] [t|]];
      cbn [fst] in Hs; try reflexivity. now rewrite Hs.
Qed.

End SearchFacts.

Example ready_metadata_example :
  let d1 := {| url := []; title := lit "first"; textFile := None;
               pdfs := Some [lit "Doc.PDF.txt"] |} in
  let d2 := {| url := lit "u2"; title := lit "second"; textFile := None;
               pdfs := Some [lit "doc.pdf"] |} in
  let d3 := {| url := []; title := lit "third"; textFile := Some (lit "doc.pdf.txt");
               pdfs := None |} in
  metadata toLowerCase (lit "doc.pdf.txt") [d1; d2; d3] = Some (lit "u2", lit "second")
  /\ metadata toLowerCase (lit "doc.pdf.txt") [d3; d2] = None
  /\ metadata toLowerCase (lit "doc.pdf.txt") [d1] = None.
Proof. cbv zeta. repeat split; reflexivity. Qed.

Lemma starts_with_app (pattern s rest : jsstring) :
  (length pattern <= length s)%nat ->
  starts_with pattern (s ++ rest) = starts_with pattern s.
Proof.
  intros Hlen. unfold starts_with. rewrite firstn_app.
  replace (length pattern - length s)%nat with 0%nat by lia.
  now rewrite app_nil_r.
Qed.

Lemma replace_first_at (pattern pre post : jsstring) :
  pattern <> [] ->
  occurs pattern (pre ++ removelast pattern) = false ->
  replace_first pattern [] (pre ++ pattern ++ post) = pre ++ post.
Proof.
  intros Hpat. induction pre as [|c pre IH]; intros Hocc.
  - cbn [app]. destruct (pattern ++ post) as [|x l] eqn:E.
    + apply app_eq_nil in E as [E _]. congruence.
    + cbn [replace_first]. rewrite <- E. unfold starts_with.
      rewrite firstn_app, Nat.sub_diag, firstn_all. cbn [firstn].
      rewrite app_nil_r, bool_decide_eq_true_2 by reflexivity.
      cbn [app]. apply drop_app_length.
  - cbn [app occurs] in Hocc. apply orb_false_iff in Hocc as [Hhere Hrest].
    cbn [app replace_first].
    assert (Hsw : starts_with pattern (c :: pre ++ pattern ++ post) = false).
    { pose proof (app_removelast_last c Hpat) as E.
      set (init := removelast pattern) in *. set (z := List.last pattern c) in *.
      clearbody init z.
      rewrite <- Hhere.
      replace (c :: pre ++ pattern ++ post)
        with ((c :: pre ++ init) ++ [z] ++ post)
        by (rewrite E at 1; cbn [app]; now rewrite <- !app_assoc).
      apply starts_with_app.
      cbn [length]. rewrite length_app, E, length_app. cbn [length]. lia. }
    rewrite Hsw. f_equal. now apply IH.
Qed.

(** X25. The name looked up for a PDF is the file name without its first
    [.txt], which is the trailing one only when there is no earlier one:
    for the document that the re-indexer writes for a group
    [<stem>.pdf] without [.txt] in its name, it is the group name. *)
Theorem pdf_name_of_group (stem : jsstring) :
  occurs (lit ".txt") (stem ++ lit ".pdf" ++ lit ".tx") = false ->
  StitchCleaned.finalFileName (stem ++ lit ".pdf") = stem ++ lit ".pdf.txt"
  /\ endsWith (StitchCleaned.finalFileName (stem ++ lit ".pdf")) (lit ".pdf.txt") = true
  /\ pdfName (StitchCleaned.finalFileName (stem ++ lit ".pdf")) = stem ++ lit ".pdf".
Proof.
  intros Hocc.
  assert (Hname : StitchCleaned.finalFileName (stem ++ lit ".pdf")
                  = stem ++ lit ".pdf.txt").
  { unfold StitchCleaned.finalFileName.
    destruct (endsWith (toLowerCase (stem ++ lit ".pdf")) TXT) eqn:E.
    - apply PipelineFacts.endsWith_true in E as [p E].
      rewrite PipelineFacts.toLowerCase_app in E.
      apply app_inj_2 in E as [_ E]; [discriminate|reflexivity].
    - cbn [negb]. now rewrite <- app_assoc. }
  split; [exact Hname|]. split.
  - rewrite Hname. apply PipelineFacts.endsWith_true. now exists stem.
  - rewrite Hname. unfold pdfName.
    change (stem ++ lit ".pdf.txt") with (stem ++ lit ".pdf" ++ lit ".txt" ++ []).
    rewrite app_assoc.
    rewrite (replace_first_at (lit ".txt") (stem ++ lit ".pdf") []).
    + now rewrite app_nil_r.
    + discriminate.
    + now rewrite <- app_assoc.
Qed.

Lemma pdf_name_of_group_witness :
  occurs (lit ".txt") (lit "doc" ++ lit ".pdf" ++ lit ".tx") = false
  /\ pdfName (StitchCleaned.finalFileName (lit "doc" ++ lit ".pdf")) = lit "doc.pdf".
Proof.
  assert (H : occurs (lit ".txt") (lit "doc" ++ lit ".pdf" ++ lit ".tx") = false)
    by reflexivity.
  exact (conj H (proj2 (proj2 (pdf_name_of_group (lit "doc") H)))).
Defined.

Example pdf_name_earlier_txt :
  pdfName (lit "a.txt.pdf.txt") = lit "a.pdf.txt".
Proof. reflexivity. Qed.

End ReadyFacts.
